(** * MuSync: track reconciliation and transfer pipeline

    A shallow embedding of the core of the MuSync repository
    ([app/domain/normalization.py], [app/application/idempotency.py],
    [app/application/matching.py], [app/application/pipeline.py]) together
    with the properties its specification states about it.

    Python values are modelled as follows.
    - [str] is a list of Unicode code points ([N]); literals are written
      [py "..."] (ASCII only).
    - [int] is [Z]; [Optional[T]] is [option T].
    - [float] confidences are IEEE-754 binary64 values, represented by the
      Standard Library's [spec_float] with its comparison functions.
    - Exceptions are values of type [exn]; code that may raise returns a
      [result]. *)

From Stdlib Require Import ZArith QArith Floats SpecFloat Ascii String DecimalString.
From stdpp Require Import base option list sorting strings gmap.

Local Open Scope Z_scope.

(** ** Strings *)

Module Str.

Definition char := N.
Definition str := list char.

Definition py (s : string) : str :=
  map N_of_ascii (list_ascii_of_string s).

Definition ch (a : ascii) : char := N_of_ascii a.
Arguments ch : simpl never.

Definition str_eqb (a b : str) : bool := bool_decide (a = b).

(** [a < b] on Python strings: lexicographic on code points. *)
Fixpoint str_ltb (a b : str) : bool :=
  match a, b with
  | _, [] => false
  | [], _ :: _ => true
  | x :: a', y :: b' =>
      if N.ltb x y then true
      else if N.ltb y x then false
      else str_ltb a' b'
  end.

(** [sep.join(parts)]. *)
Fixpoint join (sep : str) (parts : list str) : str :=
  match parts with
  | [] => []
  | [p] => p
  | p :: rest => p ++ sep ++ join sep rest
  end.

(** [s.startswith(p)]. *)
Fixpoint startswith (p s : str) : bool :=
  match p, s with
  | [], _ => true
  | _ :: _, [] => false
  | x :: p', y :: s' => N.eqb x y && startswith p' s'
  end.

(** [str(n)] for an [int]. *)
Definition str_of_Z (n : Z) : str :=
  py (NilZero.string_of_int (Z.to_int n)).

(** Truthiness of an [Optional[str]]: [None] and [""] are falsy. *)
Definition truthy (o : option str) : bool :=
  match o with
  | Some (_ :: _) => true
  | _ => false
  end.

(** [o or ""]. *)
Definition or_empty (o : option str) : str :=
  match o with
  | Some s => s
  | None => []
  end.

End Str.
Export Str.

(** ** Sorting

    [list.sort] and [sorted] only ever ask whether [x < y].  They are
    stable; on keys whose [<] is a strict weak order every stable sort
    returns the same list, and the embedding uses stable insertion. *)

Section PySort.
Context {A : Type} (lt : A → A → bool).

Fixpoint sort_insert (x : A) (l : list A) : list A :=
  match l with
  | [] => [x]
  | y :: l' => if lt x y then x :: y :: l' else y :: sort_insert x l'
  end.

(** Elements are inserted from the left, each one after the elements
    already placed that are not greater: equal keys keep their order.
    This is the list that [sorted] returns when [lt] is a strict weak
    order on the keys, as it is on strings, integers and the floats
    other than NaN. *)
Definition py_sorted (l : list A) : list A :=
  fold_left (fun acc x => sort_insert x acc) l [].

(** [sorted(l, key=..., reverse=True)]: CPython reverses, sorts and
    reverses again, which keeps equal keys in their original order. *)
Definition py_sorted_reverse (l : list A) : list A :=
  rev (py_sorted (rev l)).

(** [x <= y] as the sort sees it: not [y < x]. *)
Definition le_of (x y : A) : Prop := lt y x = false.
End PySort.

(** ** Unicode tables

    [normalize_string] consults CPython's Unicode database through
    [unicodedata.normalize], [unicodedata.combining], [str.lower] and the
    [\w], [\s] and [\b] classes of [re].  The database is an interface; the
    instance [ascii_tables] below is its restriction to ASCII. *)

Class UnicodeData := {
  (** full compatibility decomposition of one code point *)
  nfkd : char → str;
  (** canonical combining class, [unicodedata.combining] *)
  combining : char → N;
  (** [str.lower]; a function of the whole string (final sigma) *)
  lower : str → str;
  (** [\w] of [re] on [str] patterns *)
  is_word : char → bool;
  (** [\s] of [re], which is also [str.isspace] *)
  is_space : char → bool;
  (** the characters accepted by [str.isdigit] *)
  is_digit : char → bool
}.

Module Ascii7.

Definition is_upper (c : char) : bool := N.leb 65 c && N.leb c 90.
Definition is_lower (c : char) : bool := N.leb 97 c && N.leb c 122.
Definition is_decimal (c : char) : bool := N.leb 48 c && N.leb c 57.

Definition to_lower (c : char) : char :=
  if is_upper c then (c + 32)%N else c.

(** [[a-zA-Z0-9_]] *)
Definition word (c : char) : bool :=
  is_upper c || is_lower c || is_decimal c || N.eqb c 95.

(** TAB, LF, VT, FF, CR, FS, GS, RS, US and SPACE *)
Definition space (c : char) : bool :=
  (N.leb 9 c && N.leb c 13) || (N.leb 28 c && N.leb c 31) || N.eqb c 32.

End Ascii7.

(** The tables on ASCII.  Code points above 127 are left alone by this
    instance (no decomposition, no case, neither word nor space); ASCII
    text is handled as CPython does. *)
#[export] Instance ascii_tables : UnicodeData := {|
  nfkd c := [c];
  combining _ := 0%N;
  lower s := map Ascii7.to_lower s;
  is_word := Ascii7.word;
  is_space := Ascii7.space;
  is_digit := Ascii7.is_decimal
|}.

(** ** Normalizer ([app/domain/normalization.py]) *)

Section Normalization.
Context {U : UnicodeData}.

(** [_strip_diacritics]: NFKD, then drop every character with a non-zero
    combining class.  NFKD decomposes each code point and reorders marks
    of non-zero class among themselves; those are exactly the characters
    dropped, so the result is the filtered concatenation. *)
Definition _strip_diacritics (text : str) : str :=
  List.filter (fun c => N.eqb (combining c) 0) (flat_map nfkd text).

(** [value.replace("&", " and ")] *)
Definition replace_amp (value : str) : str :=
  flat_map (fun c => if N.eqb c (ch "&") then py " and " else [c]) value.

(** [\b] between two neighbouring positions; [None] is an end of the
    string. *)
Definition opt_word (o : option char) : bool :=
  match o with
  | Some c => is_word c
  | None => false
  end.

Definition word_boundary (before after : option char) : bool :=
  xorb (opt_word before) (opt_word after).

(** A pattern letter under [re.IGNORECASE]: the letter or its capital. *)
Definition ci (letter : ascii) (c : char) : bool :=
  N.eqb c (ch letter) || N.eqb (c + 32) (ch letter).

(** [_FEAT_PATTERN = \b(feat\.?|ft\.)\b] tried at one position: [before]
    is the character in front of it, the result the length of the match.
    The alternatives are tried in order, [\.?] greedily. *)
Definition feat_match (before : option char) (s : str) : option nat :=
  if negb (word_boundary before (head s)) then None
  else
    match s with
    | f :: e :: a :: t :: r =>
        if ci "f" f && ci "e" e && ci "a" a && ci "t" t then
          match r with
          | d :: r' =>
              if N.eqb d (ch ".") && word_boundary (Some d) (head r')
              then Some 5%nat
              else if word_boundary (Some t) (Some d) then Some 4%nat
              else None
          | [] => if word_boundary (Some t) None then Some 4%nat else None
          end
        else
          if ci "f" f && ci "t" e && N.eqb a (ch ".")
             && word_boundary (Some a) (Some t)
          then Some 3%nat else None
    | [f; t; d] =>
        if ci "f" f && ci "t" t && N.eqb d (ch ".")
           && word_boundary (Some d) None
        then Some 3%nat else None
    | _ => None
    end.

(** [pattern.sub(" ", value)] for a pattern whose matches are not empty:
    scan from the left, replace the leftmost match by one space and go
    on behind it.  [skip] counts the characters of the current match
    still to be passed over. *)
Fixpoint sub_scan (m : option char → str → option nat)
    (before : option char) (skip : nat) (s : str) : str :=
  match s with
  | [] => []
  | c :: s' =>
      match skip with
      | S k => sub_scan m (Some c) k s'
      | O =>
          match m before s with
          | Some n => ch " " :: sub_scan m (Some c) (pred n) s'
          | None => c :: sub_scan m (Some c) O s'
          end
      end
  end.

Definition feat_sub (value : str) : str := sub_scan feat_match None O value.

Definition is_open (c : char) : bool :=
  N.eqb c (ch "(") || N.eqb c (ch "[") || N.eqb c (ch "{").
Definition is_close (c : char) : bool :=
  N.eqb c (ch ")") || N.eqb c (ch "]") || N.eqb c (ch "}").

Fixpoint span_len (p : char → bool) (s : str) : nat :=
  match s with
  | c :: s' => if p c then S (span_len p s') else O
  | [] => O
  end.

(** [_PARENS_CONTENT_PATTERN = \s*[\(\[\{][^\)\]\}]*[\)\]\}]\s*] tried at
    the start of [s].  Every quantifier is greedy and none can give a
    character back to what follows it: a bracket is not white space
    and the body stops in front of the first closing bracket. *)
Definition parens_match (s : str) : option nat :=
  let n1 := span_len is_space s in
  match drop n1 s with
  | o :: s1 =>
      if is_open o then
        let n2 := span_len (fun c => negb (is_close c)) s1 in
        match drop n2 s1 with
        | _ :: s2 => Some (n1 + 1 + n2 + 1 + span_len is_space s2)%nat
        | [] => None
        end
      else None
  | [] => None
  end.

Definition parens_sub (value : str) : str :=
  sub_scan (fun _ => parens_match) None O value.

(** The [while True] loop: substitute until nothing changes.  A round
    that changes the string shortens it, so [length value] rounds are
    enough (see [strip_parens_fixed]). *)
Fixpoint parens_loop (rounds : nat) (value : str) : str :=
  match rounds with
  | O => value
  | S k =>
      let new_value := parens_sub value in
      if str_eqb new_value value then value else parens_loop k new_value
  end.

Definition strip_parens (value : str) : str :=
  parens_loop (length value) value.

Definition blank_if (p : char → bool) (value : str) : str :=
  map (fun c => if p c then ch " " else c) value.

(** [_MULTISPACE_PATTERN = \s+] tried at the start of [s]. *)
Definition spaces_match (s : str) : option nat :=
  match span_len is_space s with
  | O => None
  | n => Some n
  end.

Definition collapse_spaces (value : str) : str :=
  sub_scan (fun _ => spaces_match) None O value.

Fixpoint lstrip (value : str) : str :=
  match value with
  | c :: s' => if is_space c then lstrip s' else value
  | [] => []
  end.

(** [value.strip()] *)
Definition strip (value : str) : str := rev (lstrip (rev (lstrip value))).

Definition normalize_string (value : str) : str :=
  let value := _strip_diacritics value in
  let value := lower value in
  let value := replace_amp value in
  let value := feat_sub value in
  let value := strip_parens value in
  let value := blank_if (fun c => is_open c || is_close c) value in
  let value := blank_if (fun c => negb (is_word c) && negb (is_space c)) value in
  let value := blank_if (fun c => N.eqb c (ch "_")) value in
  strip (collapse_spaces value).

End Normalization.


(** ** Domain entities ([app/domain/entities.py]) and errors
    ([app/domain/errors.py]) *)

Record Track := {
  track_id : option str;
  source_id : str;
  title : str;
  artists : list str;
  duration_ms : Z;
  isrc : option str;
  album : option str;
  track_uri : option str
}.

Record Playlist := {
  playlist_id : str;
  playlist_name : str;
  owner_id : str;
  is_owned : bool;
  track_count : Z
}.

(** A search candidate.  [uri] is declared [str], but the dataclass accepts
    whatever the provider passes, [None] included. *)
Record Candidate := {
  cand_uri : option str;
  cand_confidence : spec_float;
  cand_reason : str;
  cand_title : option str;
  cand_artists : option (list str);
  cand_album : option str;
  cand_duration_ms : option Z;
  cand_rank : option Z;
  cand_album_type : option str
}.

Record AddResult := {
  added : Z;
  duplicates : Z;
  errors : Z
}.

(** Exceptions, each with the text [str(e)] gives. *)
Inductive exn :=
| RateLimited (retry_after_ms : Z) (message : str)
| TemporaryFailure (message : str)
| PermanentFailure (message : str)
| NotFound (message : str)
| ValueError (message : str)
| UnicodeEncodeError (message : str)
| OverflowError (message : str)
| OtherException (message : str).

Definition exn_str (e : exn) : str :=
  match e with
  | RateLimited _ m | TemporaryFailure m | PermanentFailure m | NotFound m
  | ValueError m | UnicodeEncodeError m | OverflowError m
  | OtherException m => m
  end.

Inductive result (A : Type) :=
| Ok (a : A)
| Raise (e : exn).
Arguments Ok {A} a.
Arguments Raise {A} e.

(** ** Identity keys ([app/domain/normalization.py], continued) *)

Section Keys.
Context {U : UnicodeData}.

Definition _strip_leading_articles (name : str) : str :=
  if startswith (py "the ") name then drop 4 name else name.

Definition nonempty (s : str) : bool :=
  match s with
  | [] => false
  | _ => true
  end.

Definition normalize_artists_joined (artists : list str) : str :=
  let normalized :=
    py_sorted str_ltb
      (map (fun a => _strip_leading_articles (normalize_string a))
           (List.filter nonempty artists)) in
  join (py " ") (List.filter nonempty normalized).

(** [int(round(duration_ms / bucket)) * bucket].  The quotient is a
    float and [round] rounds halves to even; below [2^52] the float
    quotient is on the same side of every half as the exact one, so the
    rounding is computed on integers. *)
Definition round_half_even (n d : Z) : Z :=
  let q := n / d in
  let r := n mod d in
  if 2 * r <? d then q
  else if d <? 2 * r then q + 1
  else if Z.even q then q else q + 1.

(** This is the rounding of the code for durations below [2^52].  From
    [2^53] on the float quotient need not be the exact one, and for a
    duration beyond the floats the division raises [OverflowError]; the
    properties that depend on the value are stated below [2^52]. *)
Definition round_duration_ms (duration_ms tolerance_ms : Z) : Z :=
  if duration_ms <? 0 then 0
  else
    let bucket := Z.max 1 tolerance_ms in
    round_half_even duration_ms bucket * bucket.

Definition build_track_key (track : Track) (tolerance_ms : Z) : str :=
  if truthy (isrc track) then py "isrc:" ++ or_empty (isrc track)
  else
    let title_n := normalize_string (title track) in
    let artists_n := normalize_artists_joined (artists track) in
    let dur_r := round_duration_ms (duration_ms track) tolerance_ms in
    py "meta:" ++ title_n ++ py "::" ++ artists_n ++ py "::" ++ str_of_Z dur_r.

End Keys.

(** ** Bytes and SHA-256

    [str.encode('utf-8')] and [hashlib.sha256(...).hexdigest()].  Bytes and
    32-bit words are integers; additions wrap at [2^32]. *)

Module Sha256.

Definition bytes := list Z.

(** UTF-8; a surrogate cannot be encoded. *)
Definition encode_char (c : Z) : option bytes :=
  if c <? 0x80 then Some [c]
  else if c <? 0x800 then
    Some [Z.lor 0xC0 (Z.shiftr c 6); Z.lor 0x80 (Z.land c 0x3F)]
  else if (0xD800 <=? c) && (c <=? 0xDFFF) then None
  else if c <? 0x10000 then
    Some [Z.lor 0xE0 (Z.shiftr c 12);
          Z.lor 0x80 (Z.land (Z.shiftr c 6) 0x3F);
          Z.lor 0x80 (Z.land c 0x3F)]
  else if c <? 0x110000 then
    Some [Z.lor 0xF0 (Z.shiftr c 18);
          Z.lor 0x80 (Z.land (Z.shiftr c 12) 0x3F);
          Z.lor 0x80 (Z.land (Z.shiftr c 6) 0x3F);
          Z.lor 0x80 (Z.land c 0x3F)]
  else None.

Fixpoint encode_utf8 (s : str) : option bytes :=
  match s with
  | [] => Some []
  | c :: s' =>
      match encode_char (Z.of_N c), encode_utf8 s' with
      | Some b, Some bs => Some (b ++ bs)
      | _, _ => None
      end
  end.

Definition w32 (x : Z) : Z := Z.land x 0xFFFFFFFF.
Definition add32 (x y : Z) : Z := w32 (x + y).
Definition rotr (n x : Z) : Z :=
  Z.lor (Z.shiftr x n) (w32 (Z.shiftl x (32 - n))).

(** The primes below [n], by trial division. *)
Definition is_prime (n : Z) : bool :=
  forallb (fun d => negb (n mod Z.of_nat d =? 0)) (seq 2 (Z.to_nat n - 2)).

Definition primes_below (n : nat) : list Z :=
  List.filter is_prime (map Z.of_nat (seq 2 (n - 2))).

(** The integer cube root, one bit after the other from bit [bits - 1]. *)
Fixpoint cube_root (bits : nat) (n r : Z) : Z :=
  match bits with
  | O => r
  | S k =>
      let r' := r + 2 ^ Z.of_nat k in
      cube_root k n (if r' * r' * r' <=? n then r' else r)
  end.

(** The round constants: the first 32 bits of the fractional parts of the
    cube roots of the first 64 primes. *)
Definition K : list Z :=
  Eval vm_compute in
    map (fun p => w32 (cube_root 36 (Z.shiftl p 96) 0)) (primes_below 312).

(** The initial state: the same for the square roots of the first 8
    primes. *)
Definition init_words : list Z :=
  Eval vm_compute in
    map (fun p => w32 (Z.sqrt (Z.shiftl p 64))) (primes_below 20).

(** Big-endian bytes of [x], [n] of them. *)
Fixpoint be_bytes (n : nat) (x : Z) : bytes :=
  match n with
  | O => []
  | S k => Z.land (Z.shiftr x (8 * Z.of_nat k)) 0xFF :: be_bytes k x
  end.

(** The message, a [0x80] byte, zeros up to 56 modulo 64, and the length
    in bits on eight bytes. *)
Definition pad (msg : bytes) : bytes :=
  let len := Z.of_nat (length msg) in
  let zeros := Z.to_nat ((55 - len) mod 64) in
  msg ++ [0x80] ++ repeat 0 zeros ++ be_bytes 8 (8 * len).

Fixpoint words (fuel : nat) (b : bytes) : list Z :=
  match fuel, b with
  | S k, b0 :: b1 :: b2 :: b3 :: rest =>
      (Z.shiftl b0 24 + Z.shiftl b1 16 + Z.shiftl b2 8 + b3) :: words k rest
  | _, _ => []
  end.

Definition sigma0 (x : Z) : Z :=
  Z.lxor (Z.lxor (rotr 7 x) (rotr 18 x)) (Z.shiftr x 3).
Definition sigma1 (x : Z) : Z :=
  Z.lxor (Z.lxor (rotr 17 x) (rotr 19 x)) (Z.shiftr x 10).
Definition Sigma0 (x : Z) : Z :=
  Z.lxor (Z.lxor (rotr 2 x) (rotr 13 x)) (rotr 22 x).
Definition Sigma1 (x : Z) : Z :=
  Z.lxor (Z.lxor (rotr 6 x) (rotr 11 x)) (rotr 25 x).
Definition Ch (x y z : Z) : Z :=
  Z.lxor (Z.land x y) (Z.land (Z.lxor x 0xFFFFFFFF) z).
Definition Maj (x y z : Z) : Z :=
  Z.lxor (Z.lxor (Z.land x y) (Z.land x z)) (Z.land y z).

(** The message schedule, kept newest first: [w] holds [W(t-1) .. W(0)]. *)
Fixpoint schedule (n : nat) (w : list Z) : list Z :=
  match n with
  | O => w
  | S k =>
      let x :=
        add32 (add32 (sigma1 (nth 1 w 0)) (nth 6 w 0))
              (add32 (sigma0 (nth 14 w 0)) (nth 15 w 0)) in
      schedule k (x :: w)
  end.

Definition state := (Z * Z * Z * Z * Z * Z * Z * Z)%type.

Definition round (s : state) (kw : Z * Z) : state :=
  let '(a, b, c, d, e, f, g, h) := s in
  let t1 := add32 (add32 (add32 h (Sigma1 e)) (Ch e f g))
                  (add32 (fst kw) (snd kw)) in
  let t2 := add32 (Sigma0 a) (Maj a b c) in
  (add32 t1 t2, a, b, c, add32 d t1, e, f, g).

Definition compress (s : state) (block : list Z) : state :=
  let w := rev (schedule 48 (rev block)) in
  let '(a, b, c, d, e, f, g, h) := fold_left round (combine K w) s in
  let '(a0, b0, c0, d0, e0, f0, g0, h0) := s in
  (add32 a0 a, add32 b0 b, add32 c0 c, add32 d0 d,
   add32 e0 e, add32 f0 f, add32 g0 g, add32 h0 h).

Fixpoint blocks (fuel : nat) (w : list Z) : list (list Z) :=
  match fuel, w with
  | S k, _ :: _ => take 16 w :: blocks k (drop 16 w)
  | _, _ => []
  end.

Definition init : state :=
  let h := fun i => nth i init_words 0 in
  (h 0%nat, h 1%nat, h 2%nat, h 3%nat, h 4%nat, h 5%nat, h 6%nat, h 7%nat).

Definition digest (msg : bytes) : bytes :=
  let p := pad msg in
  let w := words (length p) p in
  let '(a, b, c, d, e, f, g, h) :=
    fold_left compress (blocks (length w) w) init in
  flat_map (be_bytes 4) [a; b; c; d; e; f; g; h].

Definition hex_digit (x : Z) : char :=
  Z.to_N (if x <? 10 then 48 + x else 87 + x).

Definition hexdigest (msg : bytes) : str :=
  flat_map (fun b => [hex_digit (Z.shiftr b 4); hex_digit (Z.land b 15)])
           (digest msg).

End Sha256.

(** ** Idempotency layer ([app/application/idempotency.py]) *)

(** The digest of the bytes [b"empty_snapshot"], in hexadecimal. *)
Definition empty_snapshot_digest : str :=
  py "3799550d8e54228bb82f2ad8d4df4a4bc6a41b51f1096218ba6dfb17c9b0c466".

Section Idempotency.
Context {U : UnicodeData}.

Definition sha256_of_str (s : str) : result str :=
  match Sha256.encode_utf8 s with
  | Some b => Ok (Sha256.hexdigest b)
  | None => Raise (UnicodeEncodeError (py "surrogates not allowed"))
  end.

Definition calculate_snapshot_hash (tracks : list Track) : result str :=
  match tracks with
  | [] => Ok (Sha256.hexdigest (map Z.of_N (py "empty_snapshot")))
  | _ =>
      let track_keys := map (fun t => build_track_key t 2000) tracks in
      let track_keys := py_sorted str_ltb track_keys in
      let snapshot_str := join (py (String (ascii_of_nat 10) EmptyString)) track_keys in
      sha256_of_str snapshot_str
  end.

End Idempotency.


(** ** Matcher ([app/application/matching.py]) *)

Module Float.
(** The binary64 values of the literals the matcher uses. *)
Definition zero : spec_float := S754_zero false.
Definition one : spec_float := S754_finite false 4503599627370496 (-52).
Definition f0_95 : spec_float := S754_finite false 8556839292003942 (-53).
Definition f0_85 : spec_float := S754_finite false 7656119366529843 (-53).
Definition f0_80 : spec_float := S754_finite false 7205759403792794 (-53).
Definition f0_05 : spec_float := S754_finite false 7205759403792794 (-57).
End Float.

Record MatchResult := {
  uri : option str;
  confidence : spec_float;
  reason : str
}.

Record TrackMatcher := {
  exact_threshold : spec_float;
  fuzzy_threshold : spec_float;
  ambiguous_threshold : spec_float;
  allow_ambiguous_best : bool
}.

(** [TrackMatcher()] with the defaults of [__init__]. *)
Definition default_matcher : TrackMatcher := {|
  exact_threshold := Float.f0_95;
  fuzzy_threshold := Float.f0_85;
  ambiguous_threshold := Float.f0_05;
  allow_ambiguous_best := false
|}.

Definition not_found_result : MatchResult :=
  {| uri := None; confidence := Float.zero; reason := py "not_found" |}.

Definition result_of_candidate (c : Candidate) : MatchResult :=
  {| uri := cand_uri c;
     confidence := cand_confidence c;
     reason := cand_reason c |}.

Section Matching.
Context {U : UnicodeData}.

(** [s.split()]: the maximal runs of characters that are not white
    space.  [cur] is the run being read. *)
Fixpoint split_ws (cur : str) (s : str) : list str :=
  match s with
  | [] => if nonempty cur then [cur] else []
  | c :: s' =>
      if is_space c
      then (if nonempty cur then [cur] else []) ++ split_ws [] s'
      else split_ws (cur ++ [c]) s'
  end.

(** [tok.isdigit()] *)
Definition isdigit (tok : str) : bool :=
  nonempty tok && forallb is_digit tok.

Definition tail_tokens : list str :=
  [py "vol"; py "pt"; py "remaster"; py "remastered"; py "live"; py "edit"].

(** The returned [set] is only tested for emptiness and intersected;
    it is kept as a list. *)
Definition _tokenize_artist_names (artists : list str) : list str :=
  match artists with
  | [] => []
  | _ =>
      let normalized := normalize_artists_joined artists in
      let tokens := split_ws [] normalized in
      List.filter
        (fun tok => nonempty tok && negb (isdigit tok)
                    && negb (bool_decide (tok ∈ tail_tokens)))
        tokens
  end.

Definition artist_overlap_ok (source_artist_tokens : list str)
    (candidate_artists : option (list str)) : bool :=
  let cand_tokens := _tokenize_artist_names (default [] candidate_artists) in
  match source_artist_tokens with
  | _ :: _ =>
      existsb (fun t => bool_decide (t ∈ cand_tokens)) source_artist_tokens
  | [] =>
      match cand_tokens with
      | [] => false
      | _ => true
      end
  end.

Definition normalize_album (a : option str) : str :=
  normalize_string (or_empty a).

(** [rank if isinstance(rank, int) else 10**9] *)
Definition rank_key (c : Candidate) : Z := default (10 ^ 9) (cand_rank c).

(** [<] on the sort keys [((rank,), -confidence)]: tuples are compared
    at the first position where they are not [==]. *)
Definition pool_key_lt (a b : Candidate) : bool :=
  if rank_key a =? rank_key b then
    let na := SFopp (cand_confidence a) in
    let nb := SFopp (cand_confidence b) in
    if SFeqb na nb then false else SFltb na nb
  else rank_key a <? rank_key b.

Definition confidence_lt (a b : Candidate) : bool :=
  SFltb (cand_confidence a) (cand_confidence b).

(** The metadata rules: the value of [selected] in front of the
    fallback.  Every [Candidate] has the attributes [title] and
    [artists], so [meta_candidates] is the whole list. *)
Definition metadata_selection (source_track : Track)
    (candidates : list Candidate) : option Candidate :=
  let source_title_n := normalize_string (title source_track) in
  let source_artist_tokens := _tokenize_artist_names (artists source_track) in
  let meta_candidates := candidates in
  match meta_candidates, nonempty (title source_track), artists source_track with
  | _ :: _, true, _ :: _ =>
      let full_text :=
        List.filter
          (fun c =>
             str_eqb (normalize_string (or_empty (cand_title c))) source_title_n
             && artist_overlap_ok source_artist_tokens (cand_artists c))
          meta_candidates in
      let pool :=
        match full_text with
        | _ :: _ => full_text
        | [] =>
            List.filter
              (fun c => artist_overlap_ok source_artist_tokens (cand_artists c))
              meta_candidates
        end in
      let pool :=
        if truthy (album source_track) then
          let src_album_n := normalize_album (album source_track) in
          let album_matched :=
            List.filter
              (fun c => str_eqb (normalize_album (cand_album c)) src_album_n)
              pool in
          match album_matched with
          | _ :: _ => album_matched
          | [] => pool
          end
        else pool in
      match pool with
      | p0 :: _ => Some (hd p0 (py_sorted pool_key_lt pool))
      | [] => None
      end
  | _, _, _ => None
  end.

(** [selected] in front of the risk gate, for a list that starts with
    [c0]. *)
Definition selected_candidate (source_track : Track)
    (c0 : Candidate) (rest : list Candidate) : Candidate :=
  match metadata_selection source_track (c0 :: rest) with
  | Some c => c
  | None => hd c0 (py_sorted_reverse confidence_lt (c0 :: rest))
  end.

(** [os.getenv('MUSYNC_RISK_MODE', 'strict').lower()]; [env] is the
    value of the variable, [None] when it is not set. *)
Definition risk_mode (env : option str) : str :=
  lower (default (py "strict") env).

Definition min_conf (m : TrackMatcher) (env : option str) : spec_float :=
  if str_eqb (risk_mode env) (py "strict") then fuzzy_threshold m
  else if str_eqb (risk_mode env) (py "balanced") then Float.f0_80
  else Float.zero.

Definition find_best_match (m : TrackMatcher) (env : option str)
    (source_track : Track) (candidates : list Candidate) : MatchResult :=
  match candidates with
  | [] => not_found_result
  | c0 :: rest =>
      let selected := selected_candidate source_track c0 rest in
      if SFltb (cand_confidence selected) (min_conf m env)
      then not_found_result
      else result_of_candidate selected
  end.

Definition match_tracks_batch (m : TrackMatcher) (env : option str)
    (source_tracks : list Track)
    (target_provider_candidates : list (list Candidate))
    : result (list MatchResult) :=
  if negb (Nat.eqb (length source_tracks) (length target_provider_candidates))
  then Raise (ValueError (py "Number of source tracks must match number of candidate lists"))
  else Ok (map (fun p => find_best_match m env (fst p) (snd p))
               (combine source_tracks target_provider_candidates)).

(** The counters of the loop of [calculate_false_match_rate]. *)
Definition false_match_step (acc : nat * nat)
    (p : MatchResult * option str) : nat * nat :=
  let '(false_matches, total_matches) := acc in
  let '(r, expected_uri) := p in
  match uri r with
  | Some u =>
      let total_matches := S total_matches in
      match expected_uri with
      | Some e =>
          if negb (str_eqb u e) then (S false_matches, total_matches)
          else (false_matches, total_matches)
      | None => (false_matches, total_matches)
      end
  | None => (false_matches, total_matches)
  end.

(** The returned float is the correctly rounded quotient of the two
    counters; the embedding returns the quotient itself. *)
Definition calculate_false_match_rate (results : list MatchResult)
    (expected_uris : list (option str)) : result Q :=
  if negb (Nat.eqb (length results) (length expected_uris))
  then Raise (ValueError (py "Number of results must match number of expected URIs"))
  else
    match results with
    | [] => Ok 0%Q
    | _ =>
        let '(false_matches, total_matches) :=
          fold_left false_match_step (combine results expected_uris) (O, O) in
        match total_matches with
        | O => Ok 0%Q
        | S _ => Ok (Z.of_nat false_matches # Pos.of_nat total_matches)%Q
        end
    end.

End Matching.


(** ** Transfer pipeline ([app/application/pipeline.py]) *)

Record TransferResult := {
  tr_playlist_id : str;
  tr_playlist_name : str;
  total_tracks : Z;
  matched_tracks : Z;
  not_found_tracks : Z;
  ambiguous_tracks : Z;
  added_tracks : Z;
  duplicate_tracks : Z;
  failed_tracks : Z;
  tr_errors : list str;
  tr_duration_ms : Z
}.

(** The checkpoint dictionary, with the keys the pipeline writes
    ([cursor] and [metadata] flattened).  Time stamps are clock readings
    in milliseconds. *)
Record checkpoint := {
  jobId : str;
  snapshotHash : option str;
  playlistId : str;
  batchIndex : Z;
  stage : str;
  cursor_trackIndex : Z;
  cursor_batchTrackIndex : Z;
  addedUris : list str;
  attempts : Z;
  updatedAt : Z;
  metadata_totalTracks : Z;
  metadata_processedTracks : Z;
  metadata_batchSize : Z
}.

(** The port of [app/domain/ports.py].  A provider lives in a world of
    type [W]; every call may change the world and may raise. *)
Record MusicProvider (W : Type) := {
  list_owned_playlists : W → result (list Playlist) * W;
  list_tracks : str → W → result (list Track) * W;
  find_track_candidates : Track → Z → W → result (list Candidate) * W;
  resolve_or_create_playlist : str → W → result Playlist * W;
  add_tracks_batch : str → list str → W → result AddResult * W
}.
Arguments list_owned_playlists {W}.
Arguments list_tracks {W}.
Arguments find_track_candidates {W}.
Arguments resolve_or_create_playlist {W}.
Arguments add_tracks_batch {W}.

Record BatchProcessor := {
  batch_size : Z;
  max_retries : Z
}.

(** A [TransferPipeline] with what surrounds it: the clock behind
    [datetime.now()] and the value of [MUSYNC_RISK_MODE] in the environment
    of the process ([None] when it is not set). *)
Record TransferPipeline (W : Type) := {
  source_provider : MusicProvider W;
  target_provider : MusicProvider W;
  matcher : TrackMatcher;
  batch_processor : BatchProcessor;
  now : W → Z * W;
  risk_mode_env : option str
}.
Arguments source_provider {W}.
Arguments target_provider {W}.
Arguments matcher {W}.
Arguments batch_processor {W}.
Arguments now {W}.
Arguments risk_mode_env {W}.

(** What a run does to the outside, in order: the candidate lookups and the
    batch writes it asks of the target provider, with their answers, its
    sleeps, and the checkpoints it saves. *)
Inductive event :=
| EvFindTrackCandidates (track : Track) (top_k : Z)
    (answer : result (list Candidate))
| EvAddTracksBatch (playlist : str) (track_uris : list str)
    (answer : result AddResult)
| EvSleep (seconds : Q)
| EvSaveCheckpoint (filename : str) (data : checkpoint).

(** The world, the files of the checkpoint directory by name, and the
    events so far (oldest first). *)
Record state (W : Type) := {
  world : W;
  files : gmap str checkpoint;
  log : list event
}.
Arguments world {W}.
Arguments files {W}.
Arguments log {W}.
Arguments Build_state {W}.

(** A computation returns, raises, or is still in the retry loop when
    its fuel is used up. *)
Inductive outcome (A : Type) :=
| Return (a : A)
| Raised (e : exn)
| OutOfFuel.
Arguments Return {A} a.
Arguments Raised {A} e.
Arguments OutOfFuel {A}.

Module Run.
Section Monad.
Context {W : Type}.

Definition M (A : Type) : Type := state W → outcome A * state W.

Definition ret {A} (a : A) : M A := fun s => (Return a, s).
Definition raise {A} (e : exn) : M A := fun s => (Raised e, s).
Definition out_of_fuel {A} : M A := fun s => (OutOfFuel, s).

Definition bind {A B} (m : M A) (k : A → M B) : M B :=
  fun s =>
  match m s with
  | (Return a, s') => k a s'
  | (Raised e, s') => (Raised e, s')
  | (OutOfFuel, s') => (OutOfFuel, s')
  end.

(** [try: m except Exception as e: h e] *)
Definition try_except {A} (m : M A) (h : exn → M A) : M A :=
  fun s =>
  match m s with
  | (Raised e, s') => h e s'
  | r => r
  end.

Definition emit (e : event) : M unit :=
  fun s => (Return tt, Build_state (world s) (files s) (log s ++ [e])).

(** A call of a collaborator. *)
Definition call {A} (f : W → result A * W) : M A :=
  fun s =>
  let '(r, w) := f (world s) in
  let s' := Build_state w (files s) (log s) in
  match r with
  | Ok a => (Return a, s')
  | Raise e => (Raised e, s')
  end.

Definition read {A} (f : W → A * W) : M A :=
  fun s =>
  let '(a, w) := f (world s) in
  (Return a, Build_state w (files s) (log s)).

End Monad.
End Run.
Import Run.

#[export] Instance run_ret {W} : MRet (@M W) := @ret W.
#[export] Instance run_bind {W} : MBind (@M W) := fun A B k m => bind m k.

Section Pipeline.
Context {U : UnicodeData} {W : Type}.

(** *** CheckpointManager *)

(** [f"{job_id}_{playlist_id}.json"], the name of the file inside the
    checkpoint directory. *)
Definition checkpoint_filename (job_id playlist_id : str) : str :=
  job_id ++ py "_" ++ playlist_id ++ py ".json".

(** The checkpoint directory is taken to work: a file name is a key of
    the directory (the identifiers hold no path separator) and writing
    succeeds.  In the code a failing [open] or [json.dump] is logged and
    raised again. *)
Definition save_checkpoint (job_id playlist_id : str) (data : checkpoint)
    : M (W:=W) unit :=
  fun s =>
    let name := checkpoint_filename job_id playlist_id in
    (Return tt,
     Build_state (world s) (<[name := data]> (files s))
                 (log s ++ [EvSaveCheckpoint name data])).

Definition load_checkpoint (job_id playlist_id : str)
    : M (W:=W) (option checkpoint) :=
  fun s => (Return (files s !! checkpoint_filename job_id playlist_id), s).

(** [time.sleep(seconds)].  The length is first converted to a count of
    nanoseconds in a signed 64-bit integer, which raises [OverflowError]
    when the count does not fit; a length that fits and is negative is
    then refused with [ValueError].  ([retry_after_ms / 1000.0] raises
    [OverflowError] as well when the integer is beyond the floats, which
    is among the lengths that do not fit.)  The text of the
    [OverflowError] differs between versions of the interpreter.  A
    length that fits is handed to the operating system, which is taken
    to accept it: that holds up to [2^33] seconds, and beyond, close to
    the bound, it depends on the platform (CPython from 3.11 on adds the
    length to the monotonic clock, and the call fails when the sum
    leaves the range).  The properties below speak of lengths up to
    [2^33] seconds and of lengths that do not fit. *)
Definition fits_timestamp (seconds : Q) : bool :=
  Qle_bool (inject_Z (- 2 ^ 63)) (seconds * inject_Z (10 ^ 9))
  && negb (Qle_bool (inject_Z (2 ^ 63)) (seconds * inject_Z (10 ^ 9))).

Definition sleep (seconds : Q) : M (W:=W) unit :=
  if negb (fits_timestamp seconds) then
    raise (OverflowError (py "timestamp too large to convert to C PyTime_t"))
  else if Qle_bool 0 seconds then emit (EvSleep seconds)
  else raise (ValueError (py "sleep length must be non-negative")).

(** The lengths that [time.sleep] sleeps for. *)
Definition sleep_accepts (seconds : Q) : bool :=
  fits_timestamp seconds && Qle_bool 0 seconds.

(** [target_provider.find_track_candidates(track, top_k)] *)
Definition lookup_candidates (target : MusicProvider W) (track : Track)
    (top_k : Z) : M (W:=W) (list Candidate) :=
  fun s =>
    let '(answer, w) := find_track_candidates target track top_k (world s) in
    let s1 := Build_state w (files s)
                (log s ++ [EvFindTrackCandidates track top_k answer]) in
    match answer with
    | Ok candidates => (Return candidates, s1)
    | Raise e => (Raised e, s1)
    end.

(** *** BatchProcessor *)

Fixpoint chunks (fuel size : nat) (l : list str) : list (list str) :=
  match fuel, l with
  | S k, _ :: _ => take size l :: chunks k size (drop size l)
  | _, _ => []
  end.

(** [range(0, len(track_uris), batch_size)] raises for a zero step and
    is empty for a negative one. *)
Definition split_into_batches (bp : BatchProcessor) (track_uris : list str)
    : result (list (list str)) :=
  if batch_size bp =? 0
  then Raise (ValueError (py "range() arg 3 must not be zero"))
  else if batch_size bp <? 0 then Ok []
  else Ok (chunks (length track_uris) (Z.to_nat (batch_size bp)) track_uris).

Inductive attempt_result :=
| Done (r : AddResult)
| Again (attempt : Z).

(** [target_provider.add_tracks_batch(playlist_id, track_uris)] inside
    the [try]: the answer, a result or an exception, is handed to the
    clauses that follow. *)
Definition write_tracks (target : MusicProvider W) (playlist_id : str)
    (track_uris : list str) : M (W:=W) (result AddResult) :=
  fun s =>
    let '(answer, w) := add_tracks_batch target playlist_id track_uris (world s) in
    (Return answer,
     Build_state w (files s)
       (log s ++ [EvAddTracksBatch playlist_id track_uris answer])).

(** One turn of the [while] loop of [process_batch]. *)
Definition process_batch_attempt (target : MusicProvider W)
    (bp : BatchProcessor) (playlist_id : str) (track_uris : list str)
    (attempt : Z) : M (W:=W) attempt_result :=
  answer ← write_tracks target playlist_id track_uris;
  match answer with
  | Ok r => ret (Done r)
  | Raise (RateLimited retry_after_ms _) =>
      sleep (retry_after_ms # 1000);;
      ret (Again attempt)
  | Raise e =>
      let attempt := attempt + 1 in
      if attempt >? max_retries bp then
        raise (TemporaryFailure
                 (py "Failed to process batch after "
                  ++ str_of_Z (max_retries bp)
                  ++ py " retries: " ++ exn_str e))
      else
        sleep (inject_Z (2 ^ (attempt - 1)));;
        ret (Again attempt)
  end.

Fixpoint process_batch_loop (fuel : nat) (target : MusicProvider W)
    (bp : BatchProcessor) (playlist_id : str) (track_uris : list str)
    (attempt : Z) : M AddResult :=
  if attempt <=? max_retries bp then
    match fuel with
    | O => out_of_fuel
    | S k =>
        x ← process_batch_attempt target bp playlist_id track_uris attempt;
        match x with
        | Done r => ret r
        | Again attempt' =>
            process_batch_loop k target bp playlist_id track_uris attempt'
        end
    end
  else raise (TemporaryFailure (py "Unexpected error in batch processing")).

Definition process_batch (fuel : nat) (target : MusicProvider W)
    (bp : BatchProcessor) (playlist_id : str) (track_uris : list str)
    (job_id : str) (batch_index : Z) (dry_run : bool) : M AddResult :=
  if dry_run then
    ret {| added := Z.of_nat (length track_uris); duplicates := 0; errors := 0 |}
  else process_batch_loop fuel target bp playlist_id track_uris 0.

End Pipeline.


(** Python slices on lists. *)
Section Slices.
Context {A : Type}.

(** [l[i:]] *)
Definition slice_from (i : Z) (l : list A) : list A :=
  if i <? 0 then drop (Z.to_nat (Z.of_nat (length l) + i)) l
  else drop (Z.to_nat i) l.

(** [l[:i]] *)
Definition slice_to (i : Z) (l : list A) : list A :=
  if i <? 0 then take (Z.to_nat (Z.of_nat (length l) + i)) l
  else take (Z.to_nat i) l.
End Slices.

(** [sum(1 for r in match_results if p r)] *)
Definition count_if {A} (p : A → bool) (l : list A) : Z :=
  Z.of_nat (length (List.filter p l)).

Definition is_matched (r : MatchResult) : bool :=
  match uri r with
  | Some _ => true
  | None => false
  end.

Definition has_reason (name : string) (r : MatchResult) : bool :=
  str_eqb (reason r) (py name).

Definition error_result : MatchResult :=
  {| uri := None; confidence := Float.zero; reason := py "error" |}.

(** [Mock(uri="dummy", confidence=1.0, reason="already_processed")] *)
Definition dummy_result : MatchResult :=
  {| uri := Some (py "dummy"); confidence := Float.one;
     reason := py "already_processed" |}.

Section Transfer.
Context {U : UnicodeData} {W : Type}.
Variable P : TransferPipeline W.

Definition set_stage (name : string) (t : Z) (c : checkpoint) : checkpoint :=
  {| jobId := jobId c; snapshotHash := snapshotHash c;
     playlistId := playlistId c; batchIndex := batchIndex c;
     stage := py name;
     cursor_trackIndex := cursor_trackIndex c;
     cursor_batchTrackIndex := cursor_batchTrackIndex c;
     addedUris := addedUris c; attempts := attempts c;
     updatedAt := t;
     metadata_totalTracks := metadata_totalTracks c;
     metadata_processedTracks := metadata_processedTracks c;
     metadata_batchSize := metadata_batchSize c |}.

Definition set_total_tracks (n : Z) (c : checkpoint) : checkpoint :=
  {| jobId := jobId c; snapshotHash := snapshotHash c;
     playlistId := playlistId c; batchIndex := batchIndex c;
     stage := stage c;
     cursor_trackIndex := cursor_trackIndex c;
     cursor_batchTrackIndex := cursor_batchTrackIndex c;
     addedUris := addedUris c; attempts := attempts c;
     updatedAt := updatedAt c;
     metadata_totalTracks := n;
     metadata_processedTracks := metadata_processedTracks c;
     metadata_batchSize := metadata_batchSize c |}.

Definition set_progress (n t : Z) (c : checkpoint) : checkpoint :=
  {| jobId := jobId c; snapshotHash := snapshotHash c;
     playlistId := playlistId c; batchIndex := batchIndex c;
     stage := stage c;
     cursor_trackIndex := n;
     cursor_batchTrackIndex := cursor_batchTrackIndex c;
     addedUris := addedUris c; attempts := attempts c;
     updatedAt := t;
     metadata_totalTracks := metadata_totalTracks c;
     metadata_processedTracks := n;
     metadata_batchSize := metadata_batchSize c |}.

Definition set_batch_index (i t : Z) (c : checkpoint) : checkpoint :=
  {| jobId := jobId c; snapshotHash := snapshotHash c;
     playlistId := playlistId c; batchIndex := i;
     stage := stage c;
     cursor_trackIndex := cursor_trackIndex c;
     cursor_batchTrackIndex := cursor_batchTrackIndex c;
     addedUris := addedUris c; attempts := attempts c;
     updatedAt := t;
     metadata_totalTracks := metadata_totalTracks c;
     metadata_processedTracks := metadata_processedTracks c;
     metadata_batchSize := metadata_batchSize c |}.

Definition extend_added_uris (uris : list str) (c : checkpoint) : checkpoint :=
  {| jobId := jobId c; snapshotHash := snapshotHash c;
     playlistId := playlistId c; batchIndex := batchIndex c;
     stage := stage c;
     cursor_trackIndex := cursor_trackIndex c;
     cursor_batchTrackIndex := cursor_batchTrackIndex c;
     addedUris := addedUris c ++ uris; attempts := attempts c;
     updatedAt := updatedAt c;
     metadata_totalTracks := metadata_totalTracks c;
     metadata_processedTracks := metadata_processedTracks c;
     metadata_batchSize := metadata_batchSize c |}.

Definition initial_checkpoint (job_id : str) (snapshot_hash : option str)
    (playlist : str) (t : Z) : checkpoint :=
  {| jobId := job_id; snapshotHash := snapshot_hash;
     playlistId := playlist; batchIndex := 0;
     stage := py "scanning";
     cursor_trackIndex := 0; cursor_batchTrackIndex := 0;
     addedUris := []; attempts := 0;
     updatedAt := t;
     metadata_totalTracks := 0; metadata_processedTracks := 0;
     metadata_batchSize := batch_size (batch_processor P) |}.

(** The totals kept by the loop over the batches. *)
Record totals := {
  total_added : Z;
  total_duplicates : Z;
  total_errors : Z;
  error_messages : list str
}.

(** One batch: the body of the [for] loop of [_process_matched_tracks].
    The dictionary is updated in place, so what is written to it in front
    of [process_batch] is still there when the handler runs; saving does
    not raise, and the [try] is entered at [process_batch]. *)
Definition write_batch (fuel : nat) (target_playlist : Playlist)
    (job_id source_playlist_id : str) (dry_run : bool)
    (batch_index : Z) (batch_uris : list str)
    (acc : checkpoint * totals) : M (W:=W) (checkpoint * totals) :=
  let '(checkpoint_data, t) := acc in
  checkpoint_data ←
    (if dry_run then ret checkpoint_data
     else
       time ← read (now P);
       let checkpoint_data := set_batch_index batch_index time checkpoint_data in
       save_checkpoint job_id source_playlist_id checkpoint_data;;
       ret checkpoint_data);
  try_except
    (batch_result ←
       process_batch fuel (target_provider P) (batch_processor P)
         (playlist_id target_playlist) batch_uris job_id batch_index dry_run;
     let t' := {| total_added := total_added t + added batch_result;
                  total_duplicates := total_duplicates t + duplicates batch_result;
                  total_errors := total_errors t + errors batch_result;
                  error_messages := error_messages t |} in
     let checkpoint_data :=
       if dry_run then checkpoint_data
       else extend_added_uris (slice_to (added batch_result) batch_uris)
              checkpoint_data in
     ret (checkpoint_data, t'))
    (fun e =>
       let error_msg :=
         py "Failed to process batch " ++ str_of_Z batch_index
         ++ py ": " ++ exn_str e in
       ret (checkpoint_data,
            {| total_added := total_added t;
               total_duplicates := total_duplicates t;
               total_errors := total_errors t + Z.of_nat (length batch_uris);
               error_messages := error_messages t ++ [error_msg] |})).

Fixpoint write_batches (fuel : nat) (target_playlist : Playlist)
    (job_id source_playlist_id : str) (dry_run : bool)
    (batch_index : Z) (batches : list (list str))
    (acc : checkpoint * totals) : M (W:=W) (checkpoint * totals) :=
  match batches with
  | [] => ret acc
  | batch_uris :: rest =>
      acc ← write_batch fuel target_playlist job_id source_playlist_id
              dry_run batch_index batch_uris acc;
      write_batches fuel target_playlist job_id source_playlist_id
        dry_run (batch_index + 1) rest acc
  end.

Definition _process_matched_tracks (fuel : nat) (target_playlist : Playlist)
    (matched_uris : list str) (match_results : list MatchResult)
    (job_id source_playlist_id : str) (checkpoint_data : checkpoint)
    (start_time : Z) (dry_run : bool) (already_added_count : Z)
    (total_tracks : option Z) : M (W:=W) TransferResult :=
  checkpoint_data ←
    (if dry_run then ret checkpoint_data
     else
       time ← read (now P);
       let checkpoint_data := set_stage "writing" time checkpoint_data in
       save_checkpoint job_id source_playlist_id checkpoint_data;;
       ret checkpoint_data);
  batches ← call (fun w => (split_into_batches (batch_processor P) matched_uris, w));
  '(checkpoint_data, t) ←
    write_batches fuel target_playlist job_id source_playlist_id dry_run 0
      batches
      (checkpoint_data,
       {| total_added := 0; total_duplicates := 0; total_errors := 0;
          error_messages := [] |});
  let total_tracks := default (Z.of_nat (length match_results)) total_tracks in
  let matched_tracks := count_if is_matched match_results in
  let not_found_tracks := count_if (has_reason "not_found") match_results in
  let ambiguous_tracks := count_if (has_reason "ambiguous") match_results in
  (if dry_run then ret tt
   else
     time ← read (now P);
     save_checkpoint job_id source_playlist_id
       (set_stage "completed" time checkpoint_data));;
  finish ← read (now P);
  let duration_ms := finish - start_time in
  let duration_ms :=
    if dry_run && (duration_ms =? 0) then 1 else duration_ms in
  ret {| tr_playlist_id := playlist_id target_playlist;
         tr_playlist_name := playlist_name target_playlist;
         total_tracks := total_tracks;
         matched_tracks := matched_tracks;
         not_found_tracks := not_found_tracks;
         ambiguous_tracks := ambiguous_tracks;
         added_tracks :=
           if dry_run then 0 else total_added t + already_added_count;
         duplicate_tracks := total_duplicates t;
         failed_tracks := total_errors t;
         tr_errors := error_messages t;
         tr_duration_ms := duration_ms |}.

(** The body of the matching loop of [_start_fresh_transfer] for the
    track at index [i]: [acc] holds the dictionary, [matched_uris] and
    [match_results].  The progress tracker only logs. *)
Definition match_fresh_track (job_id source_playlist_id : str)
    (dry_run : bool) (i : Z) (track : Track)
    (acc : checkpoint * list str * list MatchResult)
    : M (W:=W) (checkpoint * list str * list MatchResult) :=
  let '(checkpoint_data, matched_uris, match_results) := acc in
  try_except
    (candidates ← lookup_candidates (target_provider P) track 3;
     let match_result :=
       find_best_match (matcher P) (risk_mode_env P) track candidates in
     let match_results := match_results ++ [match_result] in
     let matched_uris :=
       if truthy (uri match_result)
       then matched_uris ++ [or_empty (uri match_result)]
       else matched_uris in
     if ((i + 1) mod 10 =? 0) && negb dry_run then
       time ← read (now P);
       let checkpoint_data := set_progress (i + 1) time checkpoint_data in
       save_checkpoint job_id source_playlist_id checkpoint_data;;
       ret (checkpoint_data, matched_uris, match_results)
     else ret (checkpoint_data, matched_uris, match_results))
    (fun e =>
       ret (checkpoint_data, matched_uris, match_results ++ [error_result])).

Fixpoint match_fresh (job_id source_playlist_id : str) (dry_run : bool)
    (i : Z) (tracks : list Track)
    (acc : checkpoint * list str * list MatchResult)
    : M (W:=W) (checkpoint * list str * list MatchResult) :=
  match tracks with
  | [] => ret acc
  | track :: rest =>
      acc ← match_fresh_track job_id source_playlist_id dry_run i track acc;
      match_fresh job_id source_playlist_id dry_run (i + 1) rest acc
  end.

Definition _start_fresh_transfer (fuel : nat) (source_playlist : Playlist)
    (job_id : str) (snapshot_hash : option str) (start_time : Z)
    (dry_run : bool) : M (W:=W) TransferResult :=
  time ← read (now P);
  let checkpoint_data :=
    initial_checkpoint job_id snapshot_hash (playlist_id source_playlist) time in
  (if dry_run then ret tt
   else save_checkpoint job_id (playlist_id source_playlist) checkpoint_data);;
  source_tracks ←
    call (list_tracks (source_provider P) (playlist_id source_playlist));
  time ← read (now P);
  let checkpoint_data :=
    set_stage "matching" time
      (set_total_tracks (Z.of_nat (length source_tracks)) checkpoint_data) in
  (if dry_run then ret tt
   else save_checkpoint job_id (playlist_id source_playlist) checkpoint_data);;
  target_playlist ←
    call (resolve_or_create_playlist (target_provider P)
            (playlist_name source_playlist));
  '(checkpoint_data, matched_uris, match_results) ←
    match_fresh job_id (playlist_id source_playlist) dry_run 0 source_tracks
      (checkpoint_data, [], []);
  _process_matched_tracks fuel target_playlist matched_uris match_results
    job_id (playlist_id source_playlist) checkpoint_data start_time dry_run
    0 (Some (Z.of_nat (length source_tracks))).

(** The loop of [_resume_from_checkpoint]; it has no [try]. *)
Fixpoint match_remaining (already_added_uris : list str)
    (tracks : list Track) (acc : list str * list MatchResult)
    : M (W:=W) (list str * list MatchResult) :=
  match tracks with
  | [] => ret acc
  | track :: rest =>
      let '(new_matched_uris, match_results) := acc in
      candidates ← lookup_candidates (target_provider P) track 3;
      let match_result :=
        find_best_match (matcher P) (risk_mode_env P) track candidates in
      let match_results := match_results ++ [match_result] in
      let new_matched_uris :=
        if truthy (uri match_result)
           && negb (bool_decide (or_empty (uri match_result) ∈ already_added_uris))
        then new_matched_uris ++ [or_empty (uri match_result)]
        else new_matched_uris in
      match_remaining already_added_uris rest (new_matched_uris, match_results)
  end.

Definition _resume_from_checkpoint (fuel : nat) (source_playlist : Playlist)
    (job_id : str) (checkpoint : checkpoint) (start_time : Z)
    (dry_run : bool) : M (W:=W) TransferResult :=
  source_tracks ←
    call (list_tracks (source_provider P) (playlist_id source_playlist));
  target_playlist ←
    call (resolve_or_create_playlist (target_provider P)
            (playlist_name source_playlist));
  let already_added_uris := addedUris checkpoint in
  let start_index := cursor_trackIndex checkpoint in
  let remaining_tracks := slice_from start_index source_tracks in
  '(new_matched_uris, match_results) ←
    match_remaining already_added_uris remaining_tracks ([], []);
  let total_tracks := Z.of_nat (length source_tracks) in
  let already_processed_count := length already_added_uris in
  let dummy_match_results := repeat dummy_result already_processed_count in
  _process_matched_tracks fuel target_playlist new_matched_uris
    (match_results ++ dummy_match_results)
    job_id (playlist_id source_playlist) checkpoint start_time dry_run
    (Z.of_nat (length already_added_uris)) (Some total_tracks).

(** [fuel] bounds the number of turns of the retry loop of each batch. *)
Definition transfer_playlist (fuel : nat) (source_playlist : Playlist)
    (job_id : str) (snapshot_hash : option str) (dry_run : bool)
    : M (W:=W) TransferResult :=
  start_time ← read (now P);
  checkpoint ← load_checkpoint job_id (playlist_id source_playlist);
  match checkpoint with
  | Some checkpoint =>
      _resume_from_checkpoint fuel source_playlist job_id checkpoint
        start_time dry_run
  | None =>
      _start_fresh_transfer fuel source_playlist job_id snapshot_hash
        start_time dry_run
  end.

End Transfer.


(** ** Reading the statistics helpers *)

(** A matched result that differs from the URI that was expected. *)
Definition is_false_match (p : MatchResult * option str) : bool :=
  match uri (fst p), snd p with
  | Some u, Some e => negb (str_eqb u e)
  | _, _ => false
  end.

(** A matched result for which a URI was expected. *)
Definition is_expected_match (p : MatchResult * option str) : bool :=
  match uri (fst p), snd p with
  | Some _, Some _ => true
  | _, _ => false
  end.

Definition ratio (n d : nat) : Q :=
  match d with
  | O => 0%Q
  | S _ => (Z.of_nat n # Pos.of_nat d)%Q
  end.

(** The false-match rate with the matches that have no expected URI left
    out of the denominator. *)
Definition false_match_rate_without_unexpected (results : list MatchResult)
    (expected_uris : list (option str)) : Q :=
  let pairs := combine results expected_uris in
  ratio (length (List.filter is_false_match pairs))
        (length (List.filter is_expected_match pairs)).

(** ** Sample data *)

Module Sample.

Definition track (t : string) (a : list string) (i : option string) : Track :=
  {| track_id := None; source_id := py "y1"; title := py t;
     artists := map py a; duration_ms := 354000;
     isrc := option_map py i; album := None; track_uri := None |}.

Definition bohemian : Track :=
  track "Bohemian Rhapsody" ["Queen"] (Some "GBUM71029601").

Definition candidate (u : string) (c : spec_float) (r : string) : Candidate :=
  {| cand_uri := Some (py u); cand_confidence := c; cand_reason := py r;
     cand_title := None; cand_artists := None; cand_album := None;
     cand_duration_ms := None; cand_rank := None; cand_album_type := None |}.

(** The binary64 values of [0.9], [0.5] and [-0.5]. *)
Definition f0_9 : spec_float := S754_finite false 8106479329266893 (-53).
Definition f0_5 : spec_float := S754_finite false 4503599627370496 (-53).
Definition minus_f0_5 : spec_float := S754_finite true 4503599627370496 (-53).

Definition matched (u : string) : MatchResult :=
  {| uri := Some (py u); confidence := Float.one; reason := py "exact_match" |}.

End Sample.


(** ** Reading the log *)

Definition is_lookup (e : event) : bool :=
  match e with
  | EvFindTrackCandidates _ _ _ => true
  | _ => false
  end.

Definition is_save (e : event) : bool :=
  match e with
  | EvSaveCheckpoint _ _ => true
  | _ => false
  end.

(** The batches handed to [add_tracks_batch], retries included. *)
Definition submitted (ev : list event) : list (list str) :=
  flat_map (fun e => match e with
                     | EvAddTracksBatch _ uris _ => [uris]
                     | _ => []
                     end) ev.

(** The sum of [added] over the batch writes that were answered. *)
Definition added_in_log (ev : list event) : Z :=
  fold_right (fun e acc => match e with
                           | EvAddTracksBatch _ _ (Ok r) => added r + acc
                           | _ => acc
                           end) 0 ev.


(** The match result of every candidate lookup: the matcher's answer on the
    candidates that came back, or the [error] result when the lookup
    raised. *)
Definition results_in_log {U : UnicodeData} (m : TrackMatcher)
    (env : option str) (ev : list event) : list MatchResult :=
  flat_map (fun e => match e with
                     | EvFindTrackCandidates track _ (Ok candidates) =>
                         [find_best_match m env track candidates]
                     | EvFindTrackCandidates _ _ (Raise _) => [error_result]
                     | _ => []
                     end) ev.

(** The tracks whose candidates were looked up. *)
Definition looked_up (ev : list event) : list Track :=
  flat_map (fun e => match e with
                     | EvFindTrackCandidates track _ _ => [track]
                     | _ => []
                     end) ev.

(** [m] run from any state appends some events [ev] to the log, touches
    the checkpoint files only by saving, and [R] holds of the events and
    the outcome. *)
Definition runs {W A} (m : M (W:=W) A)
    (R : list event → outcome A → Prop) : Prop :=
  ∀ s, ∃ ev,
    log (m s).2 = log s ++ ev
    ∧ (Forall (fun e => is_save e = false) ev → files (m s).2 = files s)
    ∧ R ev (m s).1.


(** The shape of the events of the phases of a transfer.  A batch write
    event of [process_batch] carries the playlist and the batch it was
    called with. *)
Definition batch_event (playlist : str) (uris : list str) (e : event) : Prop :=
  match e with
  | EvAddTracksBatch p u _ => p = playlist ∧ u = uris
  | EvSleep _ => True
  | _ => False
  end.

(** The writing phase writes batches that are [allowed], sleeps and saves,
    and none of them in a dry run. *)
Definition write_event (dry_run : bool) (allowed : list str → Prop)
    (e : event) : Prop :=
  match e with
  | EvAddTracksBatch _ u _ => dry_run = false ∧ allowed u
  | EvSleep _ | EvSaveCheckpoint _ _ => dry_run = false
  | EvFindTrackCandidates _ _ _ => False
  end.

(** The matching phase looks candidates up and, outside a dry run, saves. *)
Definition match_event (dry_run : bool) (e : event) : Prop :=
  match e with
  | EvFindTrackCandidates _ _ _ => True
  | EvSaveCheckpoint _ _ => dry_run = false
  | _ => False
  end.

Definition run_event (dry_run : bool) (allowed : list str → Prop)
    (e : event) : Prop :=
  match e with
  | EvFindTrackCandidates _ _ _ => True
  | EvAddTracksBatch _ u _ => dry_run = false ∧ allowed u
  | EvSleep _ | EvSaveCheckpoint _ _ => dry_run = false
  end.


(** ** A scripted world

    In the manner of the mocks of the test suite: the target answers
    [add_tracks_batch] from a script, candidates are a function of the
    track, and the clock advances by one millisecond per reading. *)

Module Mock.

Record scripted := {
  answers : list (result AddResult);
  clock : Z
}.

Definition scripted_add (playlist_id : str) (track_uris : list str) (w : scripted)
    : result AddResult * scripted :=
  match answers w with
  | a :: rest => (a, {| answers := rest; clock := clock w |})
  | [] => (Raise (OtherException (py "StopIteration")), w)
  end.

Definition target_playlist (name : str) : Playlist :=
  {| playlist_id := py "target"; playlist_name := name; owner_id := py "me";
     is_owned := true; track_count := 0 |}.

Definition provider (tracks : list Track)
    (candidates : Track → result (list Candidate)) : MusicProvider scripted :=
  {| list_owned_playlists w := (Ok [], w);
     list_tracks _ w := (Ok tracks, w);
     find_track_candidates t _ w := (candidates t, w);
     resolve_or_create_playlist name w := (Ok (target_playlist name), w);
     add_tracks_batch := scripted_add |}.

Definition tick (w : scripted) : Z * scripted :=
  (clock w, {| answers := answers w; clock := clock w + 1 |}).

Definition pipeline (tracks : list Track)
    (candidates : Track → result (list Candidate)) : TransferPipeline scripted :=
  {| source_provider := provider tracks candidates;
     target_provider := provider tracks candidates;
     matcher := default_matcher;
     batch_processor := {| batch_size := 100; max_retries := 3 |};
     now := tick;
     risk_mode_env := None |}.

Definition start (script : list (result AddResult))
    (checkpoints : gmap str checkpoint) : state scripted :=
  {| world := {| answers := script; clock := 0 |};
     files := checkpoints;
     log := [] |}.

Definition source_playlist : Playlist :=
  {| playlist_id := py "pl1"; playlist_name := py "Road trip";
     owner_id := py "me"; is_owned := true; track_count := 2 |}.

Definition rate_limited : exn := RateLimited 1000 (py "Rate limited").

Definition two_added : AddResult := {| added := 2; duplicates := 0; errors := 0 |}.

Definition one_added : AddResult := {| added := 1; duplicates := 0; errors := 0 |}.

(** Two source tracks; the lookup of the first one fails. *)
Definition boom : Track := Sample.track "Boom" ["Nobody"] None.

Definition flaky_candidates (t : Track) : result (list Candidate) :=
  if str_eqb (title t) (py "Boom")
  then Raise (TemporaryFailure (py "timeout"))
  else Ok [Sample.candidate "spotify:track:1" Float.one "isrc_exact"].

Definition steady_candidates (t : Track) : result (list Candidate) :=
  Ok [Sample.candidate "spotify:track:1" Float.one "isrc_exact"].

Definition flaky : TransferPipeline scripted :=
  pipeline [boom; Sample.bohemian] flaky_candidates.

Definition steady : TransferPipeline scripted :=
  pipeline [boom; Sample.bohemian] steady_candidates.

(** A checkpoint left by an interrupted run of job [job1], in front of the
    first track. *)
Definition interrupted : checkpoint :=
  {| jobId := py "job1"; snapshotHash := None; playlistId := py "pl1";
     batchIndex := 0; stage := py "matching";
     cursor_trackIndex := 0; cursor_batchTrackIndex := 0;
     addedUris := []; attempts := 0; updatedAt := 0;
     metadata_totalTracks := 2; metadata_processedTracks := 0;
     metadata_batchSize := 100 |}.

(** The same after the URI of the match had been written. *)
Definition written : checkpoint :=
  {| jobId := py "job1"; snapshotHash := None; playlistId := py "pl1";
     batchIndex := 0; stage := py "writing";
     cursor_trackIndex := 0; cursor_batchTrackIndex := 0;
     addedUris := [py "spotify:track:1"]; attempts := 0; updatedAt := 0;
     metadata_totalTracks := 2; metadata_processedTracks := 0;
     metadata_batchSize := 100 |}.

Definition checkpoint_file (cp : checkpoint) : gmap str checkpoint :=
  {[ checkpoint_filename (py "job1") (py "pl1") := cp ]}.

End Mock.


(** ** What the normalizer relies on in the Unicode tables *)

Section UnicodeLaws.
Context {U : UnicodeData}.

(** A character that NFKD, the removal of marks and [lower] leave alone. *)
Definition settled (c : char) : Prop :=
  nfkd c = [c] ∧ combining c = 0%N ∧ lower [c] = [c].

Definition is_ascii (c : char) : Prop := (c < 128)%N.

(** The tables agree with ASCII below 128, white space is not made of
    word characters, and the lower-cased NFKD form of a string is made of
    settled characters, on which [lower] does nothing. *)
Class UnicodeLaws : Prop := {
  ascii_nfkd : ∀ c, is_ascii c → nfkd c = [c];
  ascii_combining : ∀ c, is_ascii c → combining c = 0%N;
  ascii_lower : ∀ s, Forall is_ascii s → lower s = map Ascii7.to_lower s;
  ascii_word : ∀ c, is_ascii c → is_word c = Ascii7.word c;
  ascii_space : ∀ c, is_ascii c → is_space c = Ascii7.space c;
  space_not_word : ∀ c, is_space c = true → is_word c = false;
  folded_settled : ∀ s, Forall settled (lower (_strip_diacritics s));
  lower_settled : ∀ t, Forall settled t → lower t = t
}.

(** [s] starts with the word [feat], in any case, and no word character
    follows it. *)
Definition feat_at (s : str) : bool :=
  match s with
  | f :: e :: a :: t :: r =>
      ci "f" f && ci "e" e && ci "a" a && ci "t" t && negb (opt_word (head r))
  | _ => false
  end.

(** [s] holds the word [feat] on its own, between characters that are not
    word characters; [before] tells whether a word character stands in
    front of [s]. *)
Fixpoint has_feat_word (before : bool) (s : str) : bool :=
  match s with
  | [] => false
  | c :: s' => (negb before && feat_at s) || has_feat_word (is_word c) s'
  end.

(** A character of a normalized string other than the space. *)
Definition plain (c : char) : Prop :=
  is_word c = true ∧ is_space c = false ∧ c ≠ ch "_".

(** Words of plain characters with single spaces between them. *)
Fixpoint spaced (s : str) : Prop :=
  match s with
  | [] => True
  | c :: s' =>
      (plain c ∨ (c = ch " " ∧ ∃ d r, s' = d :: r ∧ plain d)) ∧ spaced s'
  end.

(** A pattern whose matches begin and end with a character that is not a
    word character. *)
Definition blank_matcher (m' : str → option nat) : Prop :=
  ∀ s n, m' s = Some n →
    ∃ x a y b, s = (x :: a) ++ b ∧ length (x :: a) = n
               ∧ is_word x = false
               ∧ last (x :: a) = Some y ∧ is_word y = false.

Definition tidy (s : str) : Prop :=
  spaced s ∧ match s with
             | c :: _ => plain c
             | [] => True
             end.

End UnicodeLaws.
Arguments UnicodeLaws U : clear implicits.

(** ** Vocabulary of the further properties *)

(** A lower-case hexadecimal digit. *)
Definition is_lower_hex (c : char) : bool :=
  Ascii7.is_decimal c || (N.leb 97 c && N.leb c 102).

(** A code point that UTF-8 encodes: not a surrogate, below [0x110000]. *)
Definition is_scalar_value (c : char) : bool :=
  N.ltb c 0xD800 || (N.ltb 0xDFFF c && N.ltb c 0x110000).


(** ** Matcher statistics ([app/application/matching.py], continued) *)

(** [successful_matches / len(results)].  As for
    [calculate_false_match_rate], the returned float is the correctly
    rounded quotient and the embedding returns the quotient. *)
Definition calculate_match_rate (results : list MatchResult) : Q :=
  match results with
  | [] => 0%Q
  | _ => (count_if is_matched results # Pos.of_nat (length results))%Q
  end.

(** A [dict] from strings to integers, its items in insertion order. *)
Definition counts := list (str * Z).

(** [d.get(k, default)] *)
Fixpoint dict_get (d : counts) (k : str) (default : Z) : Z :=
  match d with
  | [] => default
  | (k', v) :: d' => if str_eqb k' k then v else dict_get d' k default
  end.

(** [d[k] = v]: a key that is there keeps its place, a new one goes to
    the end. *)
Fixpoint dict_set (d : counts) (k : str) (v : Z) : counts :=
  match d with
  | [] => [(k, v)]
  | (k', v') :: d' =>
      if str_eqb k' k then (k', v) :: d' else (k', v') :: dict_set d' k v
  end.

(** The dictionary returned by [get_match_statistics]. *)
Record MatchStatistics := {
  stat_total : Z;
  stat_matched : Z;
  stat_not_found : Z;
  stat_ambiguous : Z;
  stat_match_rate : Q;
  stat_by_reason : counts
}.

(** The body of the loop that counts by reason. *)
Definition count_reason (by_reason : counts) (result : MatchResult) : counts :=
  let reason := reason result in
  dict_set by_reason reason (dict_get by_reason reason 0 + 1).

Definition get_match_statistics (results : list MatchResult)
    : MatchStatistics :=
  let total := Z.of_nat (length results) in
  if total =? 0 then
    {| stat_total := 0; stat_matched := 0; stat_not_found := 0;
       stat_ambiguous := 0; stat_match_rate := 0%Q; stat_by_reason := [] |}
  else
    let matched := count_if is_matched results in
    let not_found := count_if (has_reason "not_found") results in
    let ambiguous := count_if (has_reason "ambiguous") results in
    let by_reason := fold_left count_reason results [] in
    {| stat_total := total; stat_matched := matched;
       stat_not_found := not_found; stat_ambiguous := ambiguous;
       stat_match_rate := (matched # Pos.of_nat (length results))%Q;
       stat_by_reason := by_reason |}.

(** The sum of the values of a dictionary. *)
Definition dict_total (d : counts) : Z :=
  fold_right (fun kv acc => snd kv + acc) 0 d.

(** The results that carry the reason [name]. *)
Definition reason_is (name : str) (r : MatchResult) : bool :=
  str_eqb (reason r) name.


(** ** The order of floats

    [SFcompare] orders the floats that are not NaN like the triples
    below, compared position by position. *)

Definition is_nan (f : spec_float) : bool :=
  match f with
  | S754_nan => true
  | _ => false
  end.

Definition float_key (f : spec_float) : Z * Z * Z :=
  match f with
  | S754_nan => (0, 0, 0)
  | S754_infinity true => (-2, 0, 0)
  | S754_infinity false => (2, 0, 0)
  | S754_zero _ => (0, 0, 0)
  | S754_finite true m e => (-1, - e, - Z.pos m)
  | S754_finite false m e => (1, e, Z.pos m)
  end.

Definition key_lt (a b : Z * Z * Z) : Prop :=
  a.1.1 < b.1.1
  ∨ (a.1.1 = b.1.1 ∧ (a.1.2 < b.1.2 ∨ (a.1.2 = b.1.2 ∧ a.2 < b.2))).


(** ** In-memory checkpoint storage
    ([app/application/idempotency.py], continued)

    Checkpoints are kept as values: what the storage holds changes only
    through its own methods.  [updated_at] is a [datetime]; only its
    identity matters here and it is kept as a clock reading. *)

Module CheckpointStorage.

Record Checkpoint := {
  job_id : str;
  playlist_id : str;
  batch_index : Z;
  added_uris : list str;
  updated_at : Z
}.

(** [self._checkpoints] is a [gmap str (list Checkpoint)]. *)

(** [CheckpointStorage()] *)
Definition empty : gmap str (list Checkpoint) := ∅.

(** [f"{job_id}:{playlist_id}"] *)
Definition _get_key (job_id playlist_id : str) : str :=
  job_id ++ py ":" ++ playlist_id.

(** The loop that looks for [existing] and the update of the object it
    finds: the first checkpoint with the batch index of [checkpoint]
    takes its [added_uris] and [updated_at] and keeps its place; [None]
    when there is no such checkpoint. *)
Fixpoint update_existing (l : list Checkpoint) (checkpoint : Checkpoint)
    : option (list Checkpoint) :=
  match l with
  | [] => None
  | cp :: l' =>
      if batch_index cp =? batch_index checkpoint then
        Some ({| job_id := job_id cp; playlist_id := playlist_id cp;
                 batch_index := batch_index cp;
                 added_uris := added_uris checkpoint;
                 updated_at := updated_at checkpoint |} :: l')
      else option_map (cons cp) (update_existing l' checkpoint)
  end.

Definition save_checkpoint (st : gmap str (list Checkpoint)) (checkpoint : Checkpoint) : gmap str (list Checkpoint) :=
  let key := _get_key (job_id checkpoint) (playlist_id checkpoint) in
  let l := default [] (st !! key) in
  match update_existing l checkpoint with
  | Some l' => <[key := l']> st
  | None => <[key := l ++ [checkpoint]]> st
  end.

(** [sorted(checkpoints, key=lambda cp: cp.batch_index)] *)
Definition load_checkpoints (st : gmap str (list Checkpoint)) (job_id playlist_id : str)
    : list Checkpoint :=
  let key := _get_key job_id playlist_id in
  let checkpoints := default [] (st !! key) in
  py_sorted (fun a b => batch_index a <? batch_index b) checkpoints.

Definition clear_checkpoints (st : gmap str (list Checkpoint)) (job_id playlist_id : str)
    : gmap str (list Checkpoint) :=
  delete (_get_key job_id playlist_id) st.

(** A call of one of the two methods that change the storage, and the
    storage after a sequence of calls on a new [CheckpointStorage]. *)
Inductive call :=
| Save (checkpoint : Checkpoint)
| Clear (job_id playlist_id : str).

Definition apply_call (st : gmap str (list Checkpoint)) (c : call) : gmap str (list Checkpoint) :=
  match c with
  | Save checkpoint => save_checkpoint st checkpoint
  | Clear job_id playlist_id => clear_checkpoints st job_id playlist_id
  end.

Definition after (calls : list call) : gmap str (list Checkpoint) :=
  fold_left apply_call calls empty.

(** What every list of the storage satisfies: one checkpoint for each
    batch index, all of them filed under their own key. *)
Definition well_kept (st : gmap str (list Checkpoint)) : Prop :=
  ∀ key l, st !! key = Some l →
    NoDup (map batch_index l)
    ∧ Forall (fun cp => _get_key (job_id cp) (playlist_id cp) = key) l.

End CheckpointStorage.


(** ** More readers of the log *)

(** The answers of the target provider to the batch writes, in order. *)
Definition answers_in_log (ev : list event) : list (result AddResult) :=
  flat_map (fun e => match e with
                     | EvAddTracksBatch _ _ answer => [answer]
                     | _ => []
                     end) ev.

(** The URIs that the answered batch writes report as added:
    [batch_uris[:batch_result.added]] for each of them. *)
Definition added_uris_in_log (ev : list event) : list str :=
  flat_map (fun e => match e with
                     | EvAddTracksBatch _ uris (Ok r) => slice_to (added r) uris
                     | _ => []
                     end) ev.

Definition is_raise {A} (a : result A) : bool :=
  match a with
  | Raise _ => true
  | Ok _ => false
  end.

(** An answer that counts as an attempt: an exception other than
    [RateLimited]. *)
Definition hard_failure (a : result AddResult) : bool :=
  match a with
  | Raise (RateLimited _ _) => false
  | Raise _ => true
  | Ok _ => false
  end.

(** A [RateLimited] whose suggested wait [time.sleep] refuses: a
    negative one, or one that does not fit the timestamp. *)
Definition refused_wait (a : result AddResult) : bool :=
  match a with
  | Raise (RateLimited retry_after_ms _) =>
      negb (sleep_accepts (retry_after_ms # 1000))
  | _ => false
  end.

(** A [RateLimited] whose suggested wait is negative or longer than
    [2^33] seconds: the waits that [time.sleep] may refuse. *)
Definition unsafe_wait (a : result AddResult) : bool :=
  match a with
  | Raise (RateLimited retry_after_ms _) =>
      negb ((0 <=? retry_after_ms) && (retry_after_ms <=? 8589934592000))
  | _ => false
  end.

(** The exceptions of [time.sleep]. *)
Definition sleep_error (e : exn) : Prop :=
  match e with
  | ValueError _ | OverflowError _ => True
  | _ => False
  end.

Definition hard_failures (ev : list event) : Z :=
  count_if hard_failure (answers_in_log ev).

(** The checkpoint files after the saves of [ev]. *)
Definition saved (ev : list event) (f : gmap str checkpoint)
    : gmap str checkpoint :=
  fold_left (fun f e => match e with
                        | EvSaveCheckpoint name data => <[name := data]> f
                        | _ => f
                        end) ev f.

(** [m] run from any state appends some events [ev] to the log, leaves
    the checkpoint files as the saves among them make them, and [R] holds
    of the events and the outcome. *)
Definition traces {W A} (m : M (W:=W) A)
    (R : list event → outcome A → Prop) : Prop :=
  ∀ s, ∃ ev,
    log (m s).2 = log s ++ ev
    ∧ files (m s).2 = saved ev (files s)
    ∧ R ev (m s).1.

(** The URIs that the matching loops hand on to the writing phase: those
    of the results that have one, without the URIs of [skip]. *)
Definition matched_uris_of (skip : list str) (results : list MatchResult)
    : list str :=
  flat_map (fun r =>
              if truthy (uri r)
                 && negb (bool_decide (or_empty (uri r) ∈ skip))
              then [or_empty (uri r)] else []) results.

(** Each batch a number of times, one batch after the other. *)
Definition repeated (batches : list (list str)) (counts : list nat)
    : list (list str) :=
  concat (zip_with (fun b n => repeat b n) batches counts).

(** Two checkpoint dictionaries of the same job, playlist and
    snapshot. *)
Definition same_job (a b : checkpoint) : Prop :=
  jobId a = jobId b ∧ snapshotHash a = snapshotHash b
  ∧ playlistId a = playlistId b.

(** What one turn of the retry loop of [process_batch] establishes:
    one call of the provider, and what became of the attempt counter. *)
Definition turn_ok (bp : BatchProcessor) (playlist : str) (uris : list str)
    (attempt : Z) (ev : list event) (out : outcome attempt_result) : Prop :=
  Forall (batch_event playlist uris) ev
  ∧ ∃ answer,
      answers_in_log ev = [answer]
      ∧ match out with
        | Return (Done r) => answer = Ok r
        | Return (Again attempt') =>
            is_raise answer = true
            ∧ refused_wait answer = false
            ∧ attempt' = attempt + (if hard_failure answer then 1 else 0)
            ∧ attempt' ≤ Z.max attempt (max_retries bp)
            ∧ attempt' ≤ Z.max attempt 34
        | Raised e =>
            is_raise answer = true
            ∧ ((refused_wait answer = true ∧ sleep_error e)
               ∨ (hard_failure answer = true
                  ∧ max_retries bp < attempt + 1
                  ∧ ∃ msg, e = TemporaryFailure msg)
               ∨ (hard_failure answer = true
                  ∧ attempt + 1 ≤ max_retries bp
                  ∧ 34 < attempt + 1
                  ∧ ∃ msg, e = OverflowError msg))
        | OutOfFuel => False
        end.

(** What the loop establishes when it is entered with the counter at
    [attempt] and fuel for [fuel] turns. *)
Definition loop_ok (bp : BatchProcessor) (playlist : str) (uris : list str)
    (fuel : nat) (attempt : Z) (ev : list event) (out : outcome AddResult)
    : Prop :=
  Forall (batch_event playlist uris) ev
  ∧ match out with
    | Return r =>
        (∃ pre, answers_in_log ev = pre ++ [Ok r]
                ∧ Forall (fun a => is_raise a = true) pre)
        ∧ attempt + hard_failures ev ≤ max_retries bp
        ∧ attempt + hard_failures ev ≤ Z.max attempt 34
    | Raised e =>
        Forall (fun a => is_raise a = true) (answers_in_log ev)
        ∧ ((existsb refused_wait (answers_in_log ev) = true ∧ sleep_error e)
           ∨ ((∃ msg, e = TemporaryFailure msg)
              ∧ attempt + hard_failures ev
                = Z.max attempt (max_retries bp + 1)
              ∧ attempt + hard_failures ev ≤ Z.max (attempt + 1) 35)
           ∨ ((∃ msg, e = OverflowError msg)
              ∧ attempt + hard_failures ev = Z.max (attempt + 1) 35
              ∧ attempt + hard_failures ev ≤ max_retries bp))
    | OutOfFuel =>
        Forall (fun a => is_raise a = true) (answers_in_log ev)
        ∧ length (answers_in_log ev) = fuel
        ∧ attempt + hard_failures ev ≤ max_retries bp
        ∧ attempt + hard_failures ev ≤ Z.max attempt 34
    end
  ∧ (attempt ≤ max_retries bp → out ≠ OutOfFuel → answers_in_log ev ≠ []).

(** A candidate lookup that was answered with an exception. *)
Definition failed_lookup (e : event) : bool :=
  match e with
  | EvFindTrackCandidates _ _ (Raise _) => true
  | _ => false
  end.

(** An event that saves nothing but the file [name]. *)
Definition own_event (name : str) (e : event) : Prop :=
  match e with
  | EvSaveCheckpoint n _ => n = name
  | _ => True
  end.


(** * Properties *)

(** ** Sorting facts *)

Section PySortFacts.
Context {A : Type} (lt : A → A → bool).

Hypothesis lt_asym : ∀ x y, lt x y = true → lt y x = false.
Hypothesis le_trans : ∀ x y z, (le_of lt) x y → (le_of lt) y z → (le_of lt) x z.
Hypothesis le_antisym : ∀ x y, (le_of lt) x y → (le_of lt) y x → x = y.

Lemma sort_insert_perm x l : sort_insert lt x l ≡ₚ x :: l.
Proof.
  induction l as [|y l IH]; simpl; [done|].
  destruct (lt x y); [done|].
  rewrite IH. apply Permutation_swap.
Qed.

Lemma sort_insert_hd x y l :
  (le_of lt) y x → HdRel (le_of lt) y l → HdRel (le_of lt) y (sort_insert lt x l).
Proof.
  intros Hyx Hl. destruct l as [|z l]; simpl.
  - by constructor.
  - destruct (lt x z); constructor; [done|].
    by inversion Hl.
Qed.

Lemma sort_insert_sorted x l :
  Sorted (le_of lt) l → Sorted (le_of lt) (sort_insert lt x l).
Proof.
  induction 1 as [|y l Hs IH Hhd]; simpl.
  - by repeat constructor.
  - destruct (lt x y) eqn:E.
    + constructor; [by constructor|].
      constructor. by apply lt_asym.
    + constructor; [done|]. by apply sort_insert_hd.
Qed.

Lemma fold_insert_perm l acc :
  fold_left (fun acc x => sort_insert lt x acc) l acc ≡ₚ acc ++ l.
Proof.
  revert acc. induction l as [|x l IH]; intros acc; simpl.
  - by rewrite app_nil_r.
  - rewrite IH, sort_insert_perm. simpl. apply Permutation_middle.
Qed.

Lemma fold_insert_sorted l acc :
  Sorted (le_of lt) acc →
  Sorted (le_of lt) (fold_left (fun acc x => sort_insert lt x acc) l acc).
Proof.
  revert acc. induction l as [|x l IH]; intros acc Hacc; simpl; [done|].
  by apply IH, sort_insert_sorted.
Qed.

Lemma py_sorted_perm l : py_sorted lt l ≡ₚ l.
Proof. unfold py_sorted. by rewrite fold_insert_perm. Qed.

Lemma py_sorted_is_sorted l : Sorted (le_of lt) (py_sorted lt l).
Proof. apply fold_insert_sorted. constructor. Qed.

(** A permutation of the input does not change the sorted list. *)
Lemma py_sorted_of_perm l l' : l ≡ₚ l' → py_sorted lt l = py_sorted lt l'.
Proof.
  intros Hp.
  assert (Transitive (le_of lt)) by (intros x y z; apply le_trans).
  assert (AntiSymm (=) (le_of lt)) by (intros x y; apply le_antisym).
  apply (Sorted_unique (le_of lt)); try apply py_sorted_is_sorted.
  by rewrite !py_sorted_perm.
Qed.
End PySortFacts.

(** [<] on strings is a strict total order. *)
Lemma str_ltb_asym a b : str_ltb a b = true → str_ltb b a = false.
Proof.
  revert b. induction a as [|x a IH]; intros [|y b]; simpl; try done.
  destruct (N.ltb_spec x y), (N.ltb_spec y x); try done; try lia.
  apply IH.
Qed.

Lemma str_le_trans a b c :
  str_ltb b a = false → str_ltb c b = false → str_ltb c a = false.
Proof.
  revert a c. induction b as [|y b IH]; intros [|x a] [|z c]; simpl; try done.
  destruct (N.ltb_spec y x), (N.ltb_spec x y), (N.ltb_spec z y),
    (N.ltb_spec y z), (N.ltb_spec z x), (N.ltb_spec x z);
    try done; try lia.
  apply IH.
Qed.

Lemma str_le_antisym a b :
  str_ltb b a = false → str_ltb a b = false → a = b.
Proof.
  revert b. induction a as [|x a IH]; intros [|y b]; simpl; try done.
  destruct (N.ltb_spec x y), (N.ltb_spec y x); try done; try lia.
  intros H1 H2. f_equal; [lia | by apply IH].
Qed.

Lemma str_sorted_of_perm (l l' : list str) :
  l ≡ₚ l' → py_sorted str_ltb l = py_sorted str_ltb l'.
Proof.
  apply py_sorted_of_perm.
  - apply str_ltb_asym.
  - intros x y z. unfold le_of. apply str_le_trans.
  - intros x y. unfold le_of. apply str_le_antisym.
Qed.

(** ** Snapshot hash *)

Section IdempotencyFacts.
Context {U : UnicodeData}.

Lemma sha256_empty_snapshot :
  Sha256.hexdigest (map Z.of_N (py "empty_snapshot")) = empty_snapshot_digest.
Proof. vm_compute. reflexivity. Qed.

(** The test vector of FIPS 180-4 for the message [abc]. *)
Example sha256_abc :
  Sha256.hexdigest (map Z.of_N (py "abc"))
  = py "ba7816bf8f01cfea414140de5dae2223b00361a396177a9cb410ff61f20015ad".
Proof. vm_compute. reflexivity. Qed.

(** C1.  [calculate_snapshot_hash] gives the same answer for a list of
    tracks and for every permutation of it, and for the empty list it is
    the SHA-256 digest of the bytes [empty_snapshot]. *)
Theorem snapshot_hash_order_independent :
  (∀ tracks tracks' : list Track,
      tracks ≡ₚ tracks' →
      calculate_snapshot_hash tracks = calculate_snapshot_hash tracks')
  ∧ calculate_snapshot_hash [] = Ok empty_snapshot_digest
  ∧ calculate_snapshot_hash []
    = Ok (Sha256.hexdigest (map Z.of_N (py "empty_snapshot"))).
Proof.
  split; [|split].
  - intros tracks tracks' Hp.
    destruct tracks as [|t ts].
    + apply Permutation_nil_l in Hp. by subst.
    + destruct tracks' as [|t' ts'].
      { by apply Permutation_nil_r in Hp. }
      unfold calculate_snapshot_hash.
      rewrite (str_sorted_of_perm _ (map (λ t0, build_track_key t0 2000) (t' :: ts'))).
      * done.
      * by apply Permutation_map.
  - unfold calculate_snapshot_hash. by rewrite sha256_empty_snapshot.
  - done.
Qed.
End IdempotencyFacts.

(** ** Matcher *)

Section MatchingFacts.
Context {U : UnicodeData}.

Lemma hd_py_sorted_elem {A} (lt : A → A → bool) (x : A) (l : list A) :
  hd x (py_sorted lt (x :: l)) ∈ x :: l.
Proof.
  pose proof (py_sorted_perm lt (x :: l)) as Hp.
  destruct (py_sorted lt (x :: l)) as [|y s] eqn:E.
  - by apply Permutation_nil_l in Hp.
  - simpl. rewrite <- Hp. by left.
Qed.

Lemma hd_py_sorted_reverse_elem {A} (lt : A → A → bool) (x : A) (l : list A) :
  hd x (py_sorted_reverse lt (x :: l)) ∈ x :: l.
Proof.
  unfold py_sorted_reverse.
  assert (Hp : rev (py_sorted lt (rev (x :: l))) ≡ₚ x :: l).
  { rewrite <- Permutation_rev, py_sorted_perm. symmetry. apply Permutation_rev. }
  destruct (rev (py_sorted lt (rev (x :: l)))) as [|y s] eqn:E.
  - by apply Permutation_nil_l in Hp.
  - simpl. rewrite <- Hp. by left.
Qed.

Lemma elem_of_filter_list {A} (p : A → bool) (x : A) (l : list A) :
  x ∈ List.filter p l → x ∈ l.
Proof.
  rewrite !list_elem_of_In. intros H. by apply filter_In in H as [H _].
Qed.

Lemma metadata_selection_elem src cands c :
  metadata_selection src cands = Some c → c ∈ cands.
Proof.
  unfold metadata_selection.
  destruct cands as [|c0 rest]; [done|].
  destruct (nonempty (title src)); [|done].
  destruct (artists src) as [|a0 ar]; [done|].
  set (ft := List.filter _ (c0 :: rest)).
  set (ov := List.filter _ (c0 :: rest)).
  set (pool1 := match ft with [] => ov | _ :: _ => ft end).
  assert (H1 : ∀ x, x ∈ pool1 → x ∈ c0 :: rest).
  { intros x. unfold pool1. destruct ft eqn:E.
    - apply elem_of_filter_list.
    - rewrite <- E. apply elem_of_filter_list. }
  set (pool2 := if truthy (album src) then _ else pool1).
  assert (H2 : ∀ x, x ∈ pool2 → x ∈ c0 :: rest).
  { intros x. unfold pool2. destruct (truthy (album src)); [|apply H1].
    set (am := List.filter _ pool1). destruct am eqn:E; [apply H1|].
    rewrite <- E. intros Hx. apply H1. by apply elem_of_filter_list in Hx. }
  destruct pool2 as [|p0 ps] eqn:E; [done|].
  intros [= <-]. apply H2, hd_py_sorted_elem.
Qed.

Lemma selected_candidate_elem src c0 rest :
  selected_candidate src c0 rest ∈ c0 :: rest.
Proof.
  unfold selected_candidate.
  destruct (metadata_selection src (c0 :: rest)) as [c|] eqn:E.
  - by apply metadata_selection_elem in E.
  - apply hd_py_sorted_reverse_elem.
Qed.

(** What [find_best_match] can return. *)
Lemma find_best_match_cases m env src cands :
  find_best_match m env src cands = not_found_result
  ∨ ∃ c, c ∈ cands ∧ find_best_match m env src cands = result_of_candidate c.
Proof.
  destruct cands as [|c0 rest]; [by left|].
  simpl. destruct (SFltb _ _); [by left|].
  right. eexists. split; [apply selected_candidate_elem|done].
Qed.

Lemma not_below_zero c : SFleb Float.zero c = true → SFltb c Float.zero = false.
Proof.
  unfold SFleb, SFltb, Float.zero.
  destruct c as [s|s| |s m e]; simpl; try done; by destruct s.
Qed.

Lemma find_best_match_cons m env src c0 rest :
  find_best_match m env src (c0 :: rest)
  = if SFltb (cand_confidence (selected_candidate src c0 rest)) (min_conf m env)
    then not_found_result
    else result_of_candidate (selected_candidate src c0 rest).
Proof. reflexivity. Qed.

(** C5.  The risk gate.  In mode [strict] a selected candidate whose
    confidence is below the fuzzy threshold ([0.85] by default) is turned
    into [not_found]; in mode [balanced] the floor is [0.80]; in every
    other mode the selected candidate, whose confidence is not negative,
    is returned. *)
Theorem risk_mode_gating (m : TrackMatcher) (env : option str)
    (src : Track) (c0 : Candidate) (rest : list Candidate) :
  let selected := selected_candidate src c0 rest in
  let answer := find_best_match m env src (c0 :: rest) in
  fuzzy_threshold default_matcher = Float.f0_85
  ∧ (risk_mode env = py "strict" →
     SFltb (cand_confidence selected) (fuzzy_threshold m) = true →
     answer = not_found_result)
  ∧ (risk_mode env = py "balanced" →
     SFltb (cand_confidence selected) Float.f0_80 = true →
     answer = not_found_result)
  ∧ (risk_mode env ≠ py "strict" → risk_mode env ≠ py "balanced" →
     SFleb Float.zero (cand_confidence selected) = true →
     answer = result_of_candidate selected).
Proof.
  intros selected answer. subst answer. rewrite find_best_match_cons.
  fold selected. unfold min_conf, str_eqb. repeat split.
  - intros Hm Hlt. rewrite Hm, bool_decide_eq_true_2 by done. by rewrite Hlt.
  - intros Hm Hlt. rewrite Hm. rewrite bool_decide_eq_false_2 by done.
    rewrite bool_decide_eq_true_2 by done. by rewrite Hlt.
  - intros Hs Hb Hz.
    rewrite bool_decide_eq_false_2 by done.
    rewrite bool_decide_eq_false_2 by done.
    by rewrite not_below_zero.
Qed.

(** C8, as amended.  A result with reason [isrc_exact] is the selected
    candidate's: its confidence is that candidate's confidence, and it is
    [1.0] when the candidates with that reason all carry [1.0]. *)
Theorem isrc_exact_confidence (m : TrackMatcher) (env : option str)
    (src : Track) (cands : list Candidate) :
  reason (find_best_match m env src cands) = py "isrc_exact" →
  (∃ c, c ∈ cands ∧ cand_reason c = py "isrc_exact"
        ∧ confidence (find_best_match m env src cands) = cand_confidence c)
  ∧ ((∀ c, c ∈ cands → cand_reason c = py "isrc_exact" →
           cand_confidence c = Float.one) →
     confidence (find_best_match m env src cands) = Float.one).
Proof.
  intros Hr.
  destruct (find_best_match_cases m env src cands) as [E|(c & Hc & E)].
  - rewrite E in Hr. discriminate Hr.
  - rewrite E in *. simpl in *. split; [by exists c|].
    intros Hall. by apply Hall.
Qed.

(** C9, as amended.  [find_best_match] returns [not_found] or the result
    of a candidate of the list; it has no result of its own with reason
    [ambiguous], so that reason is returned only when a candidate carries
    it. *)
Theorem never_ambiguous_of_its_own (m : TrackMatcher) (env : option str)
    (src : Track) (cands : list Candidate) :
  (find_best_match m env src cands = not_found_result
   ∨ ∃ c, c ∈ cands ∧ find_best_match m env src cands = result_of_candidate c)
  ∧ ((∀ c, c ∈ cands → cand_reason c ≠ py "ambiguous") →
     reason (find_best_match m env src cands) ≠ py "ambiguous").
Proof.
  split; [apply find_best_match_cases|].
  intros Hall.
  destruct (find_best_match_cases m env src cands) as [E|(c & Hc & E)];
    rewrite E; [done|].
  by apply Hall.
Qed.

Lemma false_match_step_counts f t p :
  false_match_step (f, t) p
  = ((f + if is_false_match p then 1 else 0)%nat,
     (t + if is_matched (fst p) then 1 else 0)%nat).
Proof.
  destruct p as [r e]. unfold false_match_step, is_false_match, is_matched.
  simpl. destruct (uri r) as [u|]; [|f_equal; lia].
  destruct e as [e|]; [|f_equal; lia].
  destruct (str_eqb u e); simpl; f_equal; lia.
Qed.

Lemma false_match_fold pairs f t :
  fold_left false_match_step pairs (f, t)
  = ((f + length (List.filter is_false_match pairs))%nat,
     (t + length (List.filter (fun p => is_matched (fst p)) pairs))%nat).
Proof.
  revert f t. induction pairs as [|p pairs IH]; intros f t.
  - simpl. f_equal; lia.
  - cbn [fold_left List.filter]. rewrite false_match_step_counts, IH.
    destruct (is_false_match p), (is_matched (fst p)); simpl; f_equal; lia.
Qed.

Lemma matched_pairs_length (rs : list MatchResult) (es : list (option str)) :
  length rs = length es →
  length (List.filter (fun p => is_matched (fst p)) (combine rs es))
  = length (List.filter is_matched rs).
Proof.
  revert es. induction rs as [|r rs IH]; intros [|e es]; simpl; try done.
  intros [= H]. destruct (is_matched r); simpl; by rewrite IH.
Qed.

(** C7, as amended.  [calculate_false_match_rate] raises when the two
    lists differ in length; otherwise it returns the number of matched
    results whose URI differs from an expected one, divided by the number
    of all matched results, those without an expected URI included, and
    [0.0] when nothing is matched. *)
Theorem false_match_rate_spec (results : list MatchResult)
    (expected_uris : list (option str)) :
  (length results ≠ length expected_uris →
   ∃ msg, calculate_false_match_rate results expected_uris
          = Raise (ValueError msg))
  ∧ (length results = length expected_uris →
     calculate_false_match_rate results expected_uris
     = Ok (ratio (length (List.filter is_false_match
                            (combine results expected_uris)))
                 (length (List.filter is_matched results)))).
Proof.
  unfold calculate_false_match_rate. split.
  - intros Hne. apply Nat.eqb_neq in Hne. rewrite Hne. simpl. by eexists.
  - intros Heq. rewrite (proj2 (Nat.eqb_eq _ _) Heq). simpl.
    destruct results as [|r rs]; [done|].
    rewrite false_match_fold, matched_pairs_length by done.
    rewrite !Nat.add_0_l. unfold ratio.
    by destruct (length (List.filter is_matched (r :: rs))).
Qed.

End MatchingFacts.

(** *** The matcher on sample data *)

Lemma risk_mode_gating_witness :
  let c := Sample.candidate "X" Sample.f0_5 "fuzzy_match" in
  find_best_match default_matcher None Sample.bohemian [c] = not_found_result
  ∧ find_best_match default_matcher (Some (py "Balanced")) Sample.bohemian [c]
    = not_found_result
  ∧ find_best_match default_matcher (Some (py "aggressive")) Sample.bohemian [c]
    = result_of_candidate c.
Proof.
  intros c. split; [|split].
  - destruct (risk_mode_gating (U:=ascii_tables) default_matcher None
                Sample.bohemian c []) as (_ & H & _ & _).
    apply H; vm_compute; reflexivity.
  - destruct (risk_mode_gating (U:=ascii_tables) default_matcher
                (Some (py "Balanced")) Sample.bohemian c []) as (_ & _ & H & _).
    apply H; vm_compute; reflexivity.
  - destruct (risk_mode_gating (U:=ascii_tables) default_matcher
                (Some (py "aggressive")) Sample.bohemian c []) as (_ & _ & _ & H).
    apply H; vm_compute; try reflexivity; discriminate.
Defined.

(** A candidate found by ISRC but carrying [0.9] is returned as it is. *)
Lemma isrc_exact_confidence_counterexample :
  let r := find_best_match (U:=ascii_tables) default_matcher None Sample.bohemian
             [Sample.candidate "X" Sample.f0_9 "isrc_exact"] in
  reason r = py "isrc_exact"
  ∧ confidence r = Sample.f0_9
  ∧ SFeqb (confidence r) Float.one = false
  ∧ confidence r ≠ Float.one.
Proof. vm_compute. repeat split; discriminate. Qed.

Lemma isrc_exact_confidence_witness :
  confidence (find_best_match (U:=ascii_tables) default_matcher None
                Sample.bohemian [Sample.candidate "X" Float.one "isrc_exact"])
  = Float.one.
Proof.
  destruct (isrc_exact_confidence (U:=ascii_tables) default_matcher None
              Sample.bohemian [Sample.candidate "X" Float.one "isrc_exact"])
    as [_ H].
  - vm_compute. reflexivity.
  - apply H. intros c Hc _. apply list_elem_of_singleton in Hc. subst c.
    reflexivity.
Defined.

(** A candidate whose reason is [ambiguous] is returned with that reason. *)
Lemma never_ambiguous_counterexample :
  reason (find_best_match (U:=ascii_tables) default_matcher None Sample.bohemian
            [Sample.candidate "X" Sample.f0_9 "ambiguous"])
  = py "ambiguous".
Proof. vm_compute. reflexivity. Qed.

Lemma never_ambiguous_of_its_own_witness :
  reason (find_best_match (U:=ascii_tables) default_matcher None Sample.bohemian
            [Sample.candidate "X" Float.one "isrc_exact"])
  ≠ py "ambiguous".
Proof.
  apply (never_ambiguous_of_its_own (U:=ascii_tables)).
  intros c Hc. apply list_elem_of_singleton in Hc. subst c.
  vm_compute. discriminate.
Defined.

(** Two matches, the first without an expected URI and the second wrong:
    the code divides by two, the rate without the unexpected match would
    divide by one. *)
Lemma false_match_rate_counterexample :
  let results := [Sample.matched "a"; Sample.matched "b"] in
  let expected := [None; Some (py "c")] in
  calculate_false_match_rate results expected = Ok (1 # 2)%Q
  ∧ false_match_rate_without_unexpected results expected = (1 # 1)%Q
  ∧ ¬ (1 # 2 == 1 # 1)%Q.
Proof. vm_compute. repeat split; discriminate. Qed.

Lemma false_match_rate_spec_witness :
  (∃ msg, calculate_false_match_rate [Sample.matched "a"] [] = Raise (ValueError msg))
  ∧ calculate_false_match_rate
      [Sample.matched "a"; Sample.matched "b"] [None; Some (py "c")]
    = Ok (1 # 2)%Q.
Proof.
  split.
  - apply (false_match_rate_spec [Sample.matched "a"] []). simpl. lia.
  - destruct (false_match_rate_spec
                [Sample.matched "a"; Sample.matched "b"] [None; Some (py "c")])
      as [_ H].
    rewrite H; reflexivity.
Defined.

(** ** Runs of the pipeline: rules *)

Section RunRules.
Context {W : Type}.
Implicit Types s : state W.

Lemma runs_conseq {A} (m : M (W:=W) A) (R R' : list event → outcome A → Prop) :
  runs m R → (∀ ev out, R ev out → R' ev out) → runs m R'.
Proof.
  intros Hm Himp s. destruct (Hm s) as (ev & Hl & Hf & HR).
  exists ev. auto.
Qed.

Lemma runs_ret {A} (a : A) (R : list event → outcome A → Prop) :
  R [] (Return a) → runs (W:=W) (ret a) R.
Proof. intros HR s. exists []. simpl. by rewrite app_nil_r. Qed.

Lemma runs_raise {A} (e : exn) (R : list event → outcome A → Prop) :
  R [] (Raised e) → runs (W:=W) (raise e) R.
Proof. intros HR s. exists []. simpl. by rewrite app_nil_r. Qed.

Lemma runs_out_of_fuel {A} (R : list event → outcome A → Prop) :
  R [] OutOfFuel → runs (W:=W) out_of_fuel R.
Proof. intros HR s. exists []. simpl. by rewrite app_nil_r. Qed.

Lemma runs_bind {A B} (m : M (W:=W) A) (k : A → M (W:=W) B)
    (R1 : list event → outcome A → Prop) (R : list event → outcome B → Prop) :
  runs m R1 →
  (∀ ev1 a, R1 ev1 (Return a) → runs (k a) (fun ev2 out => R (ev1 ++ ev2) out)) →
  (∀ ev e, R1 ev (Raised e) → R ev (Raised e)) →
  (∀ ev, R1 ev OutOfFuel → R ev OutOfFuel) →
  runs (m ≫= k) R.
Proof.
  intros Hm Hk He Hf s. destruct (Hm s) as (ev1 & Hl & Hfr & HR).
  unfold mbind, run_bind, bind.
  destruct (m s) as [[a|e|] s1]; simpl in *.
  - destruct (Hk ev1 a HR s1) as (ev2 & Hl2 & Hfr2 & HR2).
    exists (ev1 ++ ev2). rewrite Hl2, Hl, app_assoc. split; [done|].
    split; [|done]. intros Hall. apply Forall_app in Hall as [H1 H2].
    by rewrite Hfr2, Hfr.
  - exists ev1. auto.
  - exists ev1. auto.
Qed.

Lemma runs_try {A} (m : M (W:=W) A) (h : exn → M (W:=W) A)
    (R1 R : list event → outcome A → Prop) :
  runs m R1 →
  (∀ ev a, R1 ev (Return a) → R ev (Return a)) →
  (∀ ev1 e, R1 ev1 (Raised e) → runs (h e) (fun ev2 out => R (ev1 ++ ev2) out)) →
  (∀ ev, R1 ev OutOfFuel → R ev OutOfFuel) →
  runs (try_except m h) R.
Proof.
  intros Hm Hr Hh Hf s. destruct (Hm s) as (ev1 & Hl & Hfr & HR).
  unfold try_except.
  destruct (m s) as [[a|e|] s1]; simpl in *.
  - exists ev1. auto.
  - destruct (Hh ev1 e HR s1) as (ev2 & Hl2 & Hfr2 & HR2).
    exists (ev1 ++ ev2). rewrite Hl2, Hl, app_assoc. split; [done|].
    split; [|done]. intros Hall. apply Forall_app in Hall as [H1 H2].
    by rewrite Hfr2, Hfr.
  - exists ev1. auto.
Qed.

Lemma runs_call {A} (f : W → result A * W) (R : list event → outcome A → Prop) :
  (∀ a, R [] (Return a)) → (∀ e, R [] (Raised e)) → runs (call f) R.
Proof.
  intros Ha He s. exists []. unfold call.
  destruct (f (world s)) as [[a|e] w]; simpl; by rewrite app_nil_r.
Qed.

Lemma runs_read {A} (f : W → A * W) (R : list event → outcome A → Prop) :
  (∀ a, R [] (Return a)) → runs (read f) R.
Proof.
  intros Ha s. exists []. unfold read.
  destruct (f (world s)) as [a w]; simpl; by rewrite app_nil_r.
Qed.

Lemma runs_emit (e : event) (R : list event → outcome unit → Prop) :
  R [e] (Return tt) → runs (W:=W) (emit e) R.
Proof. intros HR s. exists [e]. by simpl. Qed.

End RunRules.

(** ** Reading the log: facts *)

Lemma added_in_log_app ev1 ev2 :
  added_in_log (ev1 ++ ev2) = added_in_log ev1 + added_in_log ev2.
Proof.
  induction ev1 as [|e ev1 IH]; simpl; [done|].
  destruct e as [| ? ? [r|]| |]; lia.
Qed.

Lemma submitted_app ev1 ev2 :
  submitted (ev1 ++ ev2) = submitted ev1 ++ submitted ev2.
Proof. apply flat_map_app. Qed.

Lemma looked_up_app ev1 ev2 :
  looked_up (ev1 ++ ev2) = looked_up ev1 ++ looked_up ev2.
Proof. apply flat_map_app. Qed.

Lemma results_in_log_app {U : UnicodeData} m env ev1 ev2 :
  results_in_log m env (ev1 ++ ev2)
  = results_in_log m env ev1 ++ results_in_log m env ev2.
Proof. apply flat_map_app. Qed.

Lemma write_event_weaken dry (a a' : list str → Prop) e :
  (∀ u, a u → a' u) → write_event dry a e → write_event dry a' e.
Proof. intros H. destruct e; simpl; naive_solver. Qed.

Lemma batch_event_write pl uris e :
  batch_event pl uris e → write_event false (fun u => u = uris) e.
Proof. destruct e; simpl; naive_solver. Qed.

Lemma write_event_run dry a e : write_event dry a e → run_event dry a e.
Proof. destruct e; simpl; naive_solver. Qed.

Lemma match_event_run dry a e : match_event dry e → run_event dry a e.
Proof. destruct e; simpl; naive_solver. Qed.

Lemma write_events_no_results {U : UnicodeData} m env dry a ev :
  Forall (write_event dry a) ev →
  results_in_log m env ev = [] ∧ looked_up ev = [].
Proof.
  induction 1 as [|e ev He Hev [IH1 IH2]]; [done|].
  destruct e; simpl in *; try done.
Qed.

Lemma match_events_no_writes dry ev :
  Forall (match_event dry) ev → added_in_log ev = 0 ∧ submitted ev = [].
Proof.
  induction 1 as [|e ev He Hev [IH1 IH2]]; [done|].
  destruct e; simpl in *; try done.
Qed.

Lemma dry_write_events_nil a ev : Forall (write_event true a) ev → ev = [].
Proof.
  destruct 1 as [|e ev He Hev]; [done|].
  destruct e; simpl in *; naive_solver.
Qed.


Lemma run_events_submitted dry a ev :
  Forall (run_event dry a) ev → Forall a (submitted ev).
Proof.
  induction 1 as [|e ev He Hev IH]; [constructor|].
  destruct e; simpl in *; try done. constructor; naive_solver.
Qed.

(** ** Batch processor *)

Section BatchFacts.
Context {W : Type}.
Variable target : MusicProvider W.
Variable bp : BatchProcessor.
Variable playlist : str.
Variable uris : list str.



(** The waits in milliseconds that fit the timestamp, and those that
    [time.sleep] accepts. *)
Lemma fits_timestamp_ms (ms : Z) :
  fits_timestamp (ms # 1000)
  = (-9223372036854 <=? ms) && (ms <=? 9223372036854).
Proof.
  unfold fits_timestamp, Qle_bool. cbn [Qnum Qden Qmult inject_Z].
  change (2 ^ 63) with 9223372036854775808.
  change (10 ^ 9) with 1000000000.
  change (Z.pos (1000 * 1)) with 1000. change (Z.pos 1) with 1.
  repeat match goal with
         | |- context [?a <=? ?b] => destruct (Z.leb_spec a b)
         end; simpl; try reflexivity; lia.
Qed.

Lemma Qle_bool_0_ms (ms : Z) : Qle_bool 0 (ms # 1000) = (0 <=? ms).
Proof.
  unfold Qle_bool. cbn [Qnum Qden].
  destruct (Z.leb_spec (0 * Z.pos 1000) (ms * 1)), (Z.leb_spec 0 ms);
    try reflexivity; lia.
Qed.

Lemma sleep_accepts_ms (ms : Z) :
  sleep_accepts (ms # 1000) = (0 <=? ms) && (ms <=? 9223372036854).
Proof.
  unfold sleep_accepts. rewrite fits_timestamp_ms, Qle_bool_0_ms.
  destruct (Z.leb_spec (-9223372036854) ms), (Z.leb_spec 0 ms),
    (Z.leb_spec ms 9223372036854); simpl; try reflexivity; lia.
Qed.

(** The back-off of [2^k] seconds is accepted up to [2^33]. *)
Lemma sleep_accepts_pow (k : Z) :
  sleep_accepts (inject_Z (2 ^ k)) = (k <? 34).
Proof.
  assert (Hp : if Z.ltb k 34
               then Z.le 0 (Z.pow 2 k) ∧ Z.le (Z.pow 2 k) 8589934592%Z
               else Z.le 17179869184%Z (Z.pow 2 k)).
  { destruct (Z.ltb_spec k 34).
    - split; [apply Z.pow_nonneg; lia|].
      destruct (Z.neg_nonneg_cases k) as [Hn|Hn].
      + rewrite Z.pow_neg_r by lia. lia.
      + change 8589934592 with (2 ^ 33). apply Z.pow_le_mono_r; lia.
    - change 17179869184 with (2 ^ 34). apply Z.pow_le_mono_r; lia. }
  unfold sleep_accepts, fits_timestamp, Qle_bool.
  cbn [Qnum Qden Qmult inject_Z].
  change (2 ^ 63) with 9223372036854775808.
  change (10 ^ 9) with 1000000000.
  change (Z.pos (1 * 1)) with 1. change (Z.pos 1) with 1.
  set (p := 2 ^ k) in *.
  destruct (k <? 34);
    repeat match goal with
           | |- context [?a <=? ?b] => destruct (Z.leb_spec a b)
           end; simpl; try reflexivity; lia.
Qed.

Lemma fits_timestamp_pow (k : Z) :
  sleep_accepts (inject_Z (2 ^ k)) = false →
  fits_timestamp (inject_Z (2 ^ k)) = false.
Proof.
  unfold sleep_accepts. destruct (fits_timestamp _); [|done]. simpl.
  unfold Qle_bool. cbn [Qnum Qden inject_Z]. intros H.
  apply Z.leb_gt in H. pose proof (Z.pow_nonneg 2 k). lia.
Qed.

Lemma runs_sleep (q : Q) (R : list event → outcome unit → Prop) :
  R [EvSleep q] (Return tt) → (∀ e, R [] (Raised e)) → runs (W:=W) (sleep q) R.
Proof.
  intros H1 H2. unfold sleep.
  destruct (negb (fits_timestamp q)); [by apply runs_raise|].
  destruct (Qle_bool 0 q).
  - by apply runs_emit.
  - by apply runs_raise.
Qed.

Lemma runs_write_tracks (R : list event → outcome (result AddResult) → Prop) :
  (∀ answer, R [EvAddTracksBatch playlist uris answer] (Return answer)) →
  runs (write_tracks target playlist uris) R.
Proof.
  intros HR s. unfold write_tracks.
  destruct (add_tracks_batch target playlist uris (world s)) as [answer w].
  eexists [_]. simpl. auto.
Qed.

(** One turn of the retry loop calls the provider once and sleeps at most
    once; what it adds is what the provider answered. *)
Lemma runs_process_batch_attempt attempt :
  runs (process_batch_attempt target bp playlist uris attempt)
    (fun ev out =>
       Forall (batch_event playlist uris) ev
       ∧ out ≠ OutOfFuel
       ∧ added_in_log ev = match out with
                           | Return (Done r) => added r
                           | _ => 0
                           end).
Proof.
  unfold process_batch_attempt.
  eapply (runs_bind _ _
            (fun ev out => ∃ answer,
               ev = [EvAddTracksBatch playlist uris answer] ∧ out = Return answer));
    [apply runs_write_tracks; by eexists| | |];
    [|by intros ev e (? & _ & ?)|by intros ev (? & _ & ?)].
  intros ev1 ? (answer & -> & [= ->]).
  destruct answer as [r|e].
  { apply runs_ret. simpl. repeat split; try done; [by repeat constructor|lia]. }
  assert (Hsleep : ∀ q a,
    runs (W:=W) (sleep q;; ret (Again a))
      (fun ev2 out =>
         Forall (batch_event playlist uris)
           ([EvAddTracksBatch playlist uris (Raise e)] ++ ev2)
         ∧ out ≠ OutOfFuel
         ∧ added_in_log ([EvAddTracksBatch playlist uris (Raise e)] ++ ev2)
           = match out with
             | Return (Done r) => added r
             | _ => 0
             end)).
  { intros q a.
    eapply (runs_bind _ _
              (fun ev out => (ev = [EvSleep q] ∧ out = Return tt)
                             ∨ (ev = [] ∧ ∃ e, out = Raised e)));
      [apply runs_sleep; eauto| | |].
    - intros ev [] [[-> _]|[_ [? [=]]]]. apply runs_ret. simpl.
      repeat split; try done. by repeat constructor.
    - intros ev e' [[_ [=]]|[-> _]]. simpl.
      repeat split; try done. by repeat constructor.
    - intros ev [[_ [=]]|[_ [? [=]]]]. }
  assert (Hraise : ∀ msg,
    runs (W:=W) (raise (A:=attempt_result) (TemporaryFailure msg))
      (fun ev2 out =>
         Forall (batch_event playlist uris)
           ([EvAddTracksBatch playlist uris (Raise e)] ++ ev2)
         ∧ out ≠ OutOfFuel
         ∧ added_in_log ([EvAddTracksBatch playlist uris (Raise e)] ++ ev2)
           = match out with
             | Return (Done r) => added r
             | _ => 0
             end)).
  { intros msg. apply runs_raise. simpl.
    repeat split; try done. by repeat constructor. }
  destruct e as [ms msg| | | | | | |]; cbn beta iota;
    try (destruct (attempt + 1 >? max_retries bp); [apply Hraise|]);
    apply Hsleep.
Qed.

Lemma runs_process_batch_loop fuel attempt :
  runs (process_batch_loop fuel target bp playlist uris attempt)
    (fun ev out =>
       Forall (batch_event playlist uris) ev
       ∧ added_in_log ev = match out with
                           | Return r => added r
                           | _ => 0
                           end).
Proof.
  revert attempt. induction fuel as [|fuel IH]; intros attempt; simpl.
  - destruct (attempt <=? max_retries bp).
    + by apply runs_out_of_fuel.
    + by apply runs_raise.
  - destruct (attempt <=? max_retries bp); [|by apply runs_raise].
    eapply runs_bind; [apply runs_process_batch_attempt| | |].
    + intros ev1 [r|a] (Hev & _ & Hadd).
      * apply runs_ret. rewrite app_nil_r. done.
      * eapply runs_conseq; [apply IH|].
        intros ev2 out [Hev2 Hadd2]. split.
        -- by apply Forall_app.
        -- rewrite added_in_log_app. lia.
    + intros ev e (Hev & _ & Hadd). done.
    + intros ev (_ & Hne & _). done.
Qed.

Lemma runs_process_batch fuel job_id batch_index dry_run :
  runs (process_batch fuel target bp playlist uris job_id batch_index dry_run)
    (fun ev out =>
       Forall (batch_event playlist uris) ev
       ∧ (dry_run = true → ev = [] ∧ ∃ r, out = Return r)
       ∧ (dry_run = false →
          added_in_log ev = match out with
                            | Return r => added r
                            | _ => 0
                            end)).
Proof.
  unfold process_batch. destruct dry_run.
  - apply runs_ret. split; [constructor|]. split; [eauto|done].
  - eapply runs_conseq; [apply runs_process_batch_loop|].
    intros ev out [H1 H2]. done.
Qed.

End BatchFacts.

Section RetryPolicy.
Context {W : Type}.
Variable target : MusicProvider W.
Variable bp : BatchProcessor.
Variable playlist : str.
Variable uris : list str.



End RetryPolicy.




(** ** Transfer pipeline *)

Section TransferFacts.
Context {U : UnicodeData} {W : Type}.
Variable P : TransferPipeline W.

Lemma runs_read_sp {A} (f : W → A * W) :
  runs (read f) (fun ev out => ev = [] ∧ ∃ a, out = Return a).
Proof. apply runs_read. eauto. Qed.

Lemma runs_call_sp {A} (f : W → result A * W) :
  runs (call f) (fun ev out => ev = [] ∧ out ≠ OutOfFuel).
Proof. by apply runs_call. Qed.

Lemma runs_save_checkpoint job_id playlist data
    (R : list event → outcome unit → Prop) :
  R [EvSaveCheckpoint (checkpoint_filename job_id playlist) data] (Return tt) →
  runs (W:=W) (save_checkpoint job_id playlist data) R.
Proof. intros HR s. eexists [_]. simpl. split; [done|]. split; [|done]. by inversion 1. Qed.

Lemma runs_lookup_candidates target track top_k
    (R : list event → outcome (list Candidate) → Prop) :
  (∀ c, R [EvFindTrackCandidates track top_k (Ok c)] (Return c)) →
  (∀ e, R [EvFindTrackCandidates track top_k (Raise e)] (Raised e)) →
  runs (W:=W) (lookup_candidates target track top_k) R.
Proof.
  intros H1 H2 s. unfold lookup_candidates.
  destruct (find_track_candidates target track top_k (world s)) as [[c|e] w];
    eexists [_]; simpl; auto.
Qed.

(** The time stamp and the save in front of a step, skipped in a dry
    run. *)
Lemma runs_stamp_and_save (dry_run : bool) job_id playlist (data : checkpoint)
    (f : Z → checkpoint → checkpoint) a :
  runs (W:=W) (A:=checkpoint)
    (if dry_run then ret data
     else time ← read (now P);
          save_checkpoint job_id playlist (f time data);;
          ret (f time data))
    (fun ev out => Forall (write_event dry_run a) ev
                   ∧ Forall (match_event dry_run) ev
                   ∧ ∃ data', out = Return data').
Proof.
  destruct dry_run.
  - apply runs_ret. repeat split; try constructor. by eexists.
  - eapply runs_bind; [apply runs_read_sp| |by intros ev e [_ [? [=]]]|by intros ev [_ [? [=]]]].
    intros ev1 time [-> _]. simpl.
    eapply (runs_bind _ _ (fun ev out => ev = [EvSaveCheckpoint (checkpoint_filename job_id playlist) (f time data)] ∧ out = Return tt));
      [by apply runs_save_checkpoint| |by intros ev e [_ [=]]|by intros ev [_ [=]]].
    intros ev [] [-> _]. apply runs_ret. simpl.
    repeat split; try (by repeat constructor). by eexists.
Qed.

Lemma elem_of_chunks fuel size (l b : list str) x :
  b ∈ chunks fuel size l → x ∈ b → x ∈ l.
Proof.
  revert l. induction fuel as [|fuel IH]; intros l; simpl; [by inversion 1|].
  destruct l as [|y l]; [by inversion 1|].
  rewrite <- (take_drop size (y :: l)) at 3.
  intros Hb Hx. apply elem_of_app. apply elem_of_cons in Hb as [->|Hb].
  - by left.
  - right. by apply IH.
Qed.

Lemma elem_of_split_into_batches bp (l : list str) batches b x :
  split_into_batches bp l = Ok batches → b ∈ batches → x ∈ b → x ∈ l.
Proof.
  unfold split_into_batches.
  destruct (batch_size bp =? 0); [done|].
  destruct (batch_size bp <? 0); intros [= <-]; [by inversion 1|].
  apply elem_of_chunks.
Qed.

Lemma count_if_app {A} (p : A → bool) l1 l2 :
  count_if p (l1 ++ l2) = count_if p l1 + count_if p l2.
Proof.
  unfold count_if. rewrite List.filter_app, length_app. lia.
Qed.

Lemma count_dummies n :
  count_if is_matched (repeat dummy_result n) = Z.of_nat n
  ∧ count_if (has_reason "not_found") (repeat dummy_result n) = 0.
Proof.
  unfold count_if. induction n as [|n [IH1 IH2]]; [done|].
  split.
  - change (Z.of_nat (length (dummy_result :: List.filter is_matched (repeat dummy_result n)))
            = Z.of_nat (S n)).
    simpl length. lia.
  - exact IH2.
Qed.

Lemma runs_write_batch fuel target_playlist job_id playlist dry_run
    batch_index batch_uris cp t :
  runs (write_batch P fuel target_playlist job_id playlist dry_run
          batch_index batch_uris (cp, t))
    (fun ev out =>
       Forall (write_event dry_run (fun u => u = batch_uris)) ev
       ∧ (dry_run = true → out ≠ OutOfFuel)
       ∧ (∀ e, out ≠ Raised e)
       ∧ (∀ acc', out = Return acc' → dry_run = false →
            total_added acc'.2 = total_added t + added_in_log ev)
       ∧ (out = OutOfFuel ∨ ∃ acc', out = Return acc')).
Proof.
  unfold write_batch.
  eapply runs_bind;
    [apply (runs_stamp_and_save dry_run job_id playlist cp
              (set_batch_index batch_index) (fun u => u = batch_uris))
    | |by intros ev e (_ & _ & ? & [=])|by intros ev (_ & _ & ? & [=])].
  intros ev1 cp1 (Hev1 & Hm1 & _).
  apply match_events_no_writes in Hm1 as [Hadd1 _].
  eapply runs_try.
  - eapply runs_bind; [apply runs_process_batch| | |].
    + intros ev2 r (Hev2 & Hdry & Hreal). apply runs_ret.
      rewrite app_nil_r.
      instantiate (1 := fun ev out =>
        Forall (batch_event (playlist_id target_playlist) batch_uris) ev
        ∧ (dry_run = true → ev = [] ∧ ∃ x, out = Return x)
        ∧ (dry_run = false →
           added_in_log ev = match out with
                             | Return acc' => total_added acc'.2 - total_added t
                             | _ => 0
                             end)).
      simpl. split; [done|]. split; [naive_solver|].
      intros Hd. rewrite (Hreal Hd). lia.
    + intros ev e (Hev2 & Hdry & Hreal). simpl. split; [done|].
      split; [naive_solver|]. done.
    + intros ev (Hev2 & Hdry & Hreal). simpl. split; [done|].
      split; [naive_solver|]. done.
  - intros ev2 acc' (Hev2 & Hdry & Hreal). simpl.
    split; [|split; [done|split; [done|split]]].
    + apply Forall_app. split; [done|].
      destruct dry_run; [destruct Hdry as [-> _]; [done|constructor]|].
      eapply Forall_impl; [exact Hev2|]. apply batch_event_write.
    + intros acc'' [= <-] Hd. rewrite added_in_log_app, (Hreal Hd). lia.
    + right. by eexists.
  - intros ev2 e (Hev2 & Hdry & Hreal). apply runs_ret. rewrite app_nil_r.
    split; [|split; [done|split; [done|split]]].
    + apply Forall_app. split; [done|].
      destruct dry_run; [destruct Hdry as [-> _]; [done|constructor]|].
      eapply Forall_impl; [exact Hev2|]. apply batch_event_write.
    + intros acc'' [= <-] Hd. rewrite added_in_log_app, (Hreal Hd). simpl. lia.
    + right. by eexists.
  - intros ev2 (Hev2 & Hdry & Hreal). simpl.
    split; [|split; [|split; [done|split]]].
    + apply Forall_app. split; [done|].
      destruct dry_run; [destruct Hdry as [-> _]; [done|constructor]|].
      eapply Forall_impl; [exact Hev2|]. apply batch_event_write.
    + intros Hd. by destruct (Hdry Hd) as (_ & ? & [=]).
    + done.
    + by left.
Qed.

Lemma runs_write_batches fuel target_playlist job_id playlist dry_run
    batches batch_index cp t :
  runs (write_batches P fuel target_playlist job_id playlist dry_run
          batch_index batches (cp, t))
    (fun ev out =>
       Forall (write_event dry_run (fun u => u ∈ batches)) ev
       ∧ (dry_run = true → out ≠ OutOfFuel)
       ∧ (∀ e, out ≠ Raised e)
       ∧ (∀ acc', out = Return acc' → dry_run = false →
            total_added acc'.2 = total_added t + added_in_log ev)).
Proof.
  revert batch_index cp t.
  induction batches as [|b batches IH]; intros batch_index cp t; simpl.
  - apply runs_ret. repeat split; try done. simpl. intros acc' [= <-] _. simpl. lia.
  - eapply runs_bind; [apply runs_write_batch| | |].
    + intros ev1 [cp1 t1] (Hev1 & Hfuel1 & _ & Hadd1 & _).
      eapply runs_conseq; [apply IH|].
      intros ev2 out (Hev2 & Hfuel2 & Hraise2 & Hadd2).
      split; [|split; [done|split; [done|]]].
      * apply Forall_app. split.
        -- eapply Forall_impl; [exact Hev1|]. intros e.
           apply write_event_weaken. intros u ->. by left.
        -- eapply Forall_impl; [exact Hev2|]. intros e.
           apply write_event_weaken. intros u Hu. by right.
      * intros acc' -> Hd. rewrite added_in_log_app.
        rewrite (Hadd2 _ eq_refl Hd). specialize (Hadd1 _ eq_refl Hd).
        simpl in Hadd1. lia.
    + intros ev e (_ & _ & Hne & _). by destruct (Hne e).
    + intros ev (Hev1 & Hfuel1 & _ & _ & _).
      split; [|split; [done|split; done]].
      eapply Forall_impl; [exact Hev1|]. intros e.
      apply write_event_weaken. intros u ->. by left.
Qed.

(** The writing phase: only batches cut from [matched_uris] are written,
    nothing is written, saved or slept in a dry run, and the result counts
    what the provider added. *)
Lemma runs_process_matched_tracks fuel target_playlist matched_uris
    match_results job_id playlist cp start_time dry_run already total :
  runs (_process_matched_tracks P fuel target_playlist matched_uris
          match_results job_id playlist cp start_time dry_run already total)
    (fun ev out =>
       Forall (write_event dry_run (fun u => ∀ x, x ∈ u → x ∈ matched_uris)) ev
       ∧ (dry_run = true → out ≠ OutOfFuel)
       ∧ (∀ r, out = Return r →
            added_tracks r = (if dry_run then 0 else added_in_log ev + already)
            ∧ matched_tracks r = count_if is_matched match_results
            ∧ not_found_tracks r = count_if (has_reason "not_found") match_results
            ∧ total_tracks r
              = default (Z.of_nat (length match_results)) total)).
Proof.
  unfold _process_matched_tracks.
  eapply runs_bind;
    [apply (runs_stamp_and_save dry_run job_id playlist cp (set_stage "writing")
              (fun u => ∀ x, x ∈ u → x ∈ matched_uris))
    | |by intros ev e (_ & _ & ? & [=])|by intros ev (_ & _ & ? & [=])].
  intros ev1 cp1 (Hev1 & Hm1 & _).
  apply match_events_no_writes in Hm1 as [Hadd1 _].
  unfold call.
  destruct (split_into_batches (batch_processor P) matched_uris) as [batches|e] eqn:Hsplit.
  2:{ intros s. exists []. unfold mbind, run_bind, bind. simpl.
      rewrite !app_nil_r. repeat split; try done. }
  assert (Hret : ∀ s : state W,
    (λ s0 : state W,
       let '(r, w) := (Ok (A:=list (list str)) batches, world s0) in
       match r with
       | Ok a => (Return a, Build_state w (files s0) (log s0))
       | Raise e => (Raised e, Build_state w (files s0) (log s0))
       end) s = ret batches s).
  { intros [w f l]. reflexivity. }
  eapply (runs_bind _ _ (fun ev out => ev = [] ∧ out = Return batches)).
  { intros s. exists []. rewrite Hret. simpl. by rewrite app_nil_r. }
  2:{ by intros ev e [_ [=]]. }
  2:{ by intros ev [_ [=]]. }
  intros ? ? [-> [= <-]]. cbn [app].
  eapply runs_bind; [apply runs_write_batches| | |].
  - intros ev2 [cp2 t2] (Hev2 & _ & _ & Hadd2). simpl in Hadd2.
    assert (Hw12 : Forall (write_event dry_run
                     (fun u => ∀ x, x ∈ u → x ∈ matched_uris)) (ev1 ++ ev2)).
    { apply Forall_app. split; [done|].
      eapply Forall_impl; [exact Hev2|]. intros e.
      apply write_event_weaken. intros u Hu x Hx.
      by eapply elem_of_split_into_batches. }
    eapply (runs_bind _ _
      (fun ev out => Forall (write_event dry_run
                       (fun u => ∀ x, x ∈ u → x ∈ matched_uris)) ev
                     ∧ added_in_log ev = 0 ∧ out = Return tt)).
    + destruct dry_run.
      * apply runs_ret. by repeat split.
      * eapply runs_bind; [apply runs_read_sp| |by intros ev e [_ [? [=]]]|by intros ev [_ [? [=]]]].
        intros ? time [-> _]. apply runs_save_checkpoint. simpl.
        repeat split; try done. by repeat constructor.
    + intros ev3 [] (Hev3 & Hadd3 & _).
      eapply runs_bind; [apply runs_read_sp| |by intros ev e [_ [? [=]]]|by intros ev [_ [? [=]]]].
      intros ? finish [-> _]. apply runs_ret. rewrite !app_nil_r.
      split; [|split; [done|]].
      * rewrite app_assoc. apply Forall_app. split; [exact Hw12|exact Hev3].
      * intros r [= <-]. simpl. repeat split; try done.
        destruct dry_run; [done|].
        rewrite !added_in_log_app, Hadd1, Hadd3.
        specialize (Hadd2 _ eq_refl eq_refl). simpl in Hadd2. lia.
    + by intros ev e (_ & _ & [=]).
    + by intros ev (_ & _ & [=]).
  - intros ev e (_ & _ & Hne & _). by destruct (Hne e).
  - intros ev (Hev2 & Hfuel & _). split; [|split; [|done]].
    + apply Forall_app. split; [done|].
      eapply Forall_impl; [exact Hev2|]. intros e.
      apply write_event_weaken. intros u Hu x Hx.
      by eapply elem_of_split_into_batches.
    + intros Hd. by destruct (Hfuel Hd).
Qed.

Lemma lookups_match_event dry ev :
  Forall (match_event true) ev → Forall (match_event dry) ev.
Proof.
  intros H. eapply Forall_impl; [exact H|]. by intros [].
Qed.

(** The loop of the resume path: it keeps the URIs that the checkpoint
    does not list, and the first lookup that raises ends it. *)
Lemma runs_match_remaining already tracks uris results :
  Forall (fun u => u ∉ already) uris →
  runs (match_remaining P already tracks (uris, results))
    (fun ev out =>
       Forall (match_event true) ev
       ∧ out ≠ OutOfFuel
       ∧ (∀ acc', out = Return acc' →
            Forall (fun u => u ∉ already) acc'.1
            ∧ acc'.2 = results ++ results_in_log (matcher P) (risk_mode_env P) ev)).
Proof.
  revert uris results.
  induction tracks as [|track rest IH]; intros uris results Huris; simpl.
  - apply runs_ret. split; [constructor|]. split; [done|].
    intros acc' [= <-]. simpl. by rewrite app_nil_r.
  - eapply (runs_bind _ _
      (fun ev out => ∃ answer, ev = [EvFindTrackCandidates track 3 answer]
         ∧ out = match answer with Ok c => Return c | Raise e => Raised e end)).
    + apply runs_lookup_candidates; intros; by eexists.
    + intros ev1 c (answer & -> & Hout).
      destruct answer as [c'|]; [|done]. injection Hout as <-.
      eapply runs_conseq; [apply IH|].
      * destruct (truthy _ && _) eqn:E; [|done].
        apply Forall_app. split; [done|]. constructor; [|constructor].
        apply andb_prop in E as [_ E]. apply negb_true_iff in E.
        by apply bool_decide_eq_false in E.
      * intros ev2 out (Hev2 & Hfuel & Hret). split; [|split; [done|]].
        -- constructor; [exact I|exact Hev2].
        -- intros acc' Hacc. destruct (Hret acc' Hacc) as [H1 H2].
           split; [done|]. rewrite H2. simpl. by rewrite <- app_assoc.
    + intros ev e (answer & -> & Hout). repeat split; try done.
      by repeat constructor.
    + intros ev (answer & -> & Hout). by destruct answer.
Qed.





(** The resume path. *)
Lemma runs_resume_from_checkpoint fuel source_playlist job_id cp
    start_time dry_run :
  runs (_resume_from_checkpoint P fuel source_playlist job_id cp
          start_time dry_run)
    (fun ev out =>
       Forall (run_event dry_run (fun u => ∀ x, x ∈ u → x ∉ addedUris cp)) ev
       ∧ (dry_run = true → out ≠ OutOfFuel)
       ∧ (∀ r, out = Return r →
            added_tracks r
            = (if dry_run then 0
               else Z.of_nat (length (addedUris cp)) + added_in_log ev)
            ∧ matched_tracks r
              = count_if is_matched
                  (results_in_log (matcher P) (risk_mode_env P) ev)
                + Z.of_nat (length (addedUris cp))
            ∧ not_found_tracks r
              = count_if (has_reason "not_found")
                  (results_in_log (matcher P) (risk_mode_env P) ev))).
Proof.
  unfold _resume_from_checkpoint.
  eapply runs_bind; [apply runs_call_sp| |by intros ev e [-> _]|by intros ev [_ ?]].
  intros ? source_tracks [-> _]. cbn [app].
  eapply runs_bind; [apply runs_call_sp| |by intros ev e [-> _]|by intros ev [_ ?]].
  intros ? target_playlist [-> _]. cbn [app].
  eapply runs_bind; [apply runs_match_remaining; constructor| | |].
  2:{ intros ev e (Hev & _ & _). split; [|done].
      eapply Forall_impl; [exact Hev|]. intros x Hx.
      apply match_event_run. revert Hx. by destruct x. }
  2:{ by intros ev (_ & ? & _). }
  intros ev1 [uris1 results1] (Hev1 & _ & Hret1).
  destruct (Hret1 _ eq_refl) as [Huris1 Hres1]. simpl in Huris1, Hres1.
  eapply runs_conseq; [apply runs_process_matched_tracks|].
  intros ev2 out (Hev2 & Hfuel & Hret).
  destruct (write_events_no_results (matcher P) (risk_mode_env P) _ _ _ Hev2)
    as [Hres2 _].
  destruct (match_events_no_writes _ _ Hev1) as [Hadd1 _].
  split; [|split; [done|]].
  - apply Forall_app. split.
    + eapply Forall_impl; [exact Hev1|]. intros x Hx.
      apply match_event_run. revert Hx. by destruct x.
    + eapply Forall_impl; [exact Hev2|]. intros e He. apply write_event_run.
      revert He. apply write_event_weaken. intros u Hu x Hx.
      rewrite Forall_forall in Huris1. by apply Huris1, Hu.
  - intros r Hr. destruct (Hret r Hr) as (Ha & Hmt & Hnf & _).
    rewrite Ha, Hmt, Hnf, Hres1. simpl.
    rewrite results_in_log_app, Hres2, app_nil_r.
    rewrite !count_if_app.
    destruct (count_dummies (length (addedUris cp))) as [-> ->].
    repeat split; try lia.
    destruct dry_run; [done|].
    rewrite added_in_log_app, Hadd1. lia.
Qed.

Lemma transfer_playlist_unfold fuel source_playlist job_id snapshot_hash
    dry_run (s : state W) :
  transfer_playlist P fuel source_playlist job_id snapshot_hash dry_run s
  = let '(start_time, w) := now P (world s) in
    let s1 := Build_state w (files s) (log s) in
    match files s !! checkpoint_filename job_id (playlist_id source_playlist) with
    | Some cp =>
        _resume_from_checkpoint P fuel source_playlist job_id cp
          start_time dry_run s1
    | None =>
        _start_fresh_transfer P fuel source_playlist job_id snapshot_hash
          start_time dry_run s1
    end.
Proof.
  unfold transfer_playlist, mbind, run_bind, bind, read, load_checkpoint.
  destruct (now P (world s)) as [t w]. simpl.
  by destruct (files s !! _).
Qed.


(** C2.  When [transfer_playlist] finds a checkpoint, no batch handed to
    the target provider contains a URI of the checkpoint's [addedUris], and
    outside a dry run the [added_tracks] of the result is the number of
    those URIs plus what the provider reports as added in this run. *)
Theorem resume_skips_added_uris (fuel : nat) (source_playlist : Playlist)
    (job_id : str) (snapshot_hash : option str) (dry_run : bool)
    (s : state W) (cp : checkpoint) :
  files s !! checkpoint_filename job_id (playlist_id source_playlist) = Some cp →
  let run :=
    transfer_playlist P fuel source_playlist job_id snapshot_hash dry_run s in
  ∃ ev,
    log run.2 = log s ++ ev
    ∧ (∀ batch u, batch ∈ submitted ev → u ∈ batch → u ∉ addedUris cp)
    ∧ (dry_run = false →
       ∀ r, run.1 = Return r →
            added_tracks r
            = Z.of_nat (length (addedUris cp)) + added_in_log ev).
Proof.
  intros Hcp run. subst run. rewrite transfer_playlist_unfold, Hcp.
  destruct (now P (world s)) as [start_time w].
  destruct (runs_resume_from_checkpoint fuel source_playlist job_id cp
              start_time dry_run (Build_state w (files s) (log s)))
    as (ev & Hlog & _ & Hev & _ & Hret).
  exists ev. split; [exact Hlog|]. split.
  - intros batch u Hb Hu.
    apply run_events_submitted in Hev. rewrite Forall_forall in Hev.
    by apply (Hev batch Hb).
  - intros -> r Hr. by destruct (Hret r Hr) as (-> & _).
Qed.


End TransferFacts.

(** *** The pipeline on the scripted world *)

Lemma resume_skips_added_uris_witness :
  let run :=
    transfer_playlist (U:=ascii_tables) Mock.steady 5 Mock.source_playlist
      (py "job1") None false
      (Mock.start [Ok Mock.one_added] (Mock.checkpoint_file Mock.written)) in
  ∃ ev,
    log run.2 = [] ++ ev
    ∧ (∀ batch u, batch ∈ submitted ev → u ∈ batch →
                  u ∉ addedUris Mock.written)
    ∧ (false = false →
       ∀ r, run.1 = Return r →
            added_tracks r
            = Z.of_nat (length (addedUris Mock.written)) + added_in_log ev).
Proof.
  apply (resume_skips_added_uris (U:=ascii_tables) Mock.steady 5
           Mock.source_playlist (py "job1") None false
           (Mock.start [Ok Mock.one_added] (Mock.checkpoint_file Mock.written))
           Mock.written).
  apply lookup_singleton_eq.
Defined.


(** C6: the failing input.  With a checkpoint on file, the lookup that
    raises ends [transfer_playlist] with that exception after one lookup;
    without a checkpoint the same lookup is recorded as an [error] result
    and both tracks are looked up. *)
Theorem resume_aborts_on_lookup_error :
  let resumed :=
    transfer_playlist (U:=ascii_tables) Mock.flaky 5 Mock.source_playlist
      (py "job1") None false
      (Mock.start [Ok Mock.one_added] (Mock.checkpoint_file Mock.interrupted)) in
  let fresh :=
    transfer_playlist (U:=ascii_tables) Mock.flaky 5 Mock.source_playlist
      (py "job1") None false (Mock.start [Ok Mock.one_added] ∅) in
  resumed.1 = Raised (TemporaryFailure (py "timeout"))
  ∧ looked_up (log resumed.2) = [Mock.boom]
  ∧ (∃ r, fresh.1 = Return r
          ∧ total_tracks r = 2 ∧ matched_tracks r = 1 ∧ added_tracks r = 1)
  ∧ looked_up (log fresh.2) = [Mock.boom; Sample.bohemian]
  ∧ results_in_log default_matcher None (log fresh.2)
    = [error_result;
       result_of_candidate
         (Sample.candidate "spotify:track:1" Float.one "isrc_exact")].
Proof.
  intros resumed fresh. subst resumed fresh.
  rewrite !transfer_playlist_unfold.
  assert (H1 : files (Mock.start [Ok Mock.one_added]
                        (Mock.checkpoint_file Mock.interrupted))
               !! checkpoint_filename (py "job1") (playlist_id Mock.source_playlist)
               = Some Mock.interrupted) by apply lookup_singleton_eq.
  assert (H2 : files (Mock.start [Ok Mock.one_added] ∅)
               !! checkpoint_filename (py "job1") (playlist_id Mock.source_playlist)
               = None) by apply lookup_empty.
  rewrite H1, H2. clear H1 H2.
  cbn [Mock.start Mock.flaky Mock.pipeline now world Mock.tick].
  split; [vm_compute; reflexivity|].
  split; [vm_compute; reflexivity|].
  split; [eexists; vm_compute; repeat split|].
  split; vm_compute; reflexivity.
Qed.

(** ** Normalizer *)

(** The input [feat_x]: the underscore hides the word [feat] from the
    first pass and becomes a space; the second pass removes the word. *)
Lemma normalize_string_counterexample :
  normalize_string (U:=ascii_tables) (py "feat_x") = py "feat x"
  ∧ normalize_string (U:=ascii_tables) (py "feat x") = py "x"
  ∧ normalize_string (U:=ascii_tables)
      (normalize_string (U:=ascii_tables) (py "feat_x"))
    ≠ normalize_string (U:=ascii_tables) (py "feat_x").
Proof. vm_compute. repeat split; discriminate. Qed.

Section CharFacts.
Context {U : UnicodeData} {L : UnicodeLaws U}.

Lemma ci_cases (l : ascii) (c : char) :
  ci l c = true → c = ch l ∨ (c + 32)%N = ch l.
Proof.
  unfold ci. intros H. apply orb_prop in H as [H|H]; apply N.eqb_eq in H; auto.
Qed.

Lemma ascii_word_true (c : char) :
  is_ascii c → Ascii7.word c = true → is_word c = true.
Proof. intros Ha Hw. by rewrite ascii_word. Qed.

Lemma ascii_word_false (c : char) :
  is_ascii c → Ascii7.word c = false → is_word c = false.
Proof. intros Ha Hw. by rewrite ascii_word. Qed.

Lemma ci_f_word c : ci "f" c = true → is_word c = true.
Proof.
  intros H. apply ci_cases in H. change (ch "f") with 102%N in H.
  assert (c = 102 ∨ c = 70)%N as [->| ->] by lia;
    by apply ascii_word_true.
Qed.

Lemma ci_e_word c : ci "e" c = true → is_word c = true.
Proof.
  intros H. apply ci_cases in H. change (ch "e") with 101%N in H.
  assert (c = 101 ∨ c = 69)%N as [->| ->] by lia;
    by apply ascii_word_true.
Qed.

Lemma ci_a_word c : ci "a" c = true → is_word c = true.
Proof.
  intros H. apply ci_cases in H. change (ch "a") with 97%N in H.
  assert (c = 97 ∨ c = 65)%N as [->| ->] by lia;
    by apply ascii_word_true.
Qed.

Lemma ci_t_word c : ci "t" c = true → is_word c = true.
Proof.
  intros H. apply ci_cases in H. change (ch "t") with 116%N in H.
  assert (c = 116 ∨ c = 84)%N as [->| ->] by lia;
    by apply ascii_word_true.
Qed.

Lemma space_char : is_space (ch " ") = true ∧ is_word (ch " ") = false.
Proof.
  assert (H : is_space (ch " ") = true) by by rewrite ascii_space.
  split; [done|]. by apply space_not_word.
Qed.

Lemma dot_not_word : is_word (ch ".") = false.
Proof. by apply ascii_word_false. Qed.

Lemma amp_not_word : is_word (ch "&") = false.
Proof. by apply ascii_word_false. Qed.

Lemma open_not_word c : is_open c = true → is_word c = false.
Proof.
  unfold is_open. intros H.
  apply orb_prop in H as [H|H]; [apply orb_prop in H as [H|H]|];
    apply N.eqb_eq in H; subst c; by apply ascii_word_false.
Qed.

Lemma close_not_word c : is_close c = true → is_word c = false.
Proof.
  unfold is_close. intros H.
  apply orb_prop in H as [H|H]; [apply orb_prop in H as [H|H]|];
    apply N.eqb_eq in H; subst c; by apply ascii_word_false.
Qed.

Lemma plain_not_special c :
  plain c →
  is_open c = false ∧ is_close c = false
  ∧ c ≠ ch "." ∧ c ≠ ch "&" ∧ c ≠ ch " ".
Proof.
  intros (Hw & Hs & Hu).
  assert (Ho : is_open c = false).
  { destruct (is_open c) eqn:E; [|done]. apply open_not_word in E. congruence. }
  assert (Hc : is_close c = false).
  { destruct (is_close c) eqn:E; [|done]. apply close_not_word in E. congruence. }
  repeat split; try done; intros ->.
  - rewrite dot_not_word in Hw. done.
  - rewrite amp_not_word in Hw. done.
  - destruct space_char as [_ H]. congruence.
Qed.

End CharFacts.

Section ScanFacts.
Context {U : UnicodeData} {L : UnicodeLaws U}.
Variable m : option char → str → option nat.

Lemma sub_scan_cons p c s' :
  sub_scan m p O (c :: s')
  = match m p (c :: s') with
    | Some n => ch " " :: sub_scan m (Some c) (pred n) s'
    | None => c :: sub_scan m (Some c) O s'
    end.
Proof. reflexivity. Qed.

(** Every character of the output is a character of the input or the
    space. *)
Lemma sub_scan_Forall (Q : char → Prop) p k s :
  Q (ch " ") → Forall Q s → Forall Q (sub_scan m p k s).
Proof.
  intros Hsp Hs. revert p k. induction Hs as [|c s Hc Hs IH]; intros p k.
  - constructor.
  - simpl. destruct k as [|k]; [|apply IH].
    destruct (m p (c :: s)); constructor; auto.
Qed.

(** Where nothing matches the string is left as it is. *)
Lemma sub_scan_id p s :
  (∀ p' a b, s = a ++ b → m p' b = None) → sub_scan m p O s = s.
Proof.
  revert p. induction s as [|c s IH]; intros p Hm; [done|].
  rewrite sub_scan_cons, (Hm p [] (c :: s)) by done.
  f_equal. apply IH. intros p' a b ->. by apply (Hm p' (c :: a) b).
Qed.

Lemma sub_scan_nil p s : sub_scan m p O s = [] → s = [].
Proof.
  destruct s as [|c s]; [done|]. rewrite sub_scan_cons. by destruct (m p (c :: s)).
Qed.

(** A word character at the head of the output was copied. *)
Lemma sub_scan_word_head p s x o :
  sub_scan m p O s = x :: o → is_word x = true →
  ∃ s', s = x :: s' ∧ m p s = None ∧ o = sub_scan m (Some x) O s'.
Proof.
  destruct s as [|c s]; [done|]. rewrite sub_scan_cons.
  destruct (m p (c :: s)) as [n|] eqn:E; intros Heq Hx.
  - assert (Hsp : x = ch " ") by congruence.
    rewrite Hsp in Hx. destruct space_char as [_ H]. congruence.
  - assert (Hc : c = x) by congruence.
    assert (Ho : sub_scan m (Some c) O s = o) by congruence.
    subst. eauto.
Qed.

(** The prefix-insensitive part of a scan. *)
Lemma sub_scan_skip (m' : str → option nat) p k s :
  sub_scan (fun _ => m') p k s = sub_scan (fun _ => m') None O (drop k s).
Proof.
  revert p k. induction s as [|c s IH]; intros p k.
  - by destruct k.
  - destruct k as [|k]; [reflexivity|]. simpl. apply IH.
Qed.

(** A word [feat] at the head of the output stood in the input, when the
    scan cannot put a character that is not a word character behind a
    word character unless the input has one there. *)
Lemma feat_at_scan_back c s :
  (∀ t r, is_word t = true →
          opt_word (head (sub_scan m (Some t) O r)) = false →
          opt_word (head r) = false) →
  feat_at (c :: sub_scan m (Some c) O s) = true →
  feat_at (c :: s) = true.
Proof.
  intros Hback H.
  destruct (sub_scan m (Some c) O s) as [|e [|a [|t r]]] eqn:E;
    try done.
  cbn [feat_at] in H. apply andb_prop in H as [H Hr].
  repeat (apply andb_prop in H as [H ?]).
  assert (He : is_word e = true) by by apply ci_e_word.
  assert (Ha : is_word a = true) by by apply ci_a_word.
  assert (Ht : is_word t = true) by by apply ci_t_word.
  apply sub_scan_word_head in E as (s2 & -> & _ & E); [|done].
  symmetry in E. apply sub_scan_word_head in E as (s3 & -> & _ & E); [|done].
  symmetry in E. apply sub_scan_word_head in E as (s4 & -> & _ & E); [|done].
  subst r. apply negb_true_iff in Hr. apply (Hback t s4 Ht) in Hr.
  cbn [feat_at]. rewrite Hr. by repeat (apply andb_true_intro; split).
Qed.

End ScanFacts.

Section FeatFacts.
Context {U : UnicodeData} {L : UnicodeLaws U}.

Lemma has_feat_word_cons before c s :
  has_feat_word before (c :: s) = false →
  has_feat_word (is_word c) s = false
  ∧ (before = false → feat_at (c :: s) = false).
Proof.
  cbn [has_feat_word]. intros H. apply orb_false_elim in H as [H1 H2].
  split; [done|]. intros ->. done.
Qed.

Lemma has_feat_word_head s :
  has_feat_word false s = feat_at s || has_feat_word true s.
Proof. destruct s as [|c s]; [done|]. reflexivity. Qed.

Lemma has_feat_word_weaken before s :
  has_feat_word false s = false → has_feat_word before s = false.
Proof.
  destruct before; [|done]. rewrite has_feat_word_head.
  intros H. by apply orb_false_elim in H as [_ H].
Qed.

Lemma has_feat_word_drop before s k c :
  has_feat_word before s = false → s !! k = Some c →
  has_feat_word (is_word c) (drop (S k) s) = false.
Proof.
  revert before k. induction s as [|d s IH]; intros before k H Hk; [done|].
  apply has_feat_word_cons in H as [H _].
  destruct k as [|k]; simpl in Hk.
  - injection Hk as ->. exact H.
  - by apply (IH (is_word d) k).
Qed.

Lemma feat_at_word_head s : feat_at s = true → opt_word (head s) = true.
Proof.
  destruct s as [|f [|e [|a [|t r]]]]; try done. simpl.
  intros H. repeat (apply andb_prop in H as [H ?]). by apply ci_f_word.
Qed.

(** What a match of [_FEAT_PATTERN] looks like. *)
Lemma feat_match_some p s n :
  feat_match p s = Some n →
  opt_word p = false
  ∧ ((n = 4%nat ∧ ∃ f e a t r, s = f :: e :: a :: t :: r
                  ∧ is_word t = true ∧ opt_word (head r) = false)
     ∨ (n = 5%nat ∧ ∃ f e a t r, s = f :: e :: a :: t :: ch "." :: r)
     ∨ (n = 3%nat ∧ ∃ f t r, s = f :: t :: ch "." :: r)).
Proof.
  unfold feat_match.
  destruct (word_boundary p (head s)) eqn:Hb; [|done]. cbn [negb].
  destruct s as [|f [|e [|a [|t r]]]]; try done.
  - destruct (ci "f" f && ci "t" e && (a =? ch ".")%N
              && word_boundary (Some a) None) eqn:E; [|done].
    intros [= <-].
    repeat (apply andb_prop in E as [E ?]).
    assert (Hf : is_word f = true) by by apply ci_f_word.
    unfold word_boundary in Hb. simpl in Hb. rewrite Hf in Hb.
    split; [by destruct (opt_word p)|].
    right. right. split; [done|]. exists f, e, []. f_equal. f_equal. f_equal.
    by apply N.eqb_eq.
  - intros Hm.
    destruct (ci "f" f && ci "e" e && ci "a" a && ci "t" t) eqn:E.
    + repeat (apply andb_prop in E as [E ?]).
      assert (Hf : is_word f = true) by by apply ci_f_word.
      assert (Ht : is_word t = true) by by apply ci_t_word.
      unfold word_boundary in Hb. simpl in Hb. rewrite Hf in Hb.
      split; [by destruct (opt_word p)|].
      destruct r as [|d r'].
      * destruct (word_boundary (Some t) None); [|done]. injection Hm as <-.
        left. split; [done|]. by exists f, e, a, t, [].
      * destruct ((d =? ch ".")%N && word_boundary (Some d) (head r')) eqn:Ed.
        -- injection Hm as <-. right. left. split; [done|].
           apply andb_prop in Ed as [Ed _]. apply N.eqb_eq in Ed. subst d.
           by exists f, e, a, t, r'.
        -- destruct (word_boundary (Some t) (Some d)) eqn:Etd; [|done].
           injection Hm as <-. left. split; [done|]. exists f, e, a, t, (d :: r').
           split; [done|]. split; [done|].
           unfold word_boundary in Etd. simpl in *. rewrite Ht in Etd.
           by destruct (is_word d).
    + destruct (ci "f" f && ci "t" e && (a =? ch ".")%N
                && word_boundary (Some a) (Some t)) eqn:E2; [|done].
      injection Hm as <-.
      repeat (apply andb_prop in E2 as [E2 ?]).
      assert (Hf : is_word f = true) by by apply ci_f_word.
      unfold word_boundary in Hb. simpl in Hb. rewrite Hf in Hb.
      split; [by destruct (opt_word p)|].
      right. right. split; [done|]. exists f, e, (t :: r).
      f_equal. f_equal. f_equal. by apply N.eqb_eq.
Qed.

(** The word [feat] on its own is always matched. *)
Lemma feat_match_of_feat_at p s :
  opt_word p = false → feat_at s = true → ∃ n, feat_match p s = Some n.
Proof.
  intros Hp Hs. pose proof (feat_at_word_head s Hs) as Hh.
  unfold feat_match, word_boundary. rewrite Hp, Hh. simpl.
  destruct s as [|f [|e [|a [|t r]]]]; try done.
  simpl in Hs. apply andb_prop in Hs as [Hs Hr]. rewrite Hs.
  repeat (apply andb_prop in Hs as [Hs ?]).
  assert (Ht : is_word t = true) by by apply ci_t_word.
  destruct r as [|d r']; simpl in *; rewrite Ht.
  - simpl. eauto.
  - destruct ((d =? ch ".")%N && _); [eauto|].
    apply negb_true_iff in Hr. rewrite Hr. simpl. eauto.
Qed.

End FeatFacts.

Section FeatScan.
Context {U : UnicodeData} {L : UnicodeLaws U}.

Lemma feat_at_space o : feat_at (ch " " :: o) = false.
Proof. destruct o as [|? [|? [|? ?]]]; reflexivity. Qed.

Lemma has_feat_word_space before o :
  has_feat_word before (ch " " :: o) = has_feat_word false o.
Proof.
  cbn [has_feat_word]. rewrite feat_at_space, andb_false_r.
  destruct space_char as [_ ->]. reflexivity.
Qed.

(** Behind a word character the pattern does not match. *)
Lemma feat_match_after_word c s :
  is_word c = true → feat_match (Some c) s = None.
Proof.
  intros Hc. destruct (feat_match (Some c) s) as [n|] eqn:E; [|done].
  apply feat_match_some in E as [E _]. simpl in E. congruence.
Qed.

Lemma feat_scan_head_word c s :
  is_word c = true →
  opt_word (head (sub_scan feat_match (Some c) O s)) = opt_word (head s).
Proof.
  intros Hc. destruct s as [|d s]; [done|].
  by rewrite sub_scan_cons, feat_match_after_word.
Qed.

(** The output of [feat_sub] holds no word [feat] on its own.  In the
    middle of a match ([k] characters still to pass over) the output goes
    on behind a space. *)
Lemma feat_scan_clean s : ∀ p k,
  (k = O → has_feat_word (opt_word p) (sub_scan feat_match p O s) = false)
  ∧ ((0 < k)%nat →
     (∀ c, s !! pred k = Some c → is_word c = true →
           opt_word (head (drop k s)) = false) →
     has_feat_word false (sub_scan feat_match p k s) = false).
Proof.
  induction s as [|c s IH]; intros p k.
  { split; [done|]. intros Hk _. by destruct k. }
  split.
  - intros _. rewrite sub_scan_cons.
    destruct (feat_match p (c :: s)) as [n|] eqn:E.
    + rewrite has_feat_word_space.
      apply feat_match_some in E
        as (Hp & [(-> & f & e & a & t & r & Heq & Ht & Hr)
                 |[(-> & f & e & a & t & r & Heq)|(-> & f & t & r & Heq)]]);
        injection Heq as -> ->.
      * apply (proj2 (IH (Some f) 3%nat)); [lia|].
        intros c' [= <-] _. exact Hr.
      * apply (proj2 (IH (Some f) 4%nat)); [lia|].
        intros c' [= <-] Hc'. rewrite dot_not_word in Hc'. done.
      * apply (proj2 (IH (Some f) 2%nat)); [lia|].
        intros c' [= <-] Hc'. rewrite dot_not_word in Hc'. done.
    + cbn [has_feat_word].
      pose proof (proj1 (IH (Some c) O) eq_refl) as H0. cbn [opt_word] in H0.
      rewrite H0, orb_false_r.
      destruct (opt_word p) eqn:Hp; [done|]. cbn [negb andb].
      destruct (feat_at (c :: sub_scan feat_match (Some c) O s)) eqn:Hf; [|done].
      apply feat_at_scan_back in Hf.
      * destruct (feat_match_of_feat_at p (c :: s) Hp Hf) as [n Hn]. congruence.
      * intros t r Ht. by rewrite feat_scan_head_word.
  - intros Hk Hcond. destruct k as [|[|k]]; [lia| |].
    + cbn [sub_scan].
      pose proof (proj1 (IH (Some c) O) eq_refl) as H. cbn [opt_word] in H.
      destruct (is_word c) eqn:Hc; [|done].
      rewrite has_feat_word_head, H, orb_false_r.
      specialize (Hcond c eq_refl Hc). simpl in Hcond.
      destruct (feat_at (sub_scan feat_match (Some c) O s)) eqn:Hf; [|done].
      apply feat_at_word_head in Hf.
      rewrite feat_scan_head_word in Hf by done.
      rewrite drop_0 in Hcond. congruence.
    + cbn [sub_scan]. apply (proj2 (IH (Some c) (S k))); [lia|].
      intros c' Hc'. by apply Hcond.
Qed.

Lemma feat_sub_clean value : has_feat_word false (feat_sub value) = false.
Proof. apply (proj1 (feat_scan_clean value None O) eq_refl). Qed.

End FeatScan.

Section BlankScan.
Context {U : UnicodeData} {L : UnicodeLaws U}.
Variable m' : str → option nat.
Hypothesis m'_blank : blank_matcher m'.

Lemma blank_scan_head p s :
  opt_word (head (sub_scan (fun _ => m') p O s)) = false →
  opt_word (head s) = false.
Proof.
  destruct s as [|c s]; [done|]. rewrite sub_scan_cons.
  destruct (m' (c :: s)) as [n|] eqn:E; [|done].
  intros _. apply m'_blank in E as (x & a & y & b & Heq & _ & Hx & _).
  injection Heq as -> _. exact Hx.
Qed.

Lemma has_feat_word_behind a : ∀ before y b,
  has_feat_word before (a ++ b) = false →
  last a = Some y → is_word y = false →
  has_feat_word false b = false.
Proof.
  induction a as [|x a IH]; intros before y b H Hlast Hy; [done|].
  apply has_feat_word_cons in H as [H _].
  destruct a as [|x' a].
  - injection Hlast as ->. by rewrite Hy in H.
  - by apply (IH (is_word x) y b).
Qed.

(** Replacing such matches by a space brings no word [feat] about. *)
Lemma blank_scan_clean : ∀ n s before,
  (length s ≤ n)%nat →
  has_feat_word before s = false →
  has_feat_word before (sub_scan (fun _ => m') None O s) = false.
Proof.
  induction n as [|n IH]; intros s before Hlen H.
  { destruct s; [done|]. simpl in Hlen. lia. }
  destruct s as [|c s]; [done|]. rewrite sub_scan_cons.
  destruct (m' (c :: s)) as [k|] eqn:E.
  - rewrite has_feat_word_space, sub_scan_skip.
    apply m'_blank in E as (x & a & y & b & Heq & Hk & Hx & Hlast & Hy).
    rewrite Heq in H. apply has_feat_word_behind with (y := y) in H; [|done..].
    injection Heq as -> ->. simpl in Hk. subst k. simpl.
    rewrite drop_app_length. apply IH; [|done].
    simpl in Hlen. rewrite length_app in Hlen. lia.
  - apply has_feat_word_cons in H as [H1 H2].
    cbn [has_feat_word]. rewrite (sub_scan_skip m' (Some c) O s), drop_0.
    rewrite IH; [|simpl in Hlen; lia|done]. rewrite orb_false_r.
    destruct before; [done|]. cbn [negb andb].
    destruct (feat_at (c :: sub_scan (fun _ => m') None O s)) eqn:Hf; [|done].
    rewrite <- (drop_0 s), <- (sub_scan_skip m' (Some c) O s) in Hf.
    apply feat_at_scan_back in Hf.
    + rewrite H2 in Hf; done.
    + intros t r _. apply blank_scan_head.
Qed.

End BlankScan.

Section Matchers.
Context {U : UnicodeData} {L : UnicodeLaws U}.

(** [span_len] cuts the longest prefix whose characters satisfy [p]. *)
Lemma span_len_split (p : char → bool) s :
  ∃ a b, s = a ++ b ∧ length a = span_len p s
         ∧ Forall (fun c => p c = true) a
         ∧ drop (span_len p s) s = b
         ∧ match b with
           | d :: _ => p d = false
           | [] => True
           end.
Proof.
  induction s as [|c s (a & b & Hs & Hl & Ha & Hd & Hb)].
  - by exists [], [].
  - simpl. destruct (p c) eqn:E.
    + exists (c :: a), b. simpl. rewrite <- Hs, Hl. repeat split; try done.
      by constructor.
    + exists [], (c :: s). by repeat split.
Qed.

Lemma spaces_not_word a y :
  Forall (fun c => is_space c = true) a → y ∈ a → is_word y = false.
Proof.
  rewrite Forall_forall. intros Ha Hy. by apply space_not_word, Ha.
Qed.

Lemma spaces_match_blank : blank_matcher spaces_match.
Proof.
  intros s n. unfold spaces_match.
  destruct (span_len_split is_space s) as (a & b & Hs & Hl & Ha & _ & _).
  destruct (span_len is_space s) as [|k] eqn:E; [done|]. intros [= <-].
  destruct a as [|x a]; [done|].
  destruct (last (x :: a)) as [y|] eqn:Hlast; [|by apply last_None in Hlast].
  exists x, a, y, b. repeat split; try done.
  - apply (spaces_not_word (x :: a)); [done|by left].
  - apply (spaces_not_word (x :: a)); [done|]. by apply last_Some_elem_of.
Qed.

Lemma parens_match_blank : blank_matcher parens_match.
Proof.
  intros s n. unfold parens_match.
  destruct (span_len_split is_space s) as (a1 & b1 & Hs1 & Hl1 & Ha1 & -> & _).
  destruct b1 as [|o s1]; [done|].
  destruct (is_open o) eqn:Ho; [|done].
  destruct (span_len_split (fun c => negb (is_close c)) s1)
    as (a2 & b2 & Hs2 & Hl2 & _ & -> & Hb2).
  destruct b2 as [|cl s2]; [done|]. apply negb_false_iff in Hb2.
  destruct (span_len_split is_space s2) as (a3 & b3 & Hs3 & Hl3 & Ha3 & _ & _).
  intros [= <-].
  assert (Hs : s = (a1 ++ o :: a2 ++ cl :: a3) ++ b3).
  { rewrite Hs1, Hs2, Hs3. by rewrite <- !app_assoc, <- !app_comm_cons, <- !app_assoc. }
  assert (Hlen : length (a1 ++ o :: a2 ++ cl :: a3)
                 = (span_len is_space s + 1 + span_len (λ c, negb (is_close c)) s1
                    + 1 + span_len is_space s2)%nat).
  { rewrite length_app. simpl. rewrite length_app. simpl. lia. }
  assert (Hlast : ∃ y, last (a1 ++ o :: a2 ++ cl :: a3) = Some y
                       ∧ is_word y = false).
  { rewrite last_app_cons, app_comm_cons, last_app_cons.
    destruct (last (cl :: a3)) as [y|] eqn:E; [|by apply last_None in E].
    exists y. split; [done|].
    apply last_Some_elem_of, elem_of_cons in E as [->|E].
    - by apply close_not_word.
    - by apply (spaces_not_word a3). }
  destruct Hlast as (y & Hlast & Hy).
  destruct a1 as [|x a1].
  - exists o, (a2 ++ cl :: a3), y, b3. repeat split; try done.
    by apply open_not_word.
  - exists x, (a1 ++ o :: a2 ++ cl :: a3), y, b3. repeat split; try done.
    apply (spaces_not_word (x :: a1)); [done|by left].
Qed.

End Matchers.

Section Steps.
Context {U : UnicodeData} {L : UnicodeLaws U}.

(** *** Characters: every step keeps or blanks the characters it reads *)

Lemma blank_if_Forall (Q : char → Prop) p value :
  Q (ch " ") → Forall Q value → Forall Q (blank_if p value).
Proof.
  intros Hsp. induction 1 as [|c s Hc Hs IH]; [constructor|].
  simpl. constructor; [by destruct (p c)|done].
Qed.

Lemma parens_loop_Forall (Q : char → Prop) rounds value :
  Q (ch " ") → Forall Q value → Forall Q (parens_loop rounds value).
Proof.
  intros Hsp. revert value. induction rounds as [|k IH]; intros value Hv; [done|].
  simpl. destruct (str_eqb _ _); [done|].
  apply IH. by apply sub_scan_Forall.
Qed.

Lemma lstrip_Forall (Q : char → Prop) value :
  Forall Q value → Forall Q (lstrip value).
Proof.
  induction 1 as [|c s Hc Hs IH]; [constructor|].
  simpl. destruct (is_space c); [done|by constructor].
Qed.

Lemma strip_Forall (Q : char → Prop) value :
  Forall Q value → Forall Q (strip value).
Proof.
  intros H. unfold strip.
  by apply Forall_rev, lstrip_Forall, Forall_rev, lstrip_Forall.
Qed.

Lemma replace_amp_Forall (Q : char → Prop) value :
  Forall Q (py " and ") → Forall Q value → Forall Q (replace_amp value).
Proof.
  intros Hand. induction 1 as [|c s Hc Hs IH]; [constructor|].
  unfold replace_amp. simpl. destruct (c =? ch "&")%N.
  - apply Forall_app. by split.
  - by constructor.
Qed.

(** The characters of [normalize_string value] satisfy what the characters
    of the lower-cased NFKD form, the space and the letters of [and]
    satisfy. *)
Lemma normalize_string_Forall (Q : char → Prop) value :
  Forall Q (py " and ") →
  Forall Q (lower (_strip_diacritics value)) →
  Forall Q (normalize_string value).
Proof.
  intros Hand Hv.
  assert (Hsp : Q (ch " ")) by by inversion Hand.
  unfold normalize_string.
  apply strip_Forall, sub_scan_Forall; [done|].
  do 3 (apply blank_if_Forall; [done|]).
  apply parens_loop_Forall; [done|].
  apply sub_scan_Forall; [done|].
  by apply replace_amp_Forall.
Qed.

Lemma blank_if_id p value :
  Forall (fun c => p c = false) value → blank_if p value = value.
Proof.
  induction 1 as [|c s Hc Hs IH]; [done|]. simpl. by rewrite Hc, IH.
Qed.

(** *** The word [feat] *)

(** Blanking characters that are not word characters changes no word. *)
Lemma blank_if_clean p before value :
  (∀ c, p c = true → is_word c = false) →
  has_feat_word before (blank_if p value) = has_feat_word before value.
Proof.
  intros Hp.
  assert (Hw : ∀ c, is_word (if p c then ch " " else c) = is_word c).
  { intros c. destruct (p c) eqn:E; [|done].
    rewrite (Hp c E). by destruct space_char. }
  assert (Hci : ∀ l c, (l = "f" ∨ l = "e" ∨ l = "a" ∨ l = "t")%char →
                       ci l (if p c then ch " " else c) = ci l c).
  { intros l c Hl. destruct (p c) eqn:E; [|done].
    destruct (ci l c) eqn:Ec.
    - assert (is_word c = true)
        by (destruct Hl as [->|[->|[->| ->]]];
            [by apply ci_f_word|by apply ci_e_word
            |by apply ci_a_word|by apply ci_t_word]).
      rewrite (Hp c E) in *. done.
    - by destruct Hl as [->|[->|[->| ->]]]. }
  assert (Hat : ∀ s, feat_at (blank_if p s) = feat_at s).
  { intros [|f [|e [|a [|t r]]]]; try done. cbn [blank_if map feat_at].
    rewrite !Hci by auto.
    destruct r as [|d r]; [done|]. simpl. by rewrite Hw. }
  revert before. induction value as [|c s IH]; intros before; [done|].
  change (blank_if p (c :: s)) with ((if p c then ch " " else c) :: blank_if p s).
  cbn [has_feat_word]. rewrite IH, Hw.
  change ((if p c then ch " " else c) :: blank_if p s) with (blank_if p (c :: s)).
  by rewrite Hat.
Qed.

Lemma parens_loop_clean rounds before value :
  has_feat_word before value = false →
  has_feat_word before (parens_loop rounds value) = false.
Proof.
  revert value. induction rounds as [|k IH]; intros value H; [done|].
  simpl. destruct (str_eqb _ _); [done|].
  apply IH. unfold parens_sub.
  apply (blank_scan_clean _ parens_match_blank (length value)); [lia|done].
Qed.

Lemma lstrip_clean value :
  has_feat_word false value = false →
  has_feat_word false (lstrip value) = false.
Proof.
  induction value as [|c s IH]; [done|]. intros H. simpl.
  destruct (is_space c) eqn:E; [|done].
  apply IH. apply has_feat_word_cons in H as [H _].
  by rewrite (space_not_word c E) in H.
Qed.

End Steps.

Section Trim.
Context {U : UnicodeData} {L : UnicodeLaws U}.

Lemma lstrip_split value :
  ∃ a, value = a ++ lstrip value ∧ Forall (fun c => is_space c = true) a.
Proof.
  induction value as [|c s (a & Hs & Ha)]; [by exists []|].
  simpl. destruct (is_space c) eqn:E.
  - exists (c :: a). simpl. rewrite <- Hs. split; [done|]. by constructor.
  - by exists [].
Qed.

(** [strip] cuts white space off both ends. *)
Lemma strip_split value :
  ∃ a b, value = a ++ strip value ++ b
         ∧ Forall (fun c => is_space c = true) a
         ∧ Forall (fun c => is_space c = true) b.
Proof.
  destruct (lstrip_split value) as (a & Hv & Ha).
  destruct (lstrip_split (rev (lstrip value))) as (b & Hr & Hb).
  exists a, (rev b). unfold strip. repeat split; [|done|by apply Forall_rev].
  rewrite <- rev_app_distr, <- Hr, rev_involutive. exact Hv.
Qed.

Lemma feat_at_app s t :
  Forall (fun c => is_space c = true) t →
  feat_at s = true → feat_at (s ++ t) = true.
Proof.
  intros Ht. destruct s as [|f [|e [|a [|x r]]]]; try done.
  cbn [feat_at app]. intros H. apply andb_prop in H as [H Hr]. rewrite H.
  destruct r as [|d r]; [|done]. simpl.
  destruct Ht as [|c t Hc _]; [done|]. simpl. by rewrite (space_not_word c Hc).
Qed.

Lemma has_feat_word_trim before s t :
  Forall (fun c => is_space c = true) t →
  has_feat_word before (s ++ t) = false → has_feat_word before s = false.
Proof.
  intros Ht. revert before. induction s as [|c s IH]; intros before; [done|].
  intros H. change ((c :: s) ++ t) with (c :: s ++ t) in H.
  apply has_feat_word_cons in H as [H1 H2].
  cbn [has_feat_word]. rewrite (IH _ H1), orb_false_r.
  destruct before; [done|]. cbn [negb andb].
  destruct (feat_at (c :: s)) eqn:E; [|done].
  apply (feat_at_app _ t Ht) in E. rewrite <- H2; done.
Qed.

Lemma has_feat_word_skip_spaces a s :
  Forall (fun c => is_space c = true) a →
  has_feat_word false (a ++ s) = false → has_feat_word false s = false.
Proof.
  induction 1 as [|c a Hc Ha IH]; [done|]. intros H.
  apply IH. change ((c :: a) ++ s) with (c :: a ++ s) in H.
  apply has_feat_word_cons in H as [H _].
  by rewrite (space_not_word c Hc) in H.
Qed.

Lemma strip_clean value :
  has_feat_word false value = false →
  has_feat_word false (strip value) = false.
Proof.
  destruct (strip_split value) as (a & b & Hv & Ha & Hb).
  intros H. rewrite Hv in H.
  apply has_feat_word_skip_spaces in H; [|done].
  by apply has_feat_word_trim in H.
Qed.

(** No word [feat] stands on its own in a normalized string, provided no
    underscore is turned into a space. *)
Lemma normalize_string_clean value :
  ch "_" ∉ lower (_strip_diacritics value) →
  has_feat_word false (normalize_string value) = false.
Proof.
  intros Hu. unfold normalize_string.
  set (v3 := feat_sub _). set (v4 := strip_parens v3).
  set (v5 := blank_if _ v4). set (v6 := blank_if _ v5).
  assert (H6 : Forall (fun c => c ≠ ch "_") v6).
  { do 2 (apply blank_if_Forall; [done|]).
    apply parens_loop_Forall; [done|].
    apply sub_scan_Forall; [done|].
    apply replace_amp_Forall; [by repeat constructor|].
    apply Forall_forall. intros c Hc ->. done. }
  rewrite (blank_if_id _ v6).
  2:{ eapply Forall_impl; [exact H6|]. intros c Hc. by apply N.eqb_neq. }
  apply strip_clean.
  apply (blank_scan_clean _ spaces_match_blank (length v6)); [lia|].
  unfold v6, v5. rewrite !blank_if_clean.
  - apply parens_loop_clean, feat_sub_clean.
  - intros c Hc. apply orb_prop in Hc as [Hc|Hc].
    + by apply open_not_word.
    + by apply close_not_word.
  - intros c Hc. apply andb_prop in Hc as [Hc _]. by apply negb_true_iff.
Qed.

End Trim.

Section Shape.
Context {U : UnicodeData} {L : UnicodeLaws U}.

Lemma plain_not_space c : plain c → is_space c = false.
Proof. by intros (_ & H & _). Qed.

Lemma spaced_last u y : spaced u → last u = Some y → plain y.
Proof.
  induction u as [|c u IH]; [done|]. intros [Hc Hu] Hl.
  destruct u as [|c' u].
  - injection Hl as <-. destruct Hc as [Hc|[_ (d & r & [=] & _)]]. done.
  - apply IH; [done|]. by rewrite last_cons_cons in Hl.
Qed.

Lemma lstrip_plain c r : plain c → lstrip (c :: r) = c :: r.
Proof. intros Hc. simpl. by rewrite plain_not_space. Qed.

(** Cutting white space off the right end of a string that starts with
    a plain character and is spaced, up to one space at its end. *)
Lemma rstrip_spaced u :
  spaced u → rev (lstrip (rev u)) = u.
Proof.
  intros Hu. destruct (last u) as [y|] eqn:E.
  - pose proof (spaced_last u y Hu E) as Hy.
    apply last_Some in E as [u' ->].
    rewrite rev_app_distr. simpl. rewrite plain_not_space by done.
    simpl. by rewrite rev_involutive.
  - apply last_None in E. by subst.
Qed.

Lemma rstrip_spaced_space u :
  spaced u → rev (lstrip (rev (u ++ [ch " "]))) = u.
Proof.
  intros Hu. rewrite rev_app_distr. simpl.
  destruct space_char as [-> _]. by apply rstrip_spaced.
Qed.

Lemma collapse_cons c v :
  sub_scan (fun _ => spaces_match) None O (c :: v)
  = if is_space c
    then ch " " :: sub_scan (fun _ => spaces_match) None O
                     (drop (span_len is_space v) v)
    else c :: sub_scan (fun _ => spaces_match) None O v.
Proof.
  rewrite sub_scan_cons. unfold spaces_match at 1. cbn [span_len].
  destruct (is_space c).
  - simpl pred. by rewrite sub_scan_skip.
  - by rewrite (sub_scan_skip spaces_match (Some c) O v), drop_0.
Qed.

(** The output of [collapse_spaces]: spaced, up to a space at the end and
    a space at the start. *)
Lemma collapse_loose : ∀ n v,
  (length v ≤ n)%nat →
  Forall (fun c => is_space c = true ∨ plain c) v →
  let out := sub_scan (fun _ => spaces_match) None O v in
  (spaced out ∨ ∃ w, out = w ++ [ch " "] ∧ spaced w)
  ∧ (∀ c r, v = c :: r → is_space c = false → ∃ o, out = c :: o).
Proof.
  induction n as [|n IH]; intros v Hlen Hv out; subst out.
  { destruct v; [|simpl in Hlen; lia]. split; [by left|done]. }
  destruct v as [|c v]; [split; [by left|done]|].
  rewrite collapse_cons.
  apply Forall_cons in Hv as [Hc Hv].
  destruct (is_space c) eqn:Ec.
  - split; [|intros ? ? [= <- <-] ?; congruence].
    destruct (span_len_split is_space v) as (a & b & Hs & Hl & Ha & -> & Hb).
    assert (Hlb : (length b ≤ n)%nat).
    { rewrite Hs in Hlen. simpl in Hlen. rewrite length_app in Hlen. lia. }
    assert (Hvb : Forall (fun c => is_space c = true ∨ plain c) b).
    { rewrite Hs in Hv. by apply Forall_app in Hv as [_ ?]. }
    destruct (IH b Hlb Hvb) as [Hloose Hhead].
    destruct b as [|d b].
    { right. exists []. simpl. by split. }
    destruct (Hhead d b eq_refl Hb) as [o Ho].
    assert (Hd : plain d).
    { apply Forall_cons in Hvb as [[Hd|Hd] _]; [congruence|done]. }
    rewrite Ho in *.
    destruct Hloose as [Hsp|(w & Hw & Hsp)].
    + left. split; [|done]. right. split; [done|]. by exists d, o.
    + right. destruct w as [|d' w].
      * injection Hw as -> _. destruct space_char as [Hs' _].
        apply plain_not_space in Hd. congruence.
      * injection Hw as <- ->. exists (ch " " :: d :: w). split; [done|].
        split; [|done]. right. split; [done|]. by exists d, w.
  - assert (Hp : plain c) by (destruct Hc; [congruence|done]).
    destruct (IH v ltac:(simpl in Hlen; lia) Hv) as [Hloose _].
    split; [|by intros ? ? [= <- <-] ?; eexists].
    destruct Hloose as [Hsp|(w & Hw & Hsp)].
    + left. split; [by left|done].
    + right. exists (c :: w). rewrite Hw. split; [done|]. split; [by left|done].
Qed.

Lemma strip_loose w :
  (spaced w ∨ ∃ w', w = w' ++ [ch " "] ∧ spaced w') → tidy (strip w).
Proof.
  unfold strip. intros Hw.
  assert (H1 : ∃ u, (lstrip w = u ∨ lstrip w = u ++ [ch " "])
                    ∧ spaced u
                    ∧ match u with c :: _ => plain c | [] => True end).
  { destruct w as [|c w1]; [exists []; simpl; by auto|].
    destruct Hw as [[Hc Hsp]|(w' & Hw & Hsp)].
    - destruct Hc as [Hc|[-> (d & r & -> & Hd)]].
      + exists (c :: w1). rewrite lstrip_plain by done.
        split; [by left|]. split; [|done]. split; [by left|done].
      + exists (d :: r). simpl. destruct space_char as [-> _].
        rewrite plain_not_space by done. split; [by left|]. split; [|done].
        by destruct Hsp.
    - destruct w' as [|c' w'].
      + injection Hw as -> ->. exists []. simpl.
        destruct space_char as [-> _]. split; [by left|done].
      + injection Hw as <- ->. destruct Hsp as [Hc Hsp].
        destruct Hc as [Hc|[-> (d & r & -> & Hd)]].
        * exists (c :: w').
          change ((c :: w') ++ [ch " "]) with (c :: (w' ++ [ch " "])).
          rewrite lstrip_plain by done.
          split; [by right|]. split; [|done]. split; [by left|done].
        * exists (d :: r). simpl. destruct space_char as [-> _].
          rewrite plain_not_space by done. split; [by right|]. split; [|done].
          by destruct Hsp. }
  destruct H1 as (u & [-> | ->] & Hu & Hhead).
  - rewrite rstrip_spaced by done. by split.
  - rewrite rstrip_spaced_space by done. by split.
Qed.

(** A normalized string is tidy. *)
Lemma normalize_string_tidy value :
  ch "_" ∉ lower (_strip_diacritics value) →
  tidy (normalize_string value).
Proof.
  intros Hu. unfold normalize_string.
  set (v3 := feat_sub _). set (v4 := strip_parens v3).
  set (v5 := blank_if _ v4). set (v6 := blank_if _ v5).
  assert (H6 : Forall (fun c => c ≠ ch "_") v6).
  { do 2 (apply blank_if_Forall; [done|]).
    apply parens_loop_Forall; [done|].
    apply sub_scan_Forall; [done|].
    apply replace_amp_Forall; [by repeat constructor|].
    apply Forall_forall. intros c Hc ->. done. }
  assert (H6' : Forall (fun c => is_word c = true ∨ is_space c = true) v6).
  { unfold v6. generalize v5. intros v. induction v as [|c v IH]; [constructor|].
    simpl. constructor; [|done].
    destruct (is_word c) eqn:Ew, (is_space c) eqn:Es; simpl; auto.
    right. by destruct space_char. }
  rewrite (blank_if_id _ v6).
  2:{ eapply Forall_impl; [exact H6|]. intros c Hc. by apply N.eqb_neq. }
  apply strip_loose.
  apply (collapse_loose (length v6) v6); [lia|].
  apply Forall_forall. intros c Hc.
  rewrite Forall_forall in H6, H6'.
  destruct (is_space c) eqn:Es; [by left|]. right.
  destruct (H6' c Hc) as [Hw|Hs]; [|congruence].
  repeat split; try done. by apply H6.
Qed.

End Shape.

(** *** The [while True] loop of the bracket removal

    A round that changes the string shortens it, so the bounded loop of
    [strip_parens] ends on a string that [parens_sub] leaves alone, as
    the source's loop does. *)

Section Rounds.
Context {U : UnicodeData}.

Lemma sub_scan_length (m : option char → str → option nat) s : ∀ p k,
  (length (sub_scan m p k s) ≤ length s - k)%nat.
Proof.
  induction s as [|c s IH]; intros p k; [simpl; lia|].
  destruct k as [|k].
  - rewrite sub_scan_cons. destruct (m p (c :: s)) as [n|].
    + simpl. specialize (IH (Some c) (pred n)). lia.
    + simpl. specialize (IH (Some c) O). lia.
  - simpl. apply IH.
Qed.

Lemma sub_scan_shrinks (m : option char → str → option nat) :
  (∀ p s n, m p s = Some n → (2 ≤ n ≤ length s)%nat) →
  ∀ s p, sub_scan m p O s = s
         ∨ (length (sub_scan m p O s) < length s)%nat.
Proof.
  intros Hm. induction s as [|c s IH]; intros p; [by left|].
  rewrite sub_scan_cons. destruct (m p (c :: s)) as [n|] eqn:E.
  - right. apply Hm in E. simpl in *.
    pose proof (sub_scan_length m s (Some c) (pred n)). lia.
  - destruct (IH (Some c)) as [->|H]; [by left|right; simpl; lia].
Qed.

Lemma span_len_le (p : char → bool) s : (span_len p s ≤ length s)%nat.
Proof.
  induction s as [|c s IH]; simpl; [lia|]. destruct (p c); simpl; lia.
Qed.

Lemma parens_match_bounds s n :
  parens_match s = Some n → (2 ≤ n ≤ length s)%nat.
Proof.
  unfold parens_match. cbv zeta.
  destruct (drop _ s) as [|o s1] eqn:E1; [done|].
  destruct (is_open o); [|done].
  destruct (drop _ s1) as [|x s2] eqn:E2; [done|].
  intros [= <-].
  apply (f_equal length) in E1, E2. rewrite length_drop in E1, E2.
  simpl in E1, E2. pose proof (span_len_le is_space s2). lia.
Qed.

Lemma parens_loop_fixed rounds : ∀ value,
  (length value ≤ rounds)%nat →
  parens_sub (parens_loop rounds value) = parens_loop rounds value.
Proof.
  induction rounds as [|k IH]; intros value Hlen.
  - destruct value; [done|simpl in Hlen; lia].
  - simpl. unfold str_eqb. case_bool_decide as E; [done|].
    apply IH.
    destruct (sub_scan_shrinks (fun _ => parens_match)
                (fun _ s n => parens_match_bounds s n) value None)
      as [H|H]; [done|].
    unfold parens_sub. lia.
Qed.

Lemma strip_parens_fixed value :
  parens_sub (strip_parens value) = strip_parens value.
Proof. by apply parens_loop_fixed. Qed.

End Rounds.

(** *** A normalized string is left as it is *)

Section Fixed.
Context {U : UnicodeData} {L : UnicodeLaws U}.

Lemma spaced_Forall s : spaced s → Forall (fun c => plain c ∨ c = ch " ") s.
Proof.
  induction s as [|c s IH]; [constructor|]. intros [Hc Hs].
  constructor; [|by apply IH]. destruct Hc as [?|[? _]]; auto.
Qed.

Lemma strip_diacritics_settled t : Forall settled t → _strip_diacritics t = t.
Proof.
  unfold _strip_diacritics. induction 1 as [|c t (Hn & Hc & _) Ht IH]; [done|].
  simpl. rewrite Hn. simpl. rewrite Hc. simpl. by rewrite IH.
Qed.

Lemma replace_amp_id t : Forall (fun c => c ≠ ch "&") t → replace_amp t = t.
Proof.
  unfold replace_amp. induction 1 as [|c t Hc Ht IH]; [done|].
  simpl. apply N.eqb_neq in Hc. rewrite Hc. simpl. by rewrite IH.
Qed.

(** Without a full stop in the string, [_FEAT_PATTERN] matches only the
    word [feat] on its own. *)
Lemma feat_match_feat_at p s n :
  Forall (fun c => c ≠ ch ".") s → feat_match p s = Some n →
  opt_word p = false ∧ feat_at s = true.
Proof.
  intros Hdot Hm. split; [by apply feat_match_some in Hm as [? _]|].
  revert Hm. unfold feat_match.
  destruct (word_boundary p (head s)); [|done]. cbn [negb].
  destruct s as [|f [|e [|a [|t r]]]]; try done.
  - assert (Ha : (a =? ch ".")%N = false).
    { apply N.eqb_neq. by inversion_clear Hdot as [|? ? _ [|? ? _ [|? ? ? _]]]. }
    rewrite Ha, andb_false_r. done.
  - assert (Ha : (a =? ch ".")%N = false).
    { apply N.eqb_neq. by inversion_clear Hdot as [|? ? _ [|? ? _ [|? ? ? _]]]. }
    cbn [feat_at].
    destruct (ci "f" f && ci "e" e && ci "a" a && ci "t" t) eqn:E.
    2:{ rewrite Ha, andb_false_r. done. }
    repeat (apply andb_prop in E as [E ?]).
    assert (Ht : is_word t = true) by by apply ci_t_word.
    destruct r as [|d r']; [done|].
    assert (Hd : (d =? ch ".")%N = false).
    { apply N.eqb_neq.
      by inversion_clear Hdot as [|? ? _ [|? ? _ [|? ? _ [|? ? _ [|? ? ? _]]]]]. }
    rewrite Hd. cbn [andb head opt_word]. unfold word_boundary. cbn [opt_word].
    rewrite Ht. by destruct (is_word d).
Qed.

Lemma feat_scan_id s : ∀ p,
  Forall (fun c => c ≠ ch ".") s →
  has_feat_word (opt_word p) s = false →
  sub_scan feat_match p O s = s.
Proof.
  induction s as [|c s IH]; intros p Hdot Hclean; [done|].
  rewrite sub_scan_cons.
  destruct (feat_match p (c :: s)) as [n|] eqn:E.
  - apply feat_match_feat_at in E as [Hp Hf]; [|done].
    cbn [has_feat_word] in Hclean. rewrite Hp, Hf in Hclean. done.
  - f_equal. apply Forall_cons in Hdot as [_ Hdot].
    apply has_feat_word_cons in Hclean as [Hclean _].
    by apply (IH (Some c)).
Qed.

Lemma parens_match_none s :
  Forall (fun c => is_open c = false) s → parens_match s = None.
Proof.
  intros Hs. unfold parens_match. cbv zeta.
  destruct (drop _ s) as [|o s1] eqn:E; [done|].
  apply (Forall_drop _ (span_len is_space s)) in Hs. rewrite E in Hs.
  apply Forall_cons in Hs as [-> _]. done.
Qed.

Lemma strip_parens_id t :
  Forall (fun c => is_open c = false) t → strip_parens t = t.
Proof.
  intros Ht. unfold strip_parens. destruct (length t); [done|].
  simpl. unfold str_eqb, parens_sub. rewrite sub_scan_id.
  - by rewrite bool_decide_eq_true_2.
  - intros _ a b ->. apply parens_match_none. by apply Forall_app in Ht as [_ ?].
Qed.

Lemma collapse_spaced s :
  spaced s → sub_scan (fun _ => spaces_match) None O s = s.
Proof.
  induction s as [|c s IH]; [done|]. intros [Hc Hs].
  rewrite collapse_cons. destruct Hc as [Hc | [-> (d & r & -> & Hd)]].
  - rewrite plain_not_space by done. f_equal. by apply IH.
  - destruct space_char as [-> _]. cbn [span_len].
    rewrite plain_not_space by done. rewrite drop_0. f_equal. by apply IH.
Qed.

Lemma strip_tidy s : tidy s → strip s = s.
Proof.
  destruct s as [|c s]; [done|]. intros [Hs Hc]. unfold strip.
  rewrite lstrip_plain by done. by apply rstrip_spaced.
Qed.

(** A tidy string of settled characters without the word [feat] is a
    fixed point of the normalizer. *)
Lemma normalize_fixed t :
  Forall settled t → tidy t → has_feat_word false t = false →
  normalize_string t = t.
Proof.
  intros Hset Htidy Hclean.
  pose proof (spaced_Forall t (proj1 Htidy)) as Hch.
  assert (Hsp : ∀ c, plain c ∨ c = ch " " →
     is_open c = false ∧ is_close c = false ∧ c ≠ ch "." ∧ c ≠ ch "&"
     ∧ c ≠ ch "_" ∧ (is_word c = true ∨ is_space c = true)).
  { intros c [Hc| ->].
    - destruct (plain_not_special c Hc) as (? & ? & ? & ? & _).
      destruct Hc as (? & ? & ?). by repeat split; auto.
    - destruct space_char as [? _]. by repeat split; auto. }
  unfold normalize_string.
  rewrite strip_diacritics_settled by done.
  rewrite lower_settled by done.
  rewrite replace_amp_id.
  2:{ eapply Forall_impl; [exact Hch|]. intros c Hc. by apply Hsp in Hc as (_ & _ & _ & ? & _). }
  unfold feat_sub. rewrite feat_scan_id; [|
    eapply Forall_impl; [exact Hch|]; intros c Hc;
    by apply Hsp in Hc as (_ & _ & ? & _) | exact Hclean].
  rewrite strip_parens_id.
  2:{ eapply Forall_impl; [exact Hch|]. intros c Hc. by apply Hsp in Hc as (? & _). }
  rewrite (blank_if_id (fun c => is_open c || is_close c) t).
  2:{ eapply Forall_impl; [exact Hch|]. intros c Hc.
      apply Hsp in Hc as (-> & -> & _). done. }
  rewrite (blank_if_id (fun c => negb (is_word c) && negb (is_space c)) t).
  2:{ eapply Forall_impl; [exact Hch|]. intros c Hc.
      apply Hsp in Hc as (_ & _ & _ & _ & _ & [->| ->]); [done|].
      apply andb_false_r. }
  rewrite (blank_if_id (fun c => N.eqb c (ch "_")) t).
  2:{ eapply Forall_impl; [exact Hch|]. intros c Hc.
      apply Hsp in Hc as (_ & _ & _ & _ & ? & _). by apply N.eqb_neq. }
  unfold collapse_spaces. rewrite collapse_spaced by apply Htidy.
  by apply strip_tidy.
Qed.

End Fixed.

(** *** The ASCII tables satisfy the laws *)

Lemma to_lower_twice c : Ascii7.to_lower (Ascii7.to_lower c) = Ascii7.to_lower c.
Proof.
  unfold Ascii7.to_lower, Ascii7.is_upper.
  destruct (N.leb 65 c && N.leb c 90) eqn:E; [|by rewrite E].
  apply andb_true_iff in E as [E1 E2]. apply N.leb_le in E1, E2.
  assert (H : N.leb (c + 32) 90 = false) by (apply N.leb_gt; lia).
  by rewrite H, andb_false_r.
Qed.

Lemma ascii_laws : UnicodeLaws ascii_tables.
Proof.
  split; try done.
  - intros c Hs. apply not_true_iff_false. intros Hw. revert Hs Hw.
    simpl. unfold Ascii7.space, Ascii7.word, Ascii7.is_upper,
      Ascii7.is_lower, Ascii7.is_decimal.
    rewrite !orb_true_iff, !andb_true_iff, !N.leb_le, !N.eqb_eq. lia.
  - intros s. apply Forall_forall. intros c Hc. simpl in Hc.
    apply list_elem_of_fmap in Hc as (y & -> & _).
    split; [done|]. split; [done|]. simpl. by rewrite to_lower_twice.
  - intros t. induction 1 as [|c t (_ & _ & Hc) Ht IH]; [done|].
    simpl in *. injection Hc as Hc. by rewrite IH, Hc.
Qed.

(** ** Idempotence of the normalizer *)

Lemma ascii_settled (U : UnicodeData) (L : UnicodeLaws U) c :
  is_ascii c → Ascii7.to_lower c = c → settled c.
Proof.
  intros Hc Hl. split; [by apply ascii_nfkd|]. split; [by apply ascii_combining|].
  rewrite ascii_lower by by constructor. simpl. by rewrite Hl.
Qed.

Lemma and_settled (U : UnicodeData) (L : UnicodeLaws U) :
  Forall settled (py " and ").
Proof.
  change (py " and ") with [ch " "; ch "a"; ch "n"; ch "d"; ch " "].
  repeat constructor; apply (ascii_settled U L); by vm_compute.
Qed.

(** C10 (amended).  [normalize_string (normalize_string s)] is
    [normalize_string s] for every input [s] whose lower-cased NFKD form
    holds no underscore, for Unicode tables that satisfy [UnicodeLaws].
    The first pass leaves a tidy string of settled characters in which
    the word [feat] does not stand on its own, and such a string is a
    fixed point. *)
Theorem normalize_string_idempotent (U : UnicodeData) (L : UnicodeLaws U)
    (s : str) :
  ch "_" ∉ lower (_strip_diacritics s) →
  normalize_string (normalize_string s) = normalize_string s.
Proof.
  intros Hu. apply normalize_fixed.
  - apply normalize_string_Forall.
    + by apply and_settled.
    + apply folded_settled.
  - by apply normalize_string_tidy.
  - by apply normalize_string_clean.
Qed.

Lemma normalize_string_idempotent_witness :
  (ch "_" ∉ lower (UnicodeData:=ascii_tables)
              (_strip_diacritics (py "Artist feat. Someone (Live) & B")))
  ∧ normalize_string (U:=ascii_tables)
      (py "Artist feat. Someone (Live) & B") = py "artist someone and b"
  ∧ normalize_string (U:=ascii_tables)
      (normalize_string (py "Artist feat. Someone (Live) & B"))
    = normalize_string (py "Artist feat. Someone (Live) & B").
Proof.
  assert (Hu : ch "_" ∉ lower (UnicodeData:=ascii_tables)
             (_strip_diacritics (py "Artist feat. Someone (Live) & B"))).
  { rewrite list_elem_of_In. vm_compute. intuition discriminate. }
  split; [exact Hu|]. split; [vm_compute; reflexivity|].
  exact (normalize_string_idempotent ascii_tables ascii_laws _ Hu).
Defined.

(** * Further properties *)

(** ** Identity keys *)

Section KeyFacts.
Context {U : UnicodeData}.

Lemma round_half_even_near n d :
  0 < d → 2 * Z.abs (round_half_even n d * d - n) ≤ d.
Proof.
  intros Hd. unfold round_half_even.
  pose proof (Z.div_mod n d ltac:(lia)) as Hn.
  pose proof (Z.mod_pos_bound n d Hd) as Hr.
  destruct (2 * (n mod d) <? d) eqn:E1; [apply Z.ltb_lt in E1; nia|].
  apply Z.ltb_ge in E1.
  destruct (d <? 2 * (n mod d)) eqn:E2; [apply Z.ltb_lt in E2; nia|].
  apply Z.ltb_ge in E2.
  destruct (Z.even (n / d)); nia.
Qed.

Lemma round_half_even_nonneg n d : 0 < d → 0 ≤ n → 0 ≤ round_half_even n d.
Proof.
  intros Hd Hn. unfold round_half_even.
  pose proof (Z.div_pos n d Hn Hd).
  repeat match goal with |- context [if ?b then _ else _] => destruct b end; lia.
Qed.

Lemma round_half_even_mono n1 n2 d :
  0 < d → n1 ≤ n2 → round_half_even n1 d ≤ round_half_even n2 d.
Proof.
  intros Hd Hn.
  destruct (Z.eq_dec n1 n2) as [->|Hne]; [lia|].
  pose proof (round_half_even_near n1 d Hd) as H1.
  pose proof (round_half_even_near n2 d Hd) as H2.
  nia.
Qed.

Lemma round_half_even_multiple k d : 0 < d → round_half_even (k * d) d = k.
Proof.
  intros Hd. unfold round_half_even.
  rewrite Z.mod_mul, Z.div_mul by lia.
  assert ((2 * 0 <? d) = true) as -> by (apply Z.ltb_lt; lia). done.
Qed.

(** X1.  [round_duration_ms] gives 0 for a negative duration.  For a
    duration from 0 below [2^52] (where the float quotient of the source
    rounds as the exact one) the result is a multiple of the bucket
    [max(1, tolerance_ms)], is not negative, and lies within half a bucket
    of the duration. *)
Theorem round_duration_ms_nearest (duration_ms tolerance_ms : Z) :
  (duration_ms < 0 → round_duration_ms duration_ms tolerance_ms = 0)
  ∧ (0 ≤ duration_ms < 2 ^ 52 →
     (Z.max 1 tolerance_ms | round_duration_ms duration_ms tolerance_ms)
     ∧ 0 ≤ round_duration_ms duration_ms tolerance_ms
     ∧ 2 * Z.abs (round_duration_ms duration_ms tolerance_ms - duration_ms)
       ≤ Z.max 1 tolerance_ms).
Proof.
  unfold round_duration_ms. split.
  - intros Hn. by apply Z.ltb_lt in Hn as ->.
  - intros [H0 _].
    assert ((duration_ms <? 0) = false) as -> by by apply Z.ltb_ge.
    assert (Hb : 0 < Z.max 1 tolerance_ms) by lia.
    split; [by apply Z.divide_factor_r|].
    pose proof (round_half_even_nonneg duration_ms _ Hb H0).
    pose proof (round_half_even_near duration_ms _ Hb).
    split; [nia|done].
Qed.

(** X2.  [round_duration_ms] is monotone in the duration and leaves its
    own results as they are: rounding a rounded duration again with the
    same tolerance changes nothing. *)
Theorem round_duration_ms_stable (tolerance_ms : Z) :
  (∀ d1 d2, d1 ≤ d2 → d2 < 2 ^ 52 →
     round_duration_ms d1 tolerance_ms ≤ round_duration_ms d2 tolerance_ms)
  ∧ (∀ d, d < 2 ^ 52 →
       round_duration_ms (round_duration_ms d tolerance_ms) tolerance_ms
       = round_duration_ms d tolerance_ms).
Proof.
  assert (Hb : 0 < Z.max 1 tolerance_ms) by lia.
  split.
  - intros d1 d2 Hd _. unfold round_duration_ms.
    destruct (d1 <? 0) eqn:E1, (d2 <? 0) eqn:E2; try lia.
    + apply Z.ltb_ge in E2.
      pose proof (round_half_even_nonneg d2 _ Hb E2). nia.
    + pose proof (round_half_even_mono d1 d2 _ Hb Hd). nia.
  - intros d _. unfold round_duration_ms.
    destruct (d <? 0) eqn:E.
    { pose proof (round_half_even_multiple 0 _ Hb) as H0.
      change (0 * Z.max 1 tolerance_ms) with 0 in H0.
      change (0 <? 0) with false. cbv iota. by rewrite H0. }
    apply Z.ltb_ge in E.
    pose proof (round_half_even_nonneg d _ Hb E).
    assert ((round_half_even d (Z.max 1 tolerance_ms) * Z.max 1 tolerance_ms <? 0)
            = false) as -> by (apply Z.ltb_ge; nia).
    by rewrite round_half_even_multiple.
Qed.

Lemma List_filter_perm {A} (f : A → bool) l l' :
  l ≡ₚ l' → List.filter f l ≡ₚ List.filter f l'.
Proof.
  induction 1 as [|x l l' _ IH|x y l|l l' l'' _ IH1 _ IH2]; simpl.
  - done.
  - destruct (f x); by rewrite IH.
  - destruct (f x), (f y); try done. apply Permutation_swap.
  - by rewrite IH1.
Qed.

Lemma normalize_artists_joined_perm (a a' : list str) :
  a ≡ₚ a' → normalize_artists_joined a = normalize_artists_joined a'.
Proof.
  intros Hp. unfold normalize_artists_joined.
  rewrite (str_sorted_of_perm
             (map (fun a => _strip_leading_articles (normalize_string a))
                  (List.filter nonempty a))
             (map (fun a => _strip_leading_articles (normalize_string a))
                  (List.filter nonempty a'))); [done|].
  by apply Permutation_map, List_filter_perm.
Qed.

(** X3.  The order of the artists of a track does not matter:
    [normalize_artists_joined] gives the same string for every permutation
    of the list, and so does [build_track_key] for two tracks that differ
    only in the order of their artists. *)
Theorem build_track_key_artist_order (t t' : Track) (tolerance_ms : Z) :
  artists t ≡ₚ artists t' →
  isrc t = isrc t' → title t = title t' → duration_ms t = duration_ms t' →
  normalize_artists_joined (artists t) = normalize_artists_joined (artists t')
  ∧ build_track_key t tolerance_ms = build_track_key t' tolerance_ms.
Proof.
  intros Hp Hi Ht Hd.
  pose proof (normalize_artists_joined_perm _ _ Hp) as Ha.
  split; [done|]. unfold build_track_key. by rewrite Hi, Ht, Hd, Ha.
Qed.

(** X4.  A track with an ISRC is keyed by the ISRC alone: two tracks
    with the same non-empty ISRC have the same key whatever their titles,
    artists and durations, two tracks with different non-empty ISRCs
    have different keys, and no key of a track with an ISRC is the key of
    a track without one. *)
Theorem build_track_key_isrc (t t' : Track) (tol tol' : Z) :
  truthy (isrc t) = true →
  (isrc t' = isrc t → build_track_key t tol = build_track_key t' tol')
  ∧ (truthy (isrc t') = true →
     build_track_key t tol = build_track_key t' tol' → isrc t' = isrc t)
  ∧ (truthy (isrc t') = false →
     build_track_key t tol ≠ build_track_key t' tol').
Proof.
  intros Hi. unfold build_track_key. rewrite Hi. split; [|split].
  - intros ->. by rewrite Hi.
  - intros -> H. apply app_inv_head in H.
    destruct (isrc t) as [[|? ?]|], (isrc t') as [[|? ?]|]; try done.
    simpl in H. by rewrite H.
  - intros ->. intros H. vm_compute in H. discriminate.
Qed.

End KeyFacts.

Lemma round_duration_ms_nearest_witness :
  round_duration_ms (-5) 2000 = 0
  ∧ (Z.max 1 2000 | round_duration_ms 355001 2000)
  ∧ 0 ≤ round_duration_ms 355001 2000
  ∧ 2 * Z.abs (round_duration_ms 355001 2000 - 355001) ≤ Z.max 1 2000.
Proof.
  split.
  - apply (proj1 (round_duration_ms_nearest (-5) 2000)). lia.
  - apply (proj2 (round_duration_ms_nearest 355001 2000)).
    split; [lia|by vm_compute].
Defined.

Lemma round_duration_ms_stable_witness :
  round_duration_ms 353000 2000 ≤ round_duration_ms 355001 2000
  ∧ round_duration_ms (round_duration_ms 355001 2000) 2000
    = round_duration_ms 355001 2000.
Proof.
  split.
  - apply (proj1 (round_duration_ms_stable 2000) 353000 355001);
      [lia|by vm_compute].
  - apply (proj2 (round_duration_ms_stable 2000) 355001). by vm_compute.
Defined.

Lemma build_track_key_artist_order_witness :
  normalize_artists_joined (U:=ascii_tables) [py "Queen"; py "David Bowie"]
  = normalize_artists_joined (U:=ascii_tables) [py "David Bowie"; py "Queen"]
  ∧ build_track_key (U:=ascii_tables)
      (Sample.track "Under Pressure" ["Queen"; "David Bowie"] None) 2000
    = build_track_key (U:=ascii_tables)
        (Sample.track "Under Pressure" ["David Bowie"; "Queen"] None) 2000.
Proof.
  apply (build_track_key_artist_order (U:=ascii_tables)
           (Sample.track "Under Pressure" ["Queen"; "David Bowie"] None)
           (Sample.track "Under Pressure" ["David Bowie"; "Queen"] None) 2000);
    [apply Permutation_swap|reflexivity|reflexivity|reflexivity].
Defined.

Lemma build_track_key_isrc_witness :
  build_track_key (U:=ascii_tables)
    (Sample.track "Bohemian Rhapsody" ["Queen"] (Some "GBUM71029601")) 2000
  = build_track_key (U:=ascii_tables)
      (Sample.track "Bohemian Rhapsody - Remastered" [] (Some "GBUM71029601")) 0.
Proof.
  apply (proj1 (build_track_key_isrc (U:=ascii_tables)
                  (Sample.track "Bohemian Rhapsody" ["Queen"] (Some "GBUM71029601"))
                  (Sample.track "Bohemian Rhapsody - Remastered" []
                     (Some "GBUM71029601"))
                  2000 0 eq_refl)).
  reflexivity.
Defined.

(** ** Snapshot hash, continued *)

Section SnapshotFacts.
Context {U : UnicodeData}.

(** X5.  [calculate_snapshot_hash] depends on the identity keys of the
    tracks only, as a multiset: two lists whose keys agree up to order
    get the same answer. *)
Theorem snapshot_hash_by_keys (tracks tracks' : list Track) :
  map (fun t => build_track_key t 2000) tracks
  ≡ₚ map (fun t => build_track_key t 2000) tracks' →
  calculate_snapshot_hash tracks = calculate_snapshot_hash tracks'.
Proof.
  intros Hp. destruct tracks as [|t ts], tracks' as [|t' ts'].
  - done.
  - by apply Permutation_nil_l in Hp.
  - by apply Permutation_nil_r in Hp.
  - unfold calculate_snapshot_hash.
    by rewrite (str_sorted_of_perm _ _ Hp).
Qed.

Lemma be_bytes_length n x : length (Sha256.be_bytes n x) = n.
Proof. induction n as [|n IH]; simpl; [done|]. by rewrite IH. Qed.

Lemma be_bytes_range n x :
  Forall (fun b => 0 ≤ b < 256) (Sha256.be_bytes n x).
Proof.
  induction n as [|n IH]; simpl; constructor; [|done].
  change 255 with (Z.ones 8). rewrite Z.land_ones by lia.
  apply Z.mod_pos_bound. lia.
Qed.

Lemma digest_bytes msg :
  length (Sha256.digest msg) = 32%nat
  ∧ Forall (fun b => 0 ≤ b < 256) (Sha256.digest msg).
Proof.
  unfold Sha256.digest. cbv zeta.
  destruct (fold_left _ _ _) as [[[[[[[a b] c] d] e] f] g] h].
  split.
  - cbn [flat_map]. rewrite !length_app, !be_bytes_length. done.
  - cbn [flat_map]. repeat (apply Forall_app; split); try apply be_bytes_range.
    constructor.
Qed.

Lemma hex_digit_is_hex x : 0 ≤ x < 16 → is_lower_hex (Sha256.hex_digit x) = true.
Proof.
  intros Hx. unfold Sha256.hex_digit, is_lower_hex, Ascii7.is_decimal.
  destruct (x <? 10) eqn:E.
  - apply Z.ltb_lt in E. apply orb_true_iff. left.
    apply andb_true_iff. split; apply N.leb_le; lia.
  - apply Z.ltb_ge in E. apply orb_true_iff. right.
    apply andb_true_iff. split; apply N.leb_le; lia.
Qed.

Lemma hexdigest_shape msg :
  length (Sha256.hexdigest msg) = 64%nat
  ∧ forallb is_lower_hex (Sha256.hexdigest msg) = true.
Proof.
  unfold Sha256.hexdigest.
  destruct (digest_bytes msg) as [Hlen Hrange].
  revert Hlen Hrange. generalize (Sha256.digest msg) as d. intros d Hlen Hrange.
  split.
  - assert (Hd : ∀ d' : list Z,
              length (flat_map
                        (fun b => [Sha256.hex_digit (Z.shiftr b 4);
                                   Sha256.hex_digit (Z.land b 15)]) d')
              = (2 * length d')%nat).
    { induction d' as [|b d' IH]; simpl; [done|]. rewrite IH. lia. }
    rewrite Hd, Hlen. done.
  - clear Hlen. induction Hrange as [|b d Hb Hd IH]; [done|].
    cbn [flat_map app forallb]. rewrite IH, !hex_digit_is_hex; [done| |].
    + change 15 with (Z.ones 4). rewrite Z.land_ones by lia.
      apply Z.mod_pos_bound. lia.
    + rewrite Z.shiftr_div_pow2 by lia. change (2 ^ 4) with 16.
      split; [apply Z.div_pos; lia|apply Z.div_lt_upper_bound; lia].
Qed.

Lemma encode_char_scalar c :
  is_scalar_value c = true ↔ is_Some (Sha256.encode_char (Z.of_N c)).
Proof.
  unfold is_scalar_value, Sha256.encode_char.
  rewrite orb_true_iff, andb_true_iff, !N.ltb_lt.
  repeat match goal with
         | |- context [if ?b then _ else _] => destruct b eqn:?
         end;
    rewrite ?andb_true_iff, ?andb_false_iff, ?Z.ltb_lt, ?Z.ltb_ge,
      ?Z.leb_le, ?Z.leb_gt in *;
    (split; [intros ?; try (by eexists); lia|intros [? ?]; try done; lia]).
Qed.

Lemma encode_utf8_scalar s :
  forallb is_scalar_value s = true ↔ is_Some (Sha256.encode_utf8 s).
Proof.
  induction s as [|c s IH]; simpl; [by split; eauto|].
  rewrite andb_true_iff, IH, encode_char_scalar.
  destruct (Sha256.encode_char (Z.of_N c)), (Sha256.encode_utf8 s); split;
    try (intros [[? ?] [? ?]]; done); try (intros [? ?]; done); eauto.
Qed.

Lemma forallb_join (p : char → bool) sep parts :
  forallb p sep = true →
  Forall (fun s => forallb p s = true) parts →
  forallb p (join sep parts) = true.
Proof.
  intros Hsep. induction 1 as [|s parts Hs Hparts IH]; [done|].
  destruct parts as [|s' parts]; [done|].
  change (join sep (s :: s' :: parts)) with (s ++ sep ++ join sep (s' :: parts)).
  rewrite !forallb_app, Hs, Hsep, IH. done.
Qed.

Lemma join_elem (p : char → bool) sep parts s :
  s ∈ parts → forallb p (join sep parts) = true → forallb p s = true.
Proof.
  induction parts as [|s0 parts IH]; [by intros ?%elem_of_nil|].
  destruct parts as [|s' parts].
  - intros ->%list_elem_of_singleton. done.
  - change (join sep (s0 :: s' :: parts)) with (s0 ++ sep ++ join sep (s' :: parts)).
    rewrite !forallb_app, !andb_true_iff. intros Hin (H0 & _ & Hrest).
    apply elem_of_cons in Hin as [->|Hin]; [done|]. by apply IH.
Qed.

(** X6.  For tracks whose duration is below [2^52] ms, where
    [round_duration_ms] is the rounding of the code (beyond the floats
    the division of the code raises [OverflowError]):
    [calculate_snapshot_hash] answers with 64 lower-case hexadecimal
    digits.  It raises only [UnicodeEncodeError], and it does so exactly
    when the key of some track holds a code point that UTF-8 cannot
    encode (a surrogate). *)
Theorem snapshot_hash_format (tracks : list Track) :
  Forall (fun t => duration_ms t < 2 ^ 52) tracks →
  (∀ h, calculate_snapshot_hash tracks = Ok h →
        length h = 64%nat ∧ forallb is_lower_hex h = true)
  ∧ (∀ e, calculate_snapshot_hash tracks = Raise e →
          ∃ msg, e = UnicodeEncodeError msg)
  ∧ ((∃ h, calculate_snapshot_hash tracks = Ok h)
     ↔ ∀ t, t ∈ tracks →
            forallb is_scalar_value (build_track_key t 2000) = true).
Proof.
  intros _. destruct tracks as [|t0 ts].
  { change (calculate_snapshot_hash [])
      with (Ok (A:=str) (Sha256.hexdigest (map Z.of_N (py "empty_snapshot")))).
    pose proof (hexdigest_shape (map Z.of_N (py "empty_snapshot"))) as Hs.
    revert Hs. generalize (Sha256.hexdigest (map Z.of_N (py "empty_snapshot"))).
    intros d Hd. split; [|split].
    - intros h Hh. by assert (h = d) as -> by congruence.
    - intros e He. discriminate He.
    - split; [by intros _ t ?%elem_of_nil|]. intros _. by exists d. }
  unfold calculate_snapshot_hash, sha256_of_str.
  set (keys := py_sorted str_ltb _).
  set (nl := py _).
  assert (Hkeys : ∀ k, k ∈ keys ↔ ∃ t, t ∈ t0 :: ts ∧ k = build_track_key t 2000).
  { intros k. unfold keys.
    rewrite (py_sorted_perm str_ltb), list_elem_of_fmap. naive_solver. }
  pose proof (encode_utf8_scalar (join nl keys)) as Henc.
  split; [|split].
  - destruct (Sha256.encode_utf8 _); [|done].
    intros h [= <-]. apply hexdigest_shape.
  - destruct (Sha256.encode_utf8 _); [done|]. intros e [= <-]. eauto.
  - split.
    + intros [h Hh] t Ht.
      destruct (Sha256.encode_utf8 (join nl keys)) eqn:E; [|done].
      apply (join_elem _ nl keys); [apply Hkeys; eauto|].
      apply Henc. eauto.
    + intros Hall.
      assert (Hs : is_Some (Sha256.encode_utf8 (join nl keys))).
      { apply Henc, forallb_join; [done|].
        apply Forall_forall. intros k (t & Ht & ->)%Hkeys. by apply Hall. }
      destruct Hs as [b ->]. eauto.
Qed.

End SnapshotFacts.

Lemma snapshot_hash_by_keys_witness :
  calculate_snapshot_hash (U:=ascii_tables)
    [Sample.track "Under Pressure" ["Queen"; "David Bowie"] None;
     Sample.bohemian]
  = calculate_snapshot_hash (U:=ascii_tables)
      [Sample.track "Bohemian Rhapsody (Live)" [] (Some "GBUM71029601");
       Sample.track "under pressure" ["David Bowie"; "Queen"] None].
Proof.
  apply (snapshot_hash_by_keys (U:=ascii_tables)).
  vm_compute. apply Permutation_swap.
Defined.

Lemma snapshot_hash_format_witness :
  ∃ h, calculate_snapshot_hash (U:=ascii_tables) [Sample.bohemian; Mock.boom]
       = Ok h
       ∧ length h = 64%nat ∧ forallb is_lower_hex h = true.
Proof.
  assert (Hd : Forall (fun t => duration_ms t < 2 ^ 52)
                 [Sample.bohemian; Mock.boom])
    by (repeat constructor; by vm_compute).
  destruct (proj2 (proj2 (proj2 (snapshot_hash_format (U:=ascii_tables)
                                   [Sample.bohemian; Mock.boom] Hd))))
    as [h Hh].
  { intros t Ht. apply elem_of_cons in Ht as [->|Ht]; [by vm_compute|].
    apply list_elem_of_singleton in Ht as ->. by vm_compute. }
  exists h. split; [exact Hh|].
  exact (proj1 (snapshot_hash_format (U:=ascii_tables)
                  [Sample.bohemian; Mock.boom] Hd) h Hh).
Defined.

(** ** Batches *)

Section BatchSplit.

Lemma chunks_concat fuel size (l : list str) :
  (0 < size)%nat → (length l ≤ fuel)%nat → concat (chunks fuel size l) = l.
Proof.
  intros Hs. revert l. induction fuel as [|k IH]; intros l Hl.
  - by destruct l; [|simpl in Hl; lia].
  - destruct l as [|x l]; [done|].
    change (chunks (S k) size (x :: l))
      with (take size (x :: l) :: chunks k size (drop size (x :: l))).
    simpl concat. rewrite IH, take_drop; [done|].
    rewrite length_drop. simpl in *. lia.
Qed.

Lemma chunks_sizes fuel size (l : list str) :
  (0 < size)%nat → (length l ≤ fuel)%nat →
  Forall (fun b => (0 < length b ≤ size)%nat) (chunks fuel size l)
  ∧ (∀ i b, chunks fuel size l !! i = Some b →
            (S i < length (chunks fuel size l))%nat → length b = size)
  ∧ length (chunks fuel size l) = ((length l + size - 1) / size)%nat.
Proof.
  intros Hs. revert l. induction fuel as [|k IH]; intros l Hl.
  - destruct l; [|simpl in Hl; lia]. simpl.
    split; [constructor|]. split; [done|].
    symmetry. apply Nat.div_small. lia.
  - destruct l as [|x l].
    { simpl. split; [constructor|]. split; [done|].
      symmetry. apply Nat.div_small. lia. }
    change (chunks (S k) size (x :: l))
      with (take size (x :: l) :: chunks k size (drop size (x :: l))).
    assert (Hd : (length (drop size (x :: l)) ≤ k)%nat).
    { rewrite length_drop. simpl in *. lia. }
    destruct (IH _ Hd) as (Hall & Hfull & Hlen).
    split; [|split].
    + constructor; [|done]. rewrite length_take. simpl. lia.
    + intros [|i] b Hb Hi.
      * injection Hb as <-. rewrite length_take.
        simpl length in Hi.
        destruct (chunks k size (drop size (x :: l))) as [|b' bs] eqn:E;
          [simpl in Hi; lia|].
        destruct (drop size (x :: l)) as [|y r] eqn:Ed.
        { by destruct k. }
        apply (f_equal length) in Ed. rewrite length_drop in Ed.
        simpl in Ed |- *. lia.
      * simpl in Hb, Hi. apply (Hfull i b Hb). lia.
    + simpl length at 1. rewrite Hlen, length_drop.
      destruct (le_lt_dec size (length (x :: l))) as [Hle|Hlt].
      * replace (length (x :: l) + size - 1)%nat
          with ((length (x :: l) - size + size - 1) + 1 * size)%nat by lia.
        rewrite Nat.div_add by lia. lia.
      * replace (length (x :: l) - size)%nat with O by lia.
        rewrite (Nat.div_small (0 + size - 1) size) by lia.
        replace (length (x :: l) + size - 1)%nat
          with ((length (x :: l) - 1) + 1 * size)%nat by (simpl; lia).
        rewrite Nat.div_add by lia.
        rewrite (Nat.div_small (length (x :: l) - 1) size) by lia. done.
Qed.

(** X7.  [split_into_batches] with a positive batch size cuts the list
    into consecutive batches: their concatenation is the list, no batch
    is empty or longer than the batch size, every batch in front of the
    last one is full, and there are [ceil(len / batch_size)] of them.
    A batch size of zero raises [ValueError]; a negative one gives no
    batch at all, whatever the list. *)
Theorem split_into_batches_partition (bp : BatchProcessor)
    (track_uris : list str) :
  (0 < batch_size bp →
   ∃ batches,
     split_into_batches bp track_uris = Ok batches
     ∧ concat batches = track_uris
     ∧ Forall (fun b => (0 < length b)%nat
                        ∧ Z.of_nat (length b) ≤ batch_size bp) batches
     ∧ (∀ i b, batches !! i = Some b → (S i < length batches)%nat →
               Z.of_nat (length b) = batch_size bp)
     ∧ Z.of_nat (length batches)
       = (Z.of_nat (length track_uris) + batch_size bp - 1) / batch_size bp)
  ∧ (batch_size bp = 0 →
     ∃ msg, split_into_batches bp track_uris = Raise (ValueError msg))
  ∧ (batch_size bp < 0 → split_into_batches bp track_uris = Ok []).
Proof.
  unfold split_into_batches. split; [|split].
  - intros Hb.
    assert ((batch_size bp =? 0) = false) as -> by (apply Z.eqb_neq; lia).
    assert ((batch_size bp <? 0) = false) as -> by (apply Z.ltb_ge; lia).
    eexists. split; [done|].
    assert (Hs : (0 < Z.to_nat (batch_size bp))%nat) by lia.
    destruct (chunks_sizes (length track_uris) _ track_uris Hs (le_n _))
      as (Hall & Hfull & Hlen).
    split; [by apply chunks_concat|]. split; [|split].
    + eapply Forall_impl; [exact Hall|]. simpl. intros b Hlb. lia.
    + intros i b Hi Hlt. rewrite (Hfull i b Hi Hlt). lia.
    + rewrite Hlen, Nat2Z.inj_div.
      f_equal; lia.
  - intros ->. simpl. eauto.
  - intros Hb.
    assert ((batch_size bp =? 0) = false) as -> by (apply Z.eqb_neq; lia).
    by assert ((batch_size bp <? 0) = true) as -> by (apply Z.ltb_lt; lia).
Qed.

End BatchSplit.

Lemma split_into_batches_partition_witness :
  ∃ batches,
    split_into_batches {| batch_size := 2; max_retries := 3 |}
      [py "a"; py "b"; py "c"; py "d"; py "e"] = Ok batches
    ∧ concat batches = [py "a"; py "b"; py "c"; py "d"; py "e"]
    ∧ Z.of_nat (length batches) = 3.
Proof.
  destruct (proj1 (split_into_batches_partition
                     {| batch_size := 2; max_retries := 3 |}
                     [py "a"; py "b"; py "c"; py "d"; py "e"]))
    as (batches & H1 & H2 & _ & _ & H5); [simpl; lia|].
  exists batches. split; [exact H1|]. split; [exact H2|]. exact H5.
Defined.

(** ** Normalizer, continued *)

Section NormalizeShape.
Context {U : UnicodeData} {L : UnicodeLaws U}.

Lemma blank_if_loose (v : str) :
  Forall (fun c => is_word c = true ∨ is_space c = true) v →
  Forall (fun c => is_space c = true ∨ plain c)
         (blank_if (fun c => N.eqb c (ch "_")) v).
Proof.
  induction 1 as [|c v Hc Hv IH]; [constructor|].
  simpl. constructor; [|done].
  destruct (N.eqb_spec c (ch "_")) as [->|Hne].
  - left. by destruct space_char.
  - destruct (is_space c) eqn:Es; [by left|]. right.
    destruct Hc as [Hw|Hs]; [|congruence]. by repeat split.
Qed.

(** Whatever the input, the output is tidy. *)
Lemma normalize_string_tidy_always value : tidy (normalize_string value).
Proof.
  unfold normalize_string.
  set (v3 := feat_sub _). set (v4 := strip_parens v3).
  set (v5 := blank_if _ v4). set (v6 := blank_if _ v5).
  assert (H6 : Forall (fun c => is_word c = true ∨ is_space c = true) v6).
  { unfold v6. generalize v5. intros v. induction v as [|c v IH]; [constructor|].
    simpl. constructor; [|done].
    destruct (is_word c) eqn:Ew, (is_space c) eqn:Es; simpl; auto.
    right. by destruct space_char. }
  apply strip_loose.
  apply (collapse_loose (length (blank_if (fun c => N.eqb c (ch "_")) v6)));
    [lia|].
  by apply blank_if_loose.
Qed.

Lemma spaced_app_r (a b : str) : spaced (a ++ b) → spaced b.
Proof.
  induction a as [|c a IH]; [done|]. intros [_ H]. by apply IH.
Qed.

(** X8.  The shape of every normalized string: each character is the
    space or a word character that is neither white space nor the
    underscore; the string neither starts nor ends with a space, and no
    two spaces follow each other. *)
Theorem normalize_string_shape (value : str) :
  Forall (fun c => c = ch " "
                   ∨ (is_word c = true ∧ is_space c = false ∧ c ≠ ch "_"))
         (normalize_string value)
  ∧ head (normalize_string value) ≠ Some (ch " ")
  ∧ last (normalize_string value) ≠ Some (ch " ")
  ∧ (∀ a b, normalize_string value ≠ a ++ [ch " "; ch " "] ++ b).
Proof.
  destruct (normalize_string_tidy_always value) as [Hsp Hhd].
  assert (Hns : ¬ plain (ch " ")).
  { intros (_ & H & _). destruct space_char as [? _]. congruence. }
  split; [|split; [|split]].
  - eapply Forall_impl; [apply spaced_Forall, Hsp|].
    intros c [Hc| ->]; [by right|by left].
  - destruct (normalize_string value) as [|c t]; [done|].
    simpl. intros [= ->]. done.
  - intros Hl. by apply spaced_last in Hl.
  - intros a b E. rewrite E in Hsp. apply spaced_app_r in Hsp.
    destruct Hsp as [[H|[_ (d & r & [= <- _] & Hd)]] _]; done.
Qed.

Lemma strip_diacritics_ascii (s : str) :
  Forall is_ascii s → _strip_diacritics s = s.
Proof.
  unfold _strip_diacritics. induction 1 as [|c s Hc Hs IH]; [done|].
  simpl. rewrite (ascii_nfkd c Hc). simpl.
  rewrite (ascii_combining c Hc). simpl. by rewrite IH.
Qed.

(** X9.  On ASCII text the normalizer does not see the case of letters:
    two ASCII strings that agree once their capitals [A-Z] are made
    small have the same normal form. *)
Theorem normalize_string_ascii_case (s t : str) :
  Forall is_ascii s → Forall is_ascii t →
  map Ascii7.to_lower s = map Ascii7.to_lower t →
  normalize_string s = normalize_string t.
Proof.
  intros Hs Ht E. unfold normalize_string.
  rewrite !strip_diacritics_ascii by done.
  by rewrite !ascii_lower, E by done.
Qed.

End NormalizeShape.

Lemma normalize_string_shape_witness :
  normalize_string (U:=ascii_tables) (py "  Artist_One (feat. B) & [Live]!! ")
  = py "artist one and"
  ∧ head (normalize_string (U:=ascii_tables)
            (py "  Artist_One (feat. B) & [Live]!! ")) ≠ Some (ch " ")
  ∧ last (normalize_string (U:=ascii_tables)
            (py "  Artist_One (feat. B) & [Live]!! ")) ≠ Some (ch " ").
Proof.
  split; [by vm_compute|].
  pose proof (normalize_string_shape (U:=ascii_tables) (L:=ascii_laws)
                (py "  Artist_One (feat. B) & [Live]!! ")) as (_ & H1 & H2 & _).
  by split.
Defined.

Lemma normalize_string_ascii_case_witness :
  normalize_string (U:=ascii_tables) (py "BOHEMIAN Rhapsody")
  = normalize_string (U:=ascii_tables) (py "bohemian rhapsody").
Proof.
  apply (normalize_string_ascii_case (U:=ascii_tables) (L:=ascii_laws)).
  - apply Forall_forall. intros c Hc. unfold is_ascii.
    apply list_elem_of_In in Hc. vm_compute in Hc.
    repeat (destruct Hc as [<-|Hc]; [by vm_compute|]). done.
  - apply Forall_forall. intros c Hc. unfold is_ascii.
    apply list_elem_of_In in Hc. vm_compute in Hc.
    repeat (destruct Hc as [<-|Hc]; [by vm_compute|]). done.
  - by vm_compute.
Defined.

(** ** Match rates and statistics *)

Section StatisticsFacts.

Lemma count_if_bounds {A} (p : A → bool) (l : list A) :
  0 ≤ count_if p l ≤ Z.of_nat (length l).
Proof.
  unfold count_if. split; [lia|].
  apply inj_le. induction l as [|x l IH]; simpl; [lia|].
  destruct (p x); simpl; lia.
Qed.

Lemma count_if_zero {A} (p : A → bool) (l : list A) :
  count_if p l = 0 ↔ Forall (fun x => p x = false) l.
Proof.
  unfold count_if. induction l as [|x l IH]; simpl.
  - split; [constructor|done].
  - destruct (p x) eqn:E; simpl.
    + split; [lia|]. intros H. apply Forall_cons in H as [? _]. congruence.
    + rewrite IH. split; [by constructor|]. by intros [_ ?]%Forall_cons.
Qed.

Lemma count_if_all {A} (p : A → bool) (l : list A) :
  count_if p l = Z.of_nat (length l) ↔ Forall (fun x => p x = true) l.
Proof.
  unfold count_if. induction l as [|x l IH]; simpl.
  - split; [constructor|done].
  - pose proof (count_if_bounds p l) as Hb. unfold count_if in Hb.
    destruct (p x) eqn:E; simpl.
    + split.
      * intros H. constructor; [done|]. apply IH. lia.
      * intros [_ H]%Forall_cons. apply IH in H. lia.
    + split; [lia|]. intros [? _]%Forall_cons. congruence.
Qed.

(** X10.  [calculate_match_rate] is the share of results with a URI: it
    lies between 0 and 1, is 0 exactly when no result has a URI (so for
    the empty list), and is 1 exactly when the list is not empty and
    every result has one. *)
Theorem calculate_match_rate_bounds (results : list MatchResult) :
  (0 <= calculate_match_rate results)%Q
  ∧ (calculate_match_rate results <= 1)%Q
  ∧ ((calculate_match_rate results == 0)%Q
     ↔ Forall (fun r => uri r = None) results)
  ∧ ((calculate_match_rate results == 1)%Q
     ↔ results ≠ [] ∧ Forall (fun r => uri r ≠ None) results).
Proof.
  assert (Hm : ∀ r, is_matched r = false ↔ uri r = None).
  { intros r. unfold is_matched. by destruct (uri r). }
  assert (Hm' : ∀ r, is_matched r = true ↔ uri r ≠ None).
  { intros r. unfold is_matched. by destruct (uri r). }
  destruct results as [|r rs].
  { simpl. repeat split; try done. by intros [? _]. }
  unfold calculate_match_rate.
  pose proof (count_if_bounds is_matched (r :: rs)) as Hb.
  pose proof (count_if_zero is_matched (r :: rs)) as Hz.
  pose proof (count_if_all is_matched (r :: rs)) as Ha.
  assert (Hz' : count_if is_matched (r :: rs) = 0
                ↔ Forall (fun r => uri r = None) (r :: rs)).
  { rewrite Hz. split; intros H; (eapply Forall_impl; [exact H|]);
      intros x; apply Hm. }
  assert (Hm'' : count_if is_matched (r :: rs) = Z.of_nat (length (r :: rs))
                 ↔ r :: rs ≠ [] ∧ Forall (fun r => uri r ≠ None) (r :: rs)).
  { rewrite Ha. split.
    - intros H. split; [done|]. eapply Forall_impl; [exact H|].
      intros x. apply Hm'.
    - intros [_ H]. eapply Forall_impl; [exact H|]. intros x. apply Hm'. }
  clear Hz Ha. rename Hz' into Hz.
  revert Hb Hz Hm''. generalize (count_if is_matched (r :: rs)).
  intros n Hb Hz Hm''.
  set (d := Pos.of_nat (length (r :: rs))).
  assert (Hlen : Z.pos d = Z.of_nat (length (r :: rs))).
  { unfold d. simpl length. lia. }
  clearbody d. unfold Qle, Qeq. cbn [Qnum Qden].
  split; [lia|]. split; [lia|]. split.
  - rewrite <- Hz. lia.
  - rewrite <- Hm'' . lia.
Qed.

Lemma dict_get_set d k v k' default :
  dict_get (dict_set d k v) k' default
  = if str_eqb k k' then v else dict_get d k' default.
Proof.
  unfold str_eqb. induction d as [|[k0 v0] d IH]; simpl.
  - unfold str_eqb. by repeat case_bool_decide.
  - unfold str_eqb in *. repeat (case_bool_decide; simpl); subst;
      try congruence; unfold str_eqb; repeat case_bool_decide; try congruence.
Qed.

Lemma dict_set_keys d k v :
  map fst (dict_set d k v)
  = if bool_decide (k ∈ map fst d) then map fst d else map fst d ++ [k].
Proof.
  induction d as [|[k0 v0] d IH]; simpl; [done|].
  unfold str_eqb. destruct (decide (k0 = k)) as [->|Hne].
  - rewrite (bool_decide_eq_true_2 (k = k)) by done.
    rewrite (bool_decide_eq_true_2 (k ∈ k :: map fst d))
      by (apply elem_of_cons; by left).
    done.
  - rewrite (bool_decide_eq_false_2 (k0 = k)) by done. simpl. rewrite IH.
    destruct (decide (k ∈ map fst d)) as [Hin|Hin].
    + rewrite (bool_decide_eq_true_2 (k ∈ map fst d)) by done.
      rewrite (bool_decide_eq_true_2 (k ∈ k0 :: map fst d))
        by (apply elem_of_cons; by right).
      done.
    + rewrite (bool_decide_eq_false_2 (k ∈ map fst d)) by done.
      rewrite (bool_decide_eq_false_2 (k ∈ k0 :: map fst d)); [done|].
      intros [?|?]%elem_of_cons; congruence.
Qed.

Lemma dict_set_total d k :
  NoDup (map fst d) →
  dict_total (dict_set d k (dict_get d k 0 + 1)) = dict_total d + 1.
Proof.
  induction d as [|[k0 v0] d IH]; simpl; [lia|].
  intros [Hk0 Hd]%NoDup_cons. unfold str_eqb. case_bool_decide; simpl.
  - lia.
  - unfold dict_total in *. simpl. rewrite IH by done. lia.
Qed.

Lemma count_reason_fold results : ∀ d,
  NoDup (map fst d) →
  let d' := fold_left count_reason results d in
  NoDup (map fst d')
  ∧ dict_total d' = dict_total d + Z.of_nat (length results)
  ∧ (∀ name, dict_get d' name 0
             = dict_get d name 0 + count_if (reason_is name) results)
  ∧ (∀ name, name ∈ map fst d'
             ↔ name ∈ map fst d ∨ ∃ r, r ∈ results ∧ reason r = name).
Proof.
  induction results as [|r rs IH]; intros d Hd.
  { simpl. split; [done|]. split; [lia|]. split.
    - intros name. unfold count_if. simpl. lia.
    - intros name. split; [by left|]. intros [?|(? & ?%elem_of_nil & _)]; done. }
  simpl fold_left.
  assert (Hd1 : NoDup (map fst (count_reason d r))).
  { unfold count_reason. rewrite dict_set_keys.
    destruct (decide (reason r ∈ map fst d)) as [Hin|Hin].
    - by rewrite bool_decide_eq_true_2 by done.
    - rewrite bool_decide_eq_false_2 by done.
      apply NoDup_app. split; [done|]. split; [|apply NoDup_singleton].
      intros x Hx ->%list_elem_of_singleton. done. }
  destruct (IH _ Hd1) as (H1 & H2 & H3 & H4).
  split; [exact H1|]. split; [|split].
  - rewrite H2. unfold count_reason. rewrite dict_set_total by done.
    simpl length. lia.
  - intros name. rewrite H3. unfold count_reason. rewrite dict_get_set.
    unfold count_if, reason_is. simpl. unfold str_eqb.
    case_bool_decide as E; simpl.
    + rewrite E. lia.
    + lia.
  - intros name. rewrite H4. unfold count_reason. rewrite dict_set_keys.
    destruct (decide (reason r ∈ map fst d)) as [Hin|Hin].
    + rewrite bool_decide_eq_true_2 by done.
      setoid_rewrite elem_of_cons. naive_solver.
    + rewrite bool_decide_eq_false_2 by done.
      rewrite elem_of_app, list_elem_of_singleton.
      setoid_rewrite elem_of_cons. naive_solver.
Qed.

(** X11.  The statistics of [get_match_statistics] agree with each other
    and with the list: [total] is its length; [by_reason] has one entry
    for each reason that occurs and no other, its value the number of
    results with that reason, so the values add up to [total];
    [not_found] and [ambiguous] are the entries of those two reasons (0
    when they do not occur); [matched] lies between 0 and [total]; and
    [match_rate] is what [calculate_match_rate] returns.  The empty list
    gives zeros and an empty dictionary without a division. *)
Theorem get_match_statistics_consistent (results : list MatchResult) :
  let st := get_match_statistics results in
  stat_total st = Z.of_nat (length results)
  ∧ NoDup (map fst (stat_by_reason st))
  ∧ (∀ name, name ∈ map fst (stat_by_reason st)
             ↔ ∃ r, r ∈ results ∧ reason r = name)
  ∧ (∀ name, dict_get (stat_by_reason st) name 0
             = count_if (reason_is name) results)
  ∧ dict_total (stat_by_reason st) = stat_total st
  ∧ stat_not_found st = dict_get (stat_by_reason st) (py "not_found") 0
  ∧ stat_ambiguous st = dict_get (stat_by_reason st) (py "ambiguous") 0
  ∧ 0 ≤ stat_matched st ≤ stat_total st
  ∧ stat_match_rate st = calculate_match_rate results.
Proof.
  destruct results as [|r rs].
  { simpl. repeat split; try done.
    - constructor.
    - by intros ?%elem_of_nil.
    - by intros (? & ?%elem_of_nil & _). }
  unfold get_match_statistics.
  assert ((Z.of_nat (length (r :: rs)) =? 0) = false) as ->
    by (apply Z.eqb_neq; simpl; lia).
  cbv zeta. cbn [stat_total stat_by_reason stat_not_found stat_ambiguous
                 stat_matched stat_match_rate].
  destruct (count_reason_fold (r :: rs) [] (NoDup_nil_2 (A:=str)))
    as (H1 & H2 & H3 & H4).
  split; [done|]. split; [exact H1|]. split; [|split; [|split; [|split; [|split]]]].
  - intros name. rewrite H4. split; [|by right].
    by intros [?%elem_of_nil|?].
  - intros name. rewrite H3. simpl. lia.
  - rewrite H2. simpl. lia.
  - rewrite H3. simpl. reflexivity.
  - rewrite H3. simpl. reflexivity.
  - split; [apply count_if_bounds|done].
Qed.

End StatisticsFacts.

(** ** The order of confidences *)

Section FloatOrder.

Lemma SFltb_key x y :
  is_nan x = false → is_nan y = false →
  SFltb x y = true ↔ key_lt (float_key x) (float_key y).
Proof.
  intros Hx Hy. unfold SFltb, SFcompare, key_lt.
  destruct x as [[]|[]| |[] m1 e1], y as [[]|[]| |[] m2 e2]; try done;
    simpl; try (split; [intros _; lia|by intros _]);
    try (split; [done|lia]).
  - destruct (Z.compare_spec e1 e2) as [->|He|He].
    + change (Pos.compare_cont Eq m1 m2) with (Pos.compare m1 m2).
      destruct (Pos.compare_spec m1 m2) as [->|Hm|Hm]; simpl;
        (split; [try done; intros _; lia|try done; lia]).
    + split; [done|lia].
    + split; [intros _; lia|done].
  - destruct (Z.compare_spec e1 e2) as [->|He|He].
    + change (Pos.compare_cont Eq m1 m2) with (Pos.compare m1 m2).
      destruct (Pos.compare_spec m1 m2) as [->|Hm|Hm]; simpl;
        (split; [try done; intros _; lia|try done; lia]).
    + split; [intros _; lia|done].
    + split; [done|lia].
Qed.

Lemma SFltb_nan_l x y : is_nan x = true → SFltb x y = false.
Proof. by destruct x. Qed.

Lemma SFltb_nan_r x y : is_nan y = true → SFltb x y = false.
Proof. by destruct y, x as [| | |[] ? ?]. Qed.

Lemma SFltb_asym x y : SFltb x y = true → SFltb y x = false.
Proof.
  intros H.
  destruct (is_nan x) eqn:Ex; [by rewrite SFltb_nan_l in H|].
  destruct (is_nan y) eqn:Ey; [by rewrite SFltb_nan_r in H|].
  apply (SFltb_key x y Ex Ey) in H.
  apply not_true_iff_false. intros H'. apply (SFltb_key y x Ey Ex) in H'.
  unfold key_lt in *. lia.
Qed.

Lemma SFltb_neg_trans x y z :
  is_nan x = false → is_nan y = false → is_nan z = false →
  SFltb x y = false → SFltb y z = false → SFltb x z = false.
Proof.
  intros Ex Ey Ez H1 H2.
  apply not_true_iff_false in H1, H2. apply not_true_iff_false.
  rewrite SFltb_key in H1, H2 |- * by done.
  unfold key_lt in *. lia.
Qed.

End FloatOrder.

(** ** Selection *)

Section FirstMax.
Context {A : Type} (lt : A → A → bool) (ok : A → Prop).
Hypothesis lt_asym : ∀ x y, lt x y = true → lt y x = false.
Hypothesis lt_neg_trans : ∀ x y z, ok x → ok y → ok z →
  lt x y = false → lt y z = false → lt x z = false.

Lemma sort_insert_last x S :
  Forall (fun y => lt x y = false) S → sort_insert lt x S = S ++ [x].
Proof.
  induction 1 as [|y S Hy HS IH]; simpl; [done|]. by rewrite Hy, IH.
Qed.

Lemma sort_insert_keeps_last x S m :
  lt x m = true → ∃ S', sort_insert lt x (S ++ [m]) = S' ++ [m].
Proof.
  intros H. induction S as [|y S IH]; simpl.
  - rewrite H. by exists [x].
  - destruct (lt x y).
    + by exists (x :: y :: S).
    + destruct IH as [S' ->]. by exists (y :: S').
Qed.

Lemma py_sorted_rev_cons x l :
  py_sorted lt (rev (x :: l)) = sort_insert lt x (py_sorted lt (rev l)).
Proof. unfold py_sorted. simpl. by rewrite fold_left_app. Qed.

(** The last element of the sorted reversed list, which [reverse=True]
    puts in front: the first of the greatest elements. *)
Lemma first_max c0 l :
  Forall ok (c0 :: l) →
  ∃ before sel after S',
    c0 :: l = before ++ sel :: after
    ∧ py_sorted lt (rev (c0 :: l)) = S' ++ [sel]
    ∧ Forall (fun c => lt c sel = true) before
    ∧ Forall (fun c => lt sel c = false) after.
Proof.
  revert c0. induction l as [|c1 l IH]; intros c0 Hok.
  - exists [], c0, [], []. by repeat split.
  - apply Forall_cons in Hok as [Hc0 Hok].
    destruct (IH c1 Hok) as (before & sel & after & S' & Hl & HS & Hb & Ha).
    rewrite py_sorted_rev_cons, HS.
    assert (Hsel : ok sel).
    { rewrite Hl in Hok. apply Forall_app in Hok as [_ Hok].
      by apply Forall_cons in Hok as [? _]. }
    assert (Hmax : Forall (fun y => lt sel y = false) (c1 :: l)).
    { rewrite Hl. apply Forall_app. split.
      - eapply Forall_impl; [exact Hb|]. intros y. apply lt_asym.
      - constructor; [|done].
        destruct (lt sel sel) eqn:E; [|done]. by rewrite (lt_asym _ _ E) in E. }
    destruct (lt c0 sel) eqn:E.
    + destruct (sort_insert_keeps_last c0 S' sel E) as [S'' ->].
      exists (c0 :: before), sel, after, S''. rewrite Hl.
      split; [done|]. split; [done|]. split; [by constructor|done].
    + assert (Hall : Forall (fun y => lt c0 y = false) (c1 :: l)).
      { rewrite Forall_forall in Hmax, Hok |- *. intros y Hy.
        apply (lt_neg_trans c0 sel y); auto. }
      exists [], c0, (c1 :: l), (S' ++ [sel]).
      split; [done|]. split; [|by split].
      apply sort_insert_last. rewrite <- HS.
      eapply Forall_forall. intros y Hy. rewrite Forall_forall in Hall.
      apply Hall. by rewrite (py_sorted_perm lt), <- Permutation_rev in Hy.
Qed.

Lemma hd_py_sorted_reverse_first_max c0 l :
  Forall ok (c0 :: l) →
  ∃ before after,
    c0 :: l = before ++ hd c0 (py_sorted_reverse lt (c0 :: l)) :: after
    ∧ Forall (fun c => lt c (hd c0 (py_sorted_reverse lt (c0 :: l))) = true)
             before
    ∧ Forall (fun c => lt (hd c0 (py_sorted_reverse lt (c0 :: l))) c = false)
             after.
Proof.
  intros Hok.
  destruct (first_max c0 l Hok) as (before & sel & after & S' & Hl & HS & Hb & Ha).
  unfold py_sorted_reverse. rewrite HS, rev_app_distr. simpl.
  by exists before, after.
Qed.

End FirstMax.

Section SelectionFacts.
Context {U : UnicodeData}.

Lemma List_filter_nil {A} (p : A → bool) (l : list A) :
  Forall (fun x => p x = false) l → List.filter p l = [].
Proof. induction 1 as [|x l Hx Hl IH]; simpl; [done|]. by rewrite Hx. Qed.

Lemma elem_of_List_filter {A} (p : A → bool) (l : list A) x :
  x ∈ List.filter p l ↔ x ∈ l ∧ p x = true.
Proof. by rewrite !list_elem_of_In, filter_In. Qed.

(** The metadata rules select nothing when the source track has no title
    or no artist, or when no candidate shares an artist token with it. *)
Lemma metadata_selection_none src cands :
  nonempty (title src) = false ∨ artists src = []
  ∨ Forall (fun c => artist_overlap_ok (_tokenize_artist_names (artists src))
                       (cand_artists c) = false) cands →
  metadata_selection src cands = None.
Proof.
  unfold metadata_selection. intros H.
  destruct cands as [|c0 rest]; [done|].
  destruct (nonempty (title src)) eqn:Et; [|done].
  destruct (artists src) as [|a0 rest_a] eqn:Ea; [done|].
  destruct H as [?|[?|H]]; [done|done|].
  rewrite (List_filter_nil _ (c0 :: rest)).
  2:{ eapply Forall_impl; [exact H|]. intros c Hc. cbv beta in Hc |- *.
      by rewrite Hc, andb_false_r. }
  rewrite (List_filter_nil _ (c0 :: rest)) by exact H.
  by destruct (truthy (album src)).
Qed.

(** X13.  The fallback of [find_best_match].  When the source track
    has no title or no artist, or no candidate shares an artist token with
    it, and no confidence is NaN, the candidate that is put to the risk
    gate is the first candidate of the list with the highest confidence:
    every candidate in front of it has a lower confidence and none behind
    it has a higher one.  The answer is [not_found] if that confidence is
    below the floor of the risk mode, and that candidate's URI,
    confidence and reason otherwise. *)
Theorem fallback_selects_first_highest (m : TrackMatcher) (env : option str)
    (src : Track) (c0 : Candidate) (rest : list Candidate) :
  nonempty (title src) = false ∨ artists src = []
  ∨ Forall (fun c => artist_overlap_ok (_tokenize_artist_names (artists src))
                       (cand_artists c) = false) (c0 :: rest) →
  Forall (fun c => is_nan (cand_confidence c) = false) (c0 :: rest) →
  ∃ before sel after,
    c0 :: rest = before ++ sel :: after
    ∧ Forall (fun c => SFltb (cand_confidence c) (cand_confidence sel) = true)
             before
    ∧ Forall (fun c => SFltb (cand_confidence sel) (cand_confidence c) = false)
             after
    ∧ find_best_match m env src (c0 :: rest)
      = if SFltb (cand_confidence sel) (min_conf m env)
        then not_found_result
        else result_of_candidate sel.
Proof.
  intros Hmeta Hok.
  destruct (hd_py_sorted_reverse_first_max confidence_lt
              (fun c => is_nan (cand_confidence c) = false)) with (c0 := c0) (l := rest)
    as (before & after & Hl & Hb & Ha).
  - intros x y. apply SFltb_asym.
  - intros x y z. apply SFltb_neg_trans.
  - exact Hok.
  - exists before, (hd c0 (py_sorted_reverse confidence_lt (c0 :: rest))), after.
    split; [exact Hl|]. split; [exact Hb|]. split; [exact Ha|].
    rewrite find_best_match_cons. unfold selected_candidate.
    by rewrite (metadata_selection_none src (c0 :: rest) Hmeta).
Qed.

Lemma pool_key_lt_asym x y : pool_key_lt x y = true → pool_key_lt y x = false.
Proof.
  unfold pool_key_lt. rewrite (Z.eqb_sym (rank_key y)).
  destruct (rank_key x =? rank_key y) eqn:E.
  - destruct (SFeqb _ _); [done|]. intros H. apply SFltb_asym in H.
    rewrite H. by destruct (SFeqb _ _).
  - intros H. apply Z.ltb_lt in H. apply Z.ltb_ge. lia.
Qed.

Lemma pool_key_le_rank x y :
  le_of pool_key_lt x y → rank_key x ≤ rank_key y.
Proof.
  unfold le_of, pool_key_lt.
  destruct (rank_key y =? rank_key x) eqn:E.
  - apply Z.eqb_eq in E. lia.
  - intros H. apply Z.ltb_ge in H. lia.
Qed.

Lemma Sorted_rank (S : list Candidate) :
  Sorted (le_of pool_key_lt) S →
  StronglySorted (fun x y => rank_key x ≤ rank_key y) S.
Proof.
  intros HS. apply Sorted_StronglySorted.
  - intros x y z. lia.
  - induction HS as [|x S HS IH Hhd]; constructor; [done|].
    destruct Hhd; constructor. by apply pool_key_le_rank.
Qed.

Lemma hd_py_sorted_min_rank p0 pool c :
  c ∈ p0 :: pool →
  rank_key (hd p0 (py_sorted pool_key_lt (p0 :: pool))) ≤ rank_key c.
Proof.
  intros Hc.
  pose proof (py_sorted_is_sorted pool_key_lt pool_key_lt_asym (p0 :: pool)) as HS.
  apply Sorted_rank in HS.
  rewrite <- (py_sorted_perm pool_key_lt) in Hc.
  destruct (py_sorted pool_key_lt (p0 :: pool)) as [|s0 S]; [by apply elem_of_nil in Hc|].
  simpl. apply StronglySorted_inv in HS as [_ HS].
  apply elem_of_cons in Hc as [->|Hc]; [lia|].
  rewrite Forall_forall in HS. by apply HS.
Qed.

(** The metadata rules, step by step. *)
Lemma metadata_selection_unfold src cands ov ti al full_text pool1 pool2 :
  cands ≠ [] → nonempty (title src) = true → artists src ≠ [] →
  ov = (fun c => artist_overlap_ok (_tokenize_artist_names (artists src))
                   (cand_artists c)) →
  ti = (fun c => str_eqb (normalize_string (or_empty (cand_title c)))
                   (normalize_string (title src))) →
  al = (fun c => str_eqb (normalize_album (cand_album c))
                   (normalize_album (album src))) →
  full_text = List.filter (fun c => ti c && ov c) cands →
  pool1 = match full_text with
          | _ :: _ => full_text
          | [] => List.filter (fun c => ov c) cands
          end →
  pool2 = (if truthy (album src) then
             match List.filter (fun c => al c) pool1 with
             | _ :: _ => List.filter (fun c => al c) pool1
             | [] => pool1
             end
           else pool1) →
  metadata_selection src cands
  = match pool2 with
    | p0 :: _ => Some (hd p0 (py_sorted pool_key_lt pool2))
    | [] => None
    end.
Proof.
  intros Hc Ht Ha -> -> -> -> -> ->. unfold metadata_selection.
  destruct cands as [|c0 rest]; [done|]. rewrite Ht.
  destruct (artists src) as [|a0 rest_a]; [done|]. reflexivity.
Qed.

(** The pool from which the metadata rules take their candidate. *)
Lemma metadata_selection_pool src cands :
  nonempty (title src) = true → artists src ≠ [] →
  let ov c := artist_overlap_ok (_tokenize_artist_names (artists src))
                (cand_artists c) in
  let ti c := str_eqb (normalize_string (or_empty (cand_title c)))
                (normalize_string (title src)) in
  let al c := str_eqb (normalize_album (cand_album c))
                (normalize_album (album src)) in
  (∃ c, c ∈ cands ∧ ov c = true) →
  ∃ p0 pool,
    metadata_selection src cands
    = Some (hd p0 (py_sorted pool_key_lt (p0 :: pool)))
    ∧ ∀ x, x ∈ p0 :: pool ↔
           x ∈ cands ∧ ov x = true
           ∧ ((∃ c, c ∈ cands ∧ ov c = true ∧ ti c = true) → ti x = true)
           ∧ (truthy (album src) = true →
              (∃ c, c ∈ cands ∧ ov c = true
                    ∧ ((∃ c', c' ∈ cands ∧ ov c' = true ∧ ti c' = true) →
                       ti c = true)
                    ∧ al c = true) →
              al x = true).
Proof.
  intros Ht Ha ov ti al (cw & Hcw & Hov).
  pose (full_text := List.filter (fun c => ti c && ov c) cands).
  pose (pool1 := match full_text with
                 | _ :: _ => full_text
                 | [] => List.filter (fun c => ov c) cands
                 end).
  pose (pool2 :=
          if truthy (album src) then
            match List.filter (fun c => al c) pool1 with
            | _ :: _ => List.filter (fun c => al c) pool1
            | [] => pool1
            end
          else pool1).
  assert (Hne : cands ≠ []) by (intros ->; by apply elem_of_nil in Hcw).
  rewrite (metadata_selection_unfold src cands ov ti al full_text pool1 pool2
             Hne Ht Ha eq_refl eq_refl eq_refl eq_refl eq_refl eq_refl).
  assert (H1 : ∀ x, x ∈ pool1 ↔
                    x ∈ cands ∧ ov x = true
                    ∧ ((∃ c, c ∈ cands ∧ ov c = true ∧ ti c = true) →
                       ti x = true)).
  { intros x. unfold pool1. destruct full_text as [|f0 fs] eqn:Ef.
    - rewrite elem_of_List_filter. split; [|naive_solver].
      intros [Hx Hox]. split; [done|]. split; [done|].
      intros (c & Hc & Hoc & Htc).
      assert (c ∈ full_text) as Hin.
      { apply elem_of_List_filter. by rewrite Htc, Hoc. }
      rewrite Ef in Hin. by apply elem_of_nil in Hin.
    - rewrite <- Ef. unfold full_text. rewrite elem_of_List_filter.
      rewrite andb_true_iff. split; [by intros (? & ? & ?)|].
      intros (Hx & Hox & Htx). split; [done|]. split; [|done].
      apply Htx. exists f0.
      assert (f0 ∈ full_text) as Hin by (rewrite Ef; apply elem_of_cons; by left).
      apply elem_of_List_filter in Hin as [? [? ?]%andb_true_iff]. done. }
  assert (H2 : ∀ x, x ∈ pool2 ↔
                    x ∈ pool1
                    ∧ (truthy (album src) = true →
                       (∃ c, c ∈ pool1 ∧ al c = true) → al x = true)).
  { intros x. unfold pool2. destruct (truthy (album src)); [|naive_solver].
    destruct (List.filter (fun c => al c) pool1) as [|f0 fs] eqn:Ef.
    - split; [|naive_solver]. intros Hx. split; [done|].
      intros _ (c & Hc & Hac).
      assert (c ∈ List.filter (fun c => al c) pool1) as Hin
        by by apply elem_of_List_filter.
      rewrite Ef in Hin. by apply elem_of_nil in Hin.
    - rewrite <- Ef, elem_of_List_filter. split; [naive_solver|].
      intros [Hx Hal]. split; [done|]. apply Hal; [done|]. exists f0.
      assert (f0 ∈ List.filter (fun c => al c) pool1) as Hin
        by (rewrite Ef; apply elem_of_cons; by left).
      by apply elem_of_List_filter in Hin. }
  assert (Hne1 : ∃ x, x ∈ pool1).
  { unfold pool1. destruct full_text as [|f0 fs] eqn:Ef.
    - exists cw. by apply elem_of_List_filter.
    - exists f0. apply elem_of_cons. by left. }
  assert (Hne2 : ∃ x, x ∈ pool2).
  { unfold pool2. destruct (truthy (album src)); [|done].
    destruct (List.filter (fun c => al c) pool1) as [|f0 fs] eqn:Ef; [done|].
    exists f0. apply elem_of_cons. by left. }
  clearbody pool2.
  destruct pool2 as [|p0 pool]; [destruct Hne2 as [x Hx]; by apply elem_of_nil in Hx|].
  exists p0, pool. split; [done|].
  intros x. rewrite H2, H1. split.
  - intros ((Hx & Hox & Htx) & Hal). repeat split; try done.
    intros Halb (c & Hc & Hoc & Htc & Hac). apply Hal; [done|].
    exists c. split; [|done]. apply H1. done.
  - intros (Hx & Hox & Htx & Hal). split; [done|].
    intros Halb (c & Hc & Hac). apply Hal; [done|].
    apply H1 in Hc as (? & ? & ?). by exists c.
Qed.

(** X14.  The metadata rules of [find_best_match].  For a source track
    with a title and artists, when some candidate shares an artist token
    with it, the candidate put to the risk gate is one that shares an
    artist token; it has the source's normalized title if any such
    candidate has; it has the source's normalized album if the source has
    an album and any candidate that qualified so far has it; and among
    the candidates that qualify as well as it does it has the lowest
    rank (a missing rank counts as [10^9]). *)
Theorem metadata_selection_prefers (m : TrackMatcher) (env : option str)
    (src : Track) (c0 : Candidate) (rest : list Candidate) :
  nonempty (title src) = true → artists src ≠ [] →
  let ov c := artist_overlap_ok (_tokenize_artist_names (artists src))
                (cand_artists c) in
  let ti c := str_eqb (normalize_string (or_empty (cand_title c)))
                (normalize_string (title src)) in
  let al c := str_eqb (normalize_album (cand_album c))
                (normalize_album (album src)) in
  let sel := selected_candidate src c0 rest in
  (∃ c, c ∈ c0 :: rest ∧ ov c = true) →
  sel ∈ c0 :: rest
  ∧ ov sel = true
  ∧ ((∃ c, c ∈ c0 :: rest ∧ ov c = true ∧ ti c = true) → ti sel = true)
  ∧ (truthy (album src) = true →
     (∃ c, c ∈ c0 :: rest ∧ ov c = true
           ∧ ((∃ c', c' ∈ c0 :: rest ∧ ov c' = true ∧ ti c' = true) →
              ti c = true)
           ∧ al c = true) →
     al sel = true)
  ∧ (∀ c, c ∈ c0 :: rest → ov c = true →
          (ti sel = true → ti c = true) →
          (truthy (album src) = true → al sel = true → al c = true) →
          rank_key sel ≤ rank_key c)
  ∧ find_best_match m env src (c0 :: rest)
    = if SFltb (cand_confidence sel) (min_conf m env)
      then not_found_result
      else result_of_candidate sel.
Proof.
  intros Ht Ha ov ti al sel Hex.
  destruct (metadata_selection_pool src (c0 :: rest) Ht Ha Hex)
    as (p0 & pool & Hms & Hpool).
  assert (Hsel : sel = hd p0 (py_sorted pool_key_lt (p0 :: pool))).
  { unfold sel, selected_candidate. by rewrite Hms. }
  assert (Hin : sel ∈ p0 :: pool).
  { rewrite Hsel. apply hd_py_sorted_elem. }
  pose proof (proj1 (Hpool sel) Hin) as (H1 & H2 & H3 & H4).
  split; [exact H1|]. split; [exact H2|]. split; [exact H3|].
  split; [exact H4|]. split; [|apply find_best_match_cons].
  intros c Hc Hoc Htc Hac. rewrite Hsel. apply hd_py_sorted_min_rank.
  apply Hpool. split; [done|]. split; [done|]. split.
  - intros Hft. apply Htc, H3, Hft.
  - intros Halb Ham. apply Hac; [done|]. by apply H4.
Qed.

End SelectionFacts.

Lemma fallback_selects_first_highest_witness :
  ∃ before sel after,
    [Sample.candidate "a" Sample.f0_5 "fuzzy_match";
     Sample.candidate "b" Sample.f0_9 "fuzzy_match";
     Sample.candidate "c" Sample.f0_9 "fuzzy_match"]
    = before ++ sel :: after
    ∧ Forall (fun c => SFltb (cand_confidence c) (cand_confidence sel) = true)
             before
    ∧ Forall (fun c => SFltb (cand_confidence sel) (cand_confidence c) = false)
             after
    ∧ find_best_match (U:=ascii_tables) default_matcher None
        (Sample.track "" ["Queen"] None)
        [Sample.candidate "a" Sample.f0_5 "fuzzy_match";
         Sample.candidate "b" Sample.f0_9 "fuzzy_match";
         Sample.candidate "c" Sample.f0_9 "fuzzy_match"]
      = if SFltb (cand_confidence sel) (min_conf default_matcher None)
        then not_found_result
        else result_of_candidate sel.
Proof.
  apply (fallback_selects_first_highest (U:=ascii_tables) default_matcher None
           (Sample.track "" ["Queen"] None)).
  - left. reflexivity.
  - repeat constructor.
Defined.

Lemma metadata_selection_prefers_witness :
  let src := Sample.track "Bohemian Rhapsody" ["Queen"] None in
  let a :=
    {| cand_uri := Some (py "a"); cand_confidence := Sample.f0_9;
       cand_reason := py "fuzzy_match"; cand_title := Some (py "Bohemian Rhapsody");
       cand_artists := Some [py "Queen"]; cand_album := None;
       cand_duration_ms := None; cand_rank := Some 2;
       cand_album_type := None |} in
  let b :=
    {| cand_uri := Some (py "b"); cand_confidence := Float.one;
       cand_reason := py "fuzzy_match"; cand_title := Some (py "We Will Rock You");
       cand_artists := Some [py "Queen"]; cand_album := None;
       cand_duration_ms := None; cand_rank := Some 1;
       cand_album_type := None |} in
  selected_candidate (U:=ascii_tables) src b [a] ∈ [b; a]
  ∧ str_eqb (normalize_string (U:=ascii_tables)
               (or_empty (cand_title (selected_candidate src b [a]))))
            (normalize_string (title src)) = true.
Proof.
  intros src a b.
  destruct (metadata_selection_prefers (U:=ascii_tables) default_matcher None
              src b [a]) as (H1 & _ & H3 & _).
  - reflexivity.
  - discriminate.
  - exists a. split; [apply elem_of_cons; right; apply elem_of_cons; by left|].
    by vm_compute.
  - split; [exact H1|]. apply H3. exists a.
    split; [apply elem_of_cons; right; apply elem_of_cons; by left|].
    split; by vm_compute.
Defined.

(** ** In-memory checkpoint storage *)

Section CheckpointStorageFacts.
Import CheckpointStorage.

Lemma update_existing_none l cp :
  update_existing l cp = None
  ↔ Forall (fun c => batch_index c ≠ batch_index cp) l.
Proof.
  induction l as [|c l IH]; simpl; [by split; [constructor|]|].
  destruct (Z.eqb_spec (batch_index c) (batch_index cp)) as [E|E].
  - split; [done|]. by intros [? _]%Forall_cons.
  - destruct (update_existing l cp) eqn:Eu; simpl.
    + split; [done|]. intros [_ H]%Forall_cons. by apply IH in H.
    + split; [|done]. intros _. constructor; [done|]. by apply IH.
Qed.

(** An update changes one checkpoint: the first with the batch index. *)
Lemma update_existing_some l cp l' :
  update_existing l cp = Some l' →
  ∃ a c b,
    l = a ++ c :: b
    ∧ l' = a ++ {| job_id := job_id c; playlist_id := playlist_id c;
                   batch_index := batch_index c;
                   added_uris := added_uris cp;
                   updated_at := updated_at cp |} :: b
    ∧ batch_index c = batch_index cp
    ∧ Forall (fun c' => batch_index c' ≠ batch_index cp) a.
Proof.
  revert l'. induction l as [|c l IH]; intros l'; simpl; [done|].
  destruct (Z.eqb_spec (batch_index c) (batch_index cp)) as [E|E].
  - intros [= <-]. exists [], c, l. by repeat split.
  - destruct (update_existing l cp) as [l0|] eqn:Eu; simpl; [|done].
    intros [= <-]. destruct (IH l0 eq_refl) as (a & c1 & b & -> & -> & Hc & Ha).
    exists (c :: a), c1, b. repeat split; try done. by constructor.
Qed.

Lemma lookup_save st cp :
  save_checkpoint st cp
    !! _get_key (job_id cp) (playlist_id cp)
  = Some (match update_existing
                  (default [] (st !! _get_key (job_id cp) (playlist_id cp))) cp with
          | Some l' => l'
          | None => default [] (st !! _get_key (job_id cp) (playlist_id cp)) ++ [cp]
          end).
Proof.
  unfold save_checkpoint. cbv zeta.
  destruct (update_existing _ cp); by rewrite lookup_insert_eq.
Qed.

Lemma lookup_save_default st cp :
  default [] (save_checkpoint st cp !! _get_key (job_id cp) (playlist_id cp))
  = match update_existing
            (default [] (st !! _get_key (job_id cp) (playlist_id cp))) cp with
    | Some l' => l'
    | None => default [] (st !! _get_key (job_id cp) (playlist_id cp)) ++ [cp]
    end.
Proof. by rewrite lookup_save. Qed.

Lemma lookup_save_ne st cp key :
  key ≠ _get_key (job_id cp) (playlist_id cp) →
  save_checkpoint st cp !! key = st !! key.
Proof.
  intros Hne. unfold save_checkpoint. cbv zeta.
  destruct (update_existing _ cp); by rewrite lookup_insert_ne.
Qed.

Lemma save_well_kept st cp : well_kept st → well_kept (save_checkpoint st cp).
Proof.
  intros Hst key l.
  destruct (decide (key = _get_key (job_id cp) (playlist_id cp))) as [->|Hne].
  2:{ rewrite lookup_save_ne by done. apply Hst. }
  rewrite lookup_save. intros [= <-].
  set (key := _get_key (job_id cp) (playlist_id cp)) in *.
  assert (Hold : NoDup (map batch_index (default [] (st !! key)))
                 ∧ Forall (fun c => _get_key (job_id c) (playlist_id c) = key)
                          (default [] (st !! key))).
  { destruct (st !! key) as [l0|] eqn:E; simpl.
    - by apply (Hst key).
    - split; constructor. }
  revert Hold. generalize (default [] (st !! key)). intros l0 [Hnd Hkeys].
  destruct (update_existing l0 cp) as [l'|] eqn:Eu.
  - apply update_existing_some in Eu as (a & c & b & -> & -> & Hc & Ha).
    split.
    + by rewrite map_app in Hnd |- *.
    + apply Forall_app in Hkeys as [Hka Hkb].
      apply Forall_cons in Hkb as [Hkc Hkb].
      apply Forall_app. split; [done|]. by constructor.
  - apply update_existing_none in Eu. split.
    + rewrite map_app. apply NoDup_app. split; [done|].
      split; [|apply NoDup_singleton].
      intros x Hx ->%list_elem_of_singleton.
      apply list_elem_of_fmap in Hx as (c & Hc & Hin).
      rewrite Forall_forall in Eu. by apply (Eu c Hin).
    + apply Forall_app. split; [done|]. by constructor.
Qed.

Lemma clear_well_kept st j p : well_kept st → well_kept (clear_checkpoints st j p).
Proof.
  intros Hst key l. unfold clear_checkpoints.
  destruct (decide (key = _get_key j p)) as [->|Hne].
  - by rewrite lookup_delete_eq.
  - rewrite lookup_delete_ne by done. apply Hst.
Qed.

Lemma after_well_kept calls : well_kept (after calls).
Proof.
  unfold after.
  assert (H : ∀ st, well_kept st → well_kept (fold_left apply_call calls st)).
  { induction calls as [|c calls IH]; intros st Hst; [done|].
    simpl. apply IH. destruct c; [by apply save_well_kept|by apply clear_well_kept]. }
  apply H. intros key l. unfold empty. by rewrite lookup_empty.
Qed.

Lemma batch_index_ltb_asym (a b : Checkpoint) :
  (batch_index a <? batch_index b) = true →
  (batch_index b <? batch_index a) = false.
Proof. intros H. apply Z.ltb_lt in H. apply Z.ltb_ge. lia. Qed.

Lemma sorted_by_batch_index l :
  NoDup (map batch_index l) →
  StronglySorted (fun a b => batch_index a < batch_index b)
    (py_sorted (fun a b => batch_index a <? batch_index b) l).
Proof.
  intros Hnd.
  pose proof (py_sorted_is_sorted _ batch_index_ltb_asym l) as HS.
  pose proof (py_sorted_perm (fun a b => batch_index a <? batch_index b) l) as Hp.
  assert (Hnd' : NoDup (map batch_index
                          (py_sorted (fun a b => batch_index a <? batch_index b) l))).
  { by rewrite Hp. }
  revert HS Hnd'. generalize (py_sorted (fun a b => batch_index a <? batch_index b) l).
  clear. intros S HS Hnd.
  apply Sorted_StronglySorted in HS.
  2:{ intros x y z. unfold le_of. rewrite !Z.ltb_ge. lia. }
  induction HS as [|x S HS IH Hx]; [constructor|].
  simpl in Hnd. apply NoDup_cons in Hnd as [Hx' Hnd].
  constructor; [by apply IH|].
  rewrite Forall_forall in Hx |- *. intros y Hy.
  specialize (Hx y Hy). unfold le_of in Hx. apply Z.ltb_ge in Hx.
  assert (batch_index x ≠ batch_index y); [|lia].
  intros E. apply Hx'. rewrite E. by apply list_elem_of_fmap_2.
Qed.

(** X15.  Whatever is saved and cleared, in whatever order, on a new
    [CheckpointStorage], [load_checkpoints] returns the checkpoints of a
    job and playlist in strictly increasing order of batch index, so at
    most one for each batch, and every one of them was saved under the key
    that is asked for. *)
Theorem storage_one_checkpoint_per_batch (calls : list call)
    (job playlist : str) :
  StronglySorted (fun a b => batch_index a < batch_index b)
    (load_checkpoints (after calls) job playlist)
  ∧ Forall (fun cp => _get_key (job_id cp) (playlist_id cp)
                      = _get_key job playlist)
           (load_checkpoints (after calls) job playlist).
Proof.
  pose proof (after_well_kept calls (_get_key job playlist)) as Hw.
  unfold load_checkpoints. cbv zeta.
  destruct (after calls !! _get_key job playlist) as [l|]; simpl.
  - destruct (Hw l eq_refl) as [Hnd Hk]. split.
    + by apply sorted_by_batch_index.
    + by rewrite (py_sorted_perm _ l).
  - split; constructor.
Qed.

Lemma update_existing_again l cp l' :
  update_existing l cp = Some l' → update_existing l' cp = Some l'.
Proof.
  intros (a & c & b & -> & -> & Hc & Ha)%update_existing_some.
  clear -Hc Ha. induction Ha as [|c0 a Hc0 Ha IH]; simpl.
  - apply Z.eqb_eq in Hc. by rewrite Hc.
  - apply Z.eqb_neq in Hc0. by rewrite Hc0, IH.
Qed.

Lemma update_existing_appended l cp :
  update_existing l cp = None → update_existing (l ++ [cp]) cp = Some (l ++ [cp]).
Proof.
  intros H%update_existing_none.
  induction H as [|c0 l Hc0 Hl IH]; simpl.
  - rewrite Z.eqb_refl. by destruct cp.
  - apply Z.eqb_neq in Hc0. by rewrite Hc0, IH.
Qed.

(** X16.  [save_checkpoint] followed by [load_checkpoints] for the job
    and playlist of the checkpoint: the list holds a checkpoint with the
    saved batch index, [added_uris] and [updated_at]; the checkpoints of
    the other batches are those that were there; the list grows by one
    when the batch index is new and keeps its length when it is not.
    Saving the same checkpoint a second time changes nothing. *)
Theorem save_then_load (st : gmap str (list Checkpoint)) (cp : Checkpoint) :
  let before := load_checkpoints st (job_id cp) (playlist_id cp) in
  let loaded :=
    load_checkpoints (save_checkpoint st cp) (job_id cp) (playlist_id cp) in
  (∃ c, c ∈ loaded ∧ batch_index c = batch_index cp
        ∧ added_uris c = added_uris cp ∧ updated_at c = updated_at cp)
  ∧ (∀ c, batch_index c ≠ batch_index cp → c ∈ loaded ↔ c ∈ before)
  ∧ length loaded
    = (if bool_decide (batch_index cp ∈ map batch_index before)
       then length before else S (length before))
  ∧ save_checkpoint (save_checkpoint st cp) cp = save_checkpoint st cp.
Proof.
  intros before loaded. subst before loaded. unfold load_checkpoints. cbv zeta.
  rewrite lookup_save_default.
  set (key := _get_key (job_id cp) (playlist_id cp)).
  set (lt := fun a b => batch_index a <? batch_index b).
  assert (Hsave2 : save_checkpoint (save_checkpoint st cp) cp
                   = save_checkpoint st cp).
  { unfold save_checkpoint at 1. cbv zeta. rewrite lookup_save_default.
    fold key. unfold save_checkpoint. cbv zeta. fold key.
    destruct (update_existing (default [] (st !! key)) cp) as [l'|] eqn:Eu.
    - rewrite (update_existing_again _ _ _ Eu). by rewrite insert_insert_eq.
    - rewrite (update_existing_appended _ _ Eu). by rewrite insert_insert_eq. }
  split; [|split; [|split; [|exact Hsave2]]].
  - destruct (update_existing (default [] (st !! key)) cp) as [l'|] eqn:Eu.
    + apply update_existing_some in Eu as (a & c & b & _ & -> & Hc & _).
      exists {| job_id := job_id c; playlist_id := playlist_id c;
                batch_index := batch_index c;
                added_uris := added_uris cp;
                updated_at := updated_at cp |}.
      split; [|by repeat split].
      rewrite (py_sorted_perm lt). apply elem_of_app. right.
      apply elem_of_cons. by left.
    + exists cp. split; [|done]. rewrite (py_sorted_perm lt).
      apply elem_of_app. right. apply elem_of_cons. by left.
  - intros c0 Hne. rewrite !(py_sorted_perm lt).
    destruct (update_existing (default [] (st !! key)) cp) as [l'|] eqn:Eu.
    + apply update_existing_some in Eu as (a & c & b & -> & -> & Hc & _).
      rewrite !elem_of_app, !elem_of_cons.
      split; (intros [?|[E|?]]; [by left| |by right; right]);
        subst; simpl in Hne; congruence.
    + rewrite elem_of_app, list_elem_of_singleton.
      split; [|by left]. intros [?|E]; [done|]. subst. congruence.
  - rewrite !(Permutation_length (py_sorted_perm lt _)).
    assert (Hmem : batch_index cp ∈ map batch_index
                     (py_sorted lt (default [] (st !! key)))
                   ↔ batch_index cp ∈ map batch_index (default [] (st !! key))).
    { by rewrite (py_sorted_perm lt). }
    destruct (update_existing (default [] (st !! key)) cp) as [l'|] eqn:Eu.
    + apply update_existing_some in Eu as (a & c & b & E & -> & Hc & _).
      rewrite bool_decide_eq_true_2.
      * rewrite E, !length_app. done.
      * apply Hmem. rewrite E, <- Hc. apply list_elem_of_fmap_2.
        apply elem_of_app. right. apply elem_of_cons. by left.
    + apply update_existing_none in Eu.
      rewrite bool_decide_eq_false_2.
      * rewrite length_app. simpl. lia.
      * rewrite Hmem. intros (c & Hc & Hin)%list_elem_of_fmap.
        rewrite Forall_forall in Eu. by apply (Eu c Hin).
Qed.

(** X17.  Keys.  A save touches the list of its own key only, and
    [clear_checkpoints] empties the list of its key and leaves the others;
    but the key [f"{job_id}:{playlist_id}"] does not separate the two
    identifiers: job [j:p] with playlist [q] and job [j] with playlist
    [p:q] share one list. *)
Theorem storage_keys (st : gmap str (list Checkpoint)) :
  (∀ cp job playlist,
     _get_key job playlist ≠ _get_key (job_id cp) (playlist_id cp) →
     load_checkpoints (save_checkpoint st cp) job playlist
     = load_checkpoints st job playlist)
  ∧ (∀ job playlist,
       load_checkpoints (clear_checkpoints st job playlist) job playlist = [])
  ∧ (∀ job playlist job' playlist',
       _get_key job' playlist' ≠ _get_key job playlist →
       load_checkpoints (clear_checkpoints st job playlist) job' playlist'
       = load_checkpoints st job' playlist')
  ∧ (∀ j p q,
       load_checkpoints st (j ++ py ":" ++ p) q
       = load_checkpoints st j (p ++ py ":" ++ q)).
Proof.
  split; [|split; [|split]].
  - intros cp job playlist Hne. unfold load_checkpoints. cbv zeta.
    by rewrite lookup_save_ne.
  - intros job playlist. unfold load_checkpoints, clear_checkpoints. cbv zeta.
    by rewrite lookup_delete_eq.
  - intros job playlist job' playlist' Hne.
    unfold load_checkpoints, clear_checkpoints. cbv zeta.
    by rewrite lookup_delete_ne.
  - intros j p q. unfold load_checkpoints, _get_key. cbv zeta.
    by rewrite <- !app_assoc.
Qed.

End CheckpointStorageFacts.

Lemma storage_keys_witness :
  CheckpointStorage.load_checkpoints
    (CheckpointStorage.save_checkpoint CheckpointStorage.empty
       {| CheckpointStorage.job_id := py "job1";
          CheckpointStorage.playlist_id := py "pl1";
          CheckpointStorage.batch_index := 0;
          CheckpointStorage.added_uris := [py "u1"];
          CheckpointStorage.updated_at := 0 |})
    (py "job1") (py "pl2")
  = CheckpointStorage.load_checkpoints CheckpointStorage.empty
      (py "job1") (py "pl2").
Proof.
  apply (proj1 (storage_keys CheckpointStorage.empty)). by vm_compute.
Defined.

(** ** Traces of the pipeline *)

Section TraceRules.
Context {W : Type}.
Implicit Types s : state W.

Lemma saved_app ev1 ev2 f : saved (ev1 ++ ev2) f = saved ev2 (saved ev1 f).
Proof. apply fold_left_app. Qed.

Lemma traces_conseq {A} (m : M (W:=W) A) (R R' : list event → outcome A → Prop) :
  traces m R → (∀ ev out, R ev out → R' ev out) → traces m R'.
Proof.
  intros Hm Himp s. destruct (Hm s) as (ev & Hl & Hf & HR).
  exists ev. auto.
Qed.

Lemma traces_ret {A} (a : A) (R : list event → outcome A → Prop) :
  R [] (Return a) → traces (W:=W) (ret a) R.
Proof. intros HR s. exists []. simpl. by rewrite app_nil_r. Qed.

Lemma traces_raise {A} (e : exn) (R : list event → outcome A → Prop) :
  R [] (Raised e) → traces (W:=W) (raise e) R.
Proof. intros HR s. exists []. simpl. by rewrite app_nil_r. Qed.

Lemma traces_out_of_fuel {A} (R : list event → outcome A → Prop) :
  R [] OutOfFuel → traces (W:=W) out_of_fuel R.
Proof. intros HR s. exists []. simpl. by rewrite app_nil_r. Qed.

Lemma traces_bind {A B} (m : M (W:=W) A) (k : A → M (W:=W) B)
    (R1 : list event → outcome A → Prop) (R : list event → outcome B → Prop) :
  traces m R1 →
  (∀ ev1 a, R1 ev1 (Return a) → traces (k a) (fun ev2 out => R (ev1 ++ ev2) out)) →
  (∀ ev e, R1 ev (Raised e) → R ev (Raised e)) →
  (∀ ev, R1 ev OutOfFuel → R ev OutOfFuel) →
  traces (m ≫= k) R.
Proof.
  intros Hm Hk He Hf s. destruct (Hm s) as (ev1 & Hl & Hfr & HR).
  unfold mbind, run_bind, bind.
  destruct (m s) as [[a|e|] s1]; simpl in *.
  - destruct (Hk ev1 a HR s1) as (ev2 & Hl2 & Hfr2 & HR2).
    exists (ev1 ++ ev2). rewrite Hl2, Hl, app_assoc. split; [done|].
    split; [|done]. by rewrite Hfr2, Hfr, saved_app.
  - exists ev1. auto.
  - exists ev1. auto.
Qed.

Lemma traces_try {A} (m : M (W:=W) A) (h : exn → M (W:=W) A)
    (R1 R : list event → outcome A → Prop) :
  traces m R1 →
  (∀ ev a, R1 ev (Return a) → R ev (Return a)) →
  (∀ ev1 e, R1 ev1 (Raised e) → traces (h e) (fun ev2 out => R (ev1 ++ ev2) out)) →
  (∀ ev, R1 ev OutOfFuel → R ev OutOfFuel) →
  traces (try_except m h) R.
Proof.
  intros Hm Hr Hh Hf s. destruct (Hm s) as (ev1 & Hl & Hfr & HR).
  unfold try_except.
  destruct (m s) as [[a|e|] s1]; simpl in *.
  - exists ev1. auto.
  - destruct (Hh ev1 e HR s1) as (ev2 & Hl2 & Hfr2 & HR2).
    exists (ev1 ++ ev2). rewrite Hl2, Hl, app_assoc. split; [done|].
    split; [|done]. by rewrite Hfr2, Hfr, saved_app.
  - exists ev1. auto.
Qed.

(** A call of a collaborator returns or raises what the collaborator
    answers in some world. *)
Lemma traces_call {A} (f : W → result A * W) (R : list event → outcome A → Prop) :
  (∀ w a w', f w = (Ok a, w') → R [] (Return a)) →
  (∀ w e w', f w = (Raise e, w') → R [] (Raised e)) →
  traces (call f) R.
Proof.
  intros Ha He s. exists []. unfold call.
  destruct (f (world s)) as [[a|e] w] eqn:E; simpl; rewrite app_nil_r; eauto.
Qed.

Lemma traces_read {A} (f : W → A * W) (R : list event → outcome A → Prop) :
  (∀ a, R [] (Return a)) → traces (read f) R.
Proof.
  intros Ha s. exists []. unfold read.
  destruct (f (world s)) as [a w]; simpl; by rewrite app_nil_r.
Qed.

Lemma traces_emit (e : event) (R : list event → outcome unit → Prop) :
  is_save e = false → R [e] (Return tt) → traces (W:=W) (emit e) R.
Proof. intros He HR s. exists [e]. simpl. by destruct e. Qed.

Lemma traces_save_checkpoint job playlist data
    (R : list event → outcome unit → Prop) :
  R [EvSaveCheckpoint (checkpoint_filename job playlist) data] (Return tt) →
  traces (W:=W) (save_checkpoint job playlist data) R.
Proof. intros HR s. eexists [_]. by simpl. Qed.

Lemma traces_lookup_candidates target track top_k
    (R : list event → outcome (list Candidate) → Prop) :
  (∀ c, R [EvFindTrackCandidates track top_k (Ok c)] (Return c)) →
  (∀ e, R [EvFindTrackCandidates track top_k (Raise e)] (Raised e)) →
  traces (W:=W) (lookup_candidates target track top_k) R.
Proof.
  intros H1 H2 s. unfold lookup_candidates.
  destruct (find_track_candidates target track top_k (world s)) as [[c|e] w];
    eexists [_]; simpl; auto.
Qed.

Lemma traces_write_tracks target playlist uris
    (R : list event → outcome (result AddResult) → Prop) :
  (∀ answer, R [EvAddTracksBatch playlist uris answer] (Return answer)) →
  traces (W:=W) (write_tracks target playlist uris) R.
Proof.
  intros HR s. unfold write_tracks.
  destruct (add_tracks_batch target playlist uris (world s)) as [answer w].
  eexists [_]. simpl. auto.
Qed.

Lemma traces_sleep (q : Q) (R : list event → outcome unit → Prop) :
  (sleep_accepts q = true → R [EvSleep q] (Return tt)) →
  (sleep_accepts q = false → fits_timestamp q = true →
   ∀ text, R [] (Raised (ValueError text))) →
  (fits_timestamp q = false → ∀ text, R [] (Raised (OverflowError text))) →
  traces (W:=W) (sleep q) R.
Proof.
  intros H1 H2 H3. unfold sleep_accepts in *. unfold sleep.
  destruct (fits_timestamp q); simpl in *.
  - destruct (Qle_bool 0 q).
    + apply traces_emit; auto.
    + apply traces_raise; auto.
  - apply traces_raise; auto.
Qed.

End TraceRules.

(** ** The retry loop as a whole *)

Section RetryLoop.
Context {W : Type}.
Variables (target : MusicProvider W) (bp : BatchProcessor).
Variables (playlist : str) (uris : list str).

Lemma answers_in_log_app ev1 ev2 :
  answers_in_log (ev1 ++ ev2) = answers_in_log ev1 ++ answers_in_log ev2.
Proof. apply flat_map_app. Qed.

Lemma added_uris_in_log_app ev1 ev2 :
  added_uris_in_log (ev1 ++ ev2) = added_uris_in_log ev1 ++ added_uris_in_log ev2.
Proof. apply flat_map_app. Qed.

Lemma hard_failures_app ev1 ev2 :
  hard_failures (ev1 ++ ev2) = hard_failures ev1 + hard_failures ev2.
Proof.
  unfold hard_failures. by rewrite answers_in_log_app, count_if_app.
Qed.

(** One turn of the loop makes one call of the provider. *)
Lemma traces_process_batch_attempt attempt :
  traces (process_batch_attempt target bp playlist uris attempt)
    (turn_ok bp playlist uris attempt).
Proof.
  unfold process_batch_attempt.
  eapply traces_bind;
    [apply (traces_write_tracks target playlist uris
              (fun ev out => ∃ answer,
                 ev = [EvAddTracksBatch playlist uris answer]
                 ∧ out = Return answer)); eauto
    | |by intros ev e (? & _ & [=])|by intros ev (? & _ & [=])].
  intros ? answer (? & -> & [= <-]).
  destruct answer as [r|e].
  { apply traces_ret. split; [by repeat constructor|]. by exists (Ok r). }
  assert (Hhard : ∀ e0, hard_failure (Raise e0) = true →
    traces (W:=W)
      (let attempt0 := attempt + 1 in
       if attempt0 >? max_retries bp
       then raise (TemporaryFailure
                     (py "Failed to process batch after "
                      ++ str_of_Z (max_retries bp)
                      ++ py " retries: " ++ exn_str e0))
       else sleep (inject_Z (2 ^ (attempt0 - 1)));; ret (Again attempt0))
      (fun ev2 out =>
         turn_ok bp playlist uris attempt
           ([EvAddTracksBatch playlist uris (Raise e0)] ++ ev2) out)).
  { intros e0 He0. cbv zeta.
    destruct (attempt + 1 >? max_retries bp) eqn:E.
    - apply traces_raise. split; [by repeat constructor|].
      exists (Raise e0). split; [done|]. split; [done|]. right. left.
      split; [done|]. split; [lia|eauto].
    - eapply traces_bind;
        [apply (traces_sleep _ (fun ev out =>
                  (ev = [EvSleep (inject_Z (2 ^ (attempt + 1 - 1)))]
                   ∧ out = Return tt ∧ attempt + 1 ≤ 34)
                  ∨ (ev = [] ∧ 34 < attempt + 1
                     ∧ ∃ text, out = Raised (OverflowError text))))
        | | |].
      + rewrite sleep_accepts_pow. intros H%Z.ltb_lt. left.
        repeat split; try done. lia.
      + intros H1 H2. by rewrite (fits_timestamp_pow _ H1) in H2.
      + intros H text. right. split; [done|].
        assert (Ha : sleep_accepts (inject_Z (2 ^ (attempt + 1 - 1))) = false)
          by (unfold sleep_accepts; by rewrite H).
        rewrite sleep_accepts_pow in Ha. apply Z.ltb_ge in Ha.
        split; [lia|eauto].
      + intros ? [] [(-> & _ & Hlow)|(_ & _ & ? & [=])]. apply traces_ret.
        split; [by repeat constructor|].
        exists (Raise e0). split; [done|].
        split; [done|]. split; [by destruct e0|]. rewrite He0.
        split; [done|]. split; lia.
      + intros ev e1 [(_ & [=] & _)|(-> & Hhigh & text & [= ->])].
        split; [by repeat constructor|].
        exists (Raise e0). split; [done|]. split; [done|]. right. right.
        split; [done|]. split; [lia|]. split; [lia|eauto].
      + by intros ev [(_ & [=] & _)|(_ & _ & ? & [=])]. }
  destruct e as [ms msg| | | | | | |]; try (by apply Hhard).
  eapply traces_bind;
    [apply (traces_sleep _ (fun ev out =>
              (ev = [EvSleep (ms # 1000)] ∧ out = Return tt
               ∧ sleep_accepts (ms # 1000) = true)
              ∨ (ev = [] ∧ sleep_accepts (ms # 1000) = false
                 ∧ ∃ e, out = Raised e ∧ sleep_error e)))
    | | |].
  - intros H. by left.
  - intros H _ text. right. split; [done|]. split; [done|]. by eexists.
  - intros H text. right. split; [done|].
    split; [unfold sleep_accepts; by rewrite H|]. by eexists.
  - intros ? [] [(-> & _ & Hms)|(_ & _ & ? & [=] & _)]. apply traces_ret.
    split; [by repeat constructor|].
    exists (Raise (RateLimited ms msg)). simpl. rewrite Hms, Z.add_0_r.
    repeat split; try done; lia.
  - intros ev e [(_ & [=] & _)|(-> & Hms & e' & [= ->] & He')].
    split; [by repeat constructor|].
    exists (Raise (RateLimited ms msg)). simpl. rewrite Hms. auto.
  - by intros ev [(_ & [=] & _)|(_ & _ & ? & [=] & _)].
Qed.

Lemma hard_failures_one ev answer :
  answers_in_log ev = [answer] →
  hard_failures ev = if hard_failure answer then 1 else 0.
Proof.
  unfold hard_failures, count_if. intros ->. simpl.
  by destruct (hard_failure answer).
Qed.

Lemma traces_process_batch_loop fuel : ∀ attempt,
  traces (process_batch_loop fuel target bp playlist uris attempt)
    (loop_ok bp playlist uris fuel attempt).
Proof.
  assert (Hlate : ∀ attempt f, (attempt <=? max_retries bp) = false →
    traces (W:=W) (A:=AddResult)
      (raise (TemporaryFailure (py "Unexpected error in batch processing")))
      (loop_ok bp playlist uris f attempt)).
  { intros attempt f E. apply Z.leb_gt in E. apply traces_raise.
    split; [constructor|]. split; [|intros; lia].
    split; [constructor|]. right. left. split; [eauto|].
    unfold hard_failures, count_if. simpl. lia. }
  induction fuel as [|fuel IH]; intros attempt; simpl.
  - destruct (attempt <=? max_retries bp) eqn:E; [|by apply Hlate].
    apply Z.leb_le in E. apply traces_out_of_fuel.
    split; [constructor|]. split; [|done].
    split; [constructor|]. split; [done|].
    unfold hard_failures, count_if. simpl. lia.
  - destruct (attempt <=? max_retries bp) eqn:E; [|by apply Hlate].
    apply Z.leb_le in E.
    eapply traces_bind; [apply traces_process_batch_attempt| | |].
    + intros ev1 [r|attempt'] (Hev1 & answer & Hans & Hout).
      * subst answer. apply traces_ret. rewrite app_nil_r.
        split; [done|]. split; [|by rewrite Hans].
        split; [exists []; by rewrite Hans|].
        rewrite (hard_failures_one _ _ Hans). simpl. lia.
      * destruct Hout as (Hr & Hneg & -> & Hle & Hle').
        eapply traces_conseq; [apply IH|].
        intros ev2 out (Hev2 & Hout & Hne).
        pose proof (hard_failures_one _ _ Hans) as Hh.
        split; [by apply Forall_app|].
        rewrite answers_in_log_app, hard_failures_app, Hans, Hh.
        split; [|done].
        destruct out as [r|e|].
        -- destruct Hout as ((pre & -> & Hpre) & Hb & Hb').
           split; [|lia]. exists (answer :: pre). split; [done|].
           by constructor.
        -- destruct Hout as [Hall Hcause]. split; [by constructor|].
           destruct Hcause as [[Hn He]|[(Hm & Hb & Hb')|(Hm & Hb & Hb')]].
           ++ left. split; [|done]. simpl. by rewrite Hn, orb_true_r.
           ++ right. left. split; [done|]. lia.
           ++ right. right. split; [done|].
              destruct (hard_failure answer); lia.
        -- destruct Hout as (Hall & Hlen & Hb & Hb').
           split; [by constructor|]. split; [simpl; by rewrite Hlen|lia].
    + intros ev e (Hev & answer & Hans & Hr & Hcause).
      split; [done|]. rewrite Hans. split; [|done].
      split; [by repeat constructor|].
      rewrite (hard_failures_one _ _ Hans).
      destruct Hcause as [[Hn He]|[(Hh & Hlt & Hm)|(Hh & Hle & Hlt & Hm)]].
      * left. split; [|done]. simpl. by rewrite Hn.
      * right. left. split; [done|]. rewrite Hh. lia.
      * right. right. split; [done|]. rewrite Hh. lia.
    + by intros ev (_ & ? & _ & []).
Qed.

(** Events of the retry loop save nothing. *)
Lemma saved_batch_events (ev : list event) (f : gmap str checkpoint) :
  Forall (batch_event playlist uris) ev → saved ev f = f.
Proof.
  induction 1 as [|e ev He Hev IH]; [done|].
  destruct e; try done; simpl in *; by apply IH.
Qed.

Lemma refused_wait_unsafe (l : list (result AddResult)) :
  existsb refused_wait l = true → existsb unsafe_wait l = true.
Proof.
  induction l as [|a l IH]; [done|]. simpl.
  intros [Ha|Hl]%orb_true_iff; apply orb_true_iff; [left|right; by apply IH].
  destruct a as [r|[ms msg| | | | | | |]]; try done. simpl in *.
  rewrite sleep_accepts_ms in Ha.
  destruct (Z.leb_spec 0 ms), (Z.leb_spec ms 9223372036854),
    (Z.leb_spec ms 8589934592000); simpl in *; try done; lia.
Qed.

(** X20.  [process_batch] as a whole, outside a dry run.  Every call
    goes to the playlist with the batch it was given, and no checkpoint
    file is touched.  The exceptions of the provider other than
    [RateLimited] are the ones that count.
    - If it returns, the result is the last answer of the provider and
      every answer before it was an exception; at most [max_retries] of
      them counted, and at most 34.
    - If it raises, the provider never answered with a result, and one
      of three things happened.  A [RateLimited] suggested a wait that
      is negative or longer than [2^33] seconds, which [time.sleep] may
      refuse.  Or the exception is [TemporaryFailure], after exactly
      [max_retries + 1] exceptions that count (none when [max_retries]
      is negative), which are at most 35.  Or [time.sleep] refused the
      back-off after the 35th exception that counts, with [max_retries]
      at least 35, and the exception is its [OverflowError].
    - A loop that goes on for ever has only seen exceptions, of which at
      most [max_retries] counted and at most 34: all the others were
      [RateLimited].
    In a dry run it returns at once, without calling the provider. *)
Theorem process_batch_outcomes (fuel : nat) (job : str) (batch_index : Z)
    (s : state W) :
  let run :=
    process_batch fuel target bp playlist uris job batch_index false s in
  (∃ ev,
     log run.2 = log s ++ ev
     ∧ files run.2 = files s
     ∧ Forall (batch_event playlist uris) ev
     ∧ match run.1 with
       | Return r =>
           (∃ pre, answers_in_log ev = pre ++ [Ok r]
                   ∧ Forall (fun a => is_raise a = true) pre)
           ∧ hard_failures ev ≤ max_retries bp
           ∧ hard_failures ev ≤ 34
       | Raised e =>
           Forall (fun a => is_raise a = true) (answers_in_log ev)
           ∧ (existsb unsafe_wait (answers_in_log ev) = true
              ∨ ((∃ msg, e = TemporaryFailure msg)
                 ∧ hard_failures ev = Z.max 0 (max_retries bp + 1)
                 ∧ hard_failures ev ≤ 35)
              ∨ ((∃ msg, e = OverflowError msg)
                 ∧ hard_failures ev = 35
                 ∧ 35 ≤ max_retries bp))
       | OutOfFuel =>
           Forall (fun a => is_raise a = true) (answers_in_log ev)
           ∧ length (answers_in_log ev) = fuel
           ∧ hard_failures ev ≤ max_retries bp
           ∧ hard_failures ev ≤ 34
       end)
  ∧ process_batch fuel target bp playlist uris job batch_index true s
    = (Return {| added := Z.of_nat (length uris); duplicates := 0;
                 errors := 0 |}, s).
Proof.
  intros run. split; [|reflexivity].
  subst run. unfold process_batch.
  destruct (traces_process_batch_loop fuel 0 s) as (ev & Hlog & Hfiles & Hev & Hout & _).
  exists ev. split; [done|]. split; [by rewrite Hfiles, saved_batch_events|].
  split; [done|].
  destruct (process_batch_loop fuel target bp playlist uris 0 s).1; simpl in *.
  - destruct Hout as (H1 & H2 & H3). split; [done|lia].
  - destruct Hout as [Hall Hcause]. split; [done|].
    destruct Hcause as [[Hw _]|[(Hm & Hb & Hb')|(Hm & Hb & Hb')]].
    + left. by apply refused_wait_unsafe.
    + right. left. split; [done|lia].
    + right. right. split; [done|lia].
  - destruct Hout as (H1 & H2 & H3 & H4). repeat split; try done; lia.
Qed.

End RetryLoop.

(** ** A transfer as a whole *)

Section TransferTraces.
Context {U : UnicodeData} {W : Type}.
Variable P : TransferPipeline W.

Lemma batch_events_submitted pl b ev :
  Forall (batch_event pl b) ev →
  submitted ev = repeat b (length (answers_in_log ev)).
Proof.
  induction 1 as [|e ev He Hev IH]; [done|].
  destruct e; simpl in *; try done.
  destruct He as [_ ->]. by rewrite IH.
Qed.

Lemma batch_events_added pl b ev :
  Forall (batch_event pl b) ev →
  added_uris_in_log ev
  = flat_map (fun a => match a with
                       | Ok r => slice_to (added r) b
                       | Raise _ => []
                       end) (answers_in_log ev).
Proof.
  induction 1 as [|e ev He Hev IH]; [done|].
  destruct e as [|p u [r|x]| |]; simpl in *; try done.
  destruct He as [_ ->]. by rewrite IH.
Qed.

Lemma batch_events_no_lookup pl b ev :
  Forall (batch_event pl b) ev → Forall (fun e => is_lookup e = false) ev.
Proof. intros H. eapply Forall_impl; [exact H|]. by intros []. Qed.

Lemma raises_add_nothing (b : list str) (l : list (result AddResult)) :
  Forall (fun a => is_raise a = true) l →
  flat_map (fun a => match a with
                     | Ok r => slice_to (added r) b
                     | Raise _ => []
                     end) l = [].
Proof.
  induction 1 as [|a l Ha Hl IH]; [done|]. by destruct a.
Qed.

Lemma no_lookup_results m env ev :
  Forall (fun e => is_lookup e = false) ev →
  results_in_log m env ev = [] ∧ looked_up ev = [].
Proof.
  induction 1 as [|e ev He Hev [IH1 IH2]]; [done|].
  by destruct e.
Qed.

Lemma match_events_add_nothing dry ev :
  Forall (match_event dry) ev → added_uris_in_log ev = [] ∧ submitted ev = [].
Proof.
  induction 1 as [|e ev He Hev [IH1 IH2]]; [done|].
  by destruct e.
Qed.

Lemma matched_uris_of_app skip r1 r2 :
  matched_uris_of skip (r1 ++ r2)
  = matched_uris_of skip r1 ++ matched_uris_of skip r2.
Proof. apply flat_map_app. Qed.

Lemma same_job_trans (a b c : checkpoint) :
  same_job a b → same_job b c → same_job a c.
Proof. unfold same_job. intros (-> & -> & ->) (-> & -> & ->). done. Qed.

(** Stamping the dictionary and saving it. *)
Lemma traces_stamp_and_save {A} job pl (f : Z → checkpoint) (g : Z → A) :
  traces (W:=W)
    (time ← read (now P);
     save_checkpoint job pl (f time);;
     ret (g time))
    (fun ev out => ∃ time,
       ev = [EvSaveCheckpoint (checkpoint_filename job pl) (f time)]
       ∧ out = Return (g time)).
Proof.
  eapply traces_bind;
    [apply (traces_read _ (fun ev out => ev = [] ∧ ∃ t, out = Return t)); eauto
    | |by intros ev e [_ [? [=]]]|by intros ev [_ [? [=]]]].
  intros ? time [-> _]. simpl.
  eapply traces_bind;
    [apply (traces_save_checkpoint job pl (f time)
              (fun ev out =>
                 ev = [EvSaveCheckpoint (checkpoint_filename job pl) (f time)]
                 ∧ out = Return tt)); done
    | |by intros ev e [_ [=]]|by intros ev [_ [=]]].
  intros ? [] [-> _]. apply traces_ret. by exists time.
Qed.

(** One batch of the writing phase.  Whatever the provider does, the
    pipeline goes on: the exception of [process_batch] is turned into an
    error message. *)
Lemma traces_write_batch fuel tp job pl dry i b cp t :
  traces (write_batch P fuel tp job pl dry i b (cp, t))
    (fun ev out =>
       Forall (fun e => is_lookup e = false) ev
       ∧ (∀ e, out ≠ Raised e)
       ∧ (dry = false →
          (∃ n, submitted ev = repeat b n
                ∧ (0 ≤ max_retries (batch_processor P) → out ≠ OutOfFuel →
                   (1 ≤ n)%nat))
          ∧ ∀ cp' t', out = Return (cp', t') →
              same_job cp cp'
              ∧ addedUris cp' = addedUris cp ++ added_uris_in_log ev)).
Proof.
  destruct dry.
  { intros s. exists []. rewrite app_nil_r. by repeat split. }
  unfold write_batch.
  eapply traces_bind;
    [apply (traces_stamp_and_save job pl (fun time => set_batch_index i time cp)
              (fun time => set_batch_index i time cp))
    | |by intros ev e (? & _ & [=])|by intros ev (? & _ & [=])].
  intros ? cd (time & -> & [= ->]).
  eapply (traces_try _ _
    (fun ev out =>
       Forall (batch_event (playlist_id tp) b) ev
       ∧ (0 ≤ max_retries (batch_processor P) → out ≠ OutOfFuel →
          answers_in_log ev ≠ [])
       ∧ match out with
         | Return (cp', t') =>
             cp' = extend_added_uris (added_uris_in_log ev)
                     (set_batch_index i time cp)
         | Raised e => added_uris_in_log ev = []
         | OutOfFuel => True
         end)).
  - unfold process_batch.
    eapply traces_bind;
      [apply (traces_process_batch_loop (target_provider P) (batch_processor P)
                (playlist_id tp) b fuel 0)| | |].
    + intros ev1 r (Hev & [(pre & Hans & Hpre) _] & Hne).
      apply traces_ret. rewrite app_nil_r. split; [done|].
      split; [intros H _; apply Hne; [lia|done]|].
      rewrite (batch_events_added _ _ _ Hev), Hans, flat_map_app.
      rewrite (raises_add_nothing _ _ Hpre). simpl. by rewrite app_nil_r.
    + intros ev e (Hev & [Hall _] & Hne). split; [done|].
      split; [intros H _; apply Hne; [lia|done]|].
      rewrite (batch_events_added _ _ _ Hev). by apply raises_add_nothing.
    + intros ev (Hev & _ & Hne). by repeat split.
  - intros ev [cp' t'] (Hev & Hne & ->).
    split; [constructor; [done|by apply (batch_events_no_lookup _ _ _ Hev)]|].
    split; [done|]. intros _. split.
    + exists (length (answers_in_log ev)). simpl.
      split; [by apply (batch_events_submitted _ _ _ Hev)|].
      intros H1 H2. specialize (Hne H1 H2).
      destruct (answers_in_log ev); [done|simpl; lia].
    + by intros ? ? [= <- <-].
  - intros ev e (Hev & Hne & Hadd). apply traces_ret. rewrite app_nil_r.
    split; [constructor; [done|by apply (batch_events_no_lookup _ _ _ Hev)]|].
    split; [done|]. intros _. split.
    + exists (length (answers_in_log ev)). simpl.
      split; [by apply (batch_events_submitted _ _ _ Hev)|].
      intros H1 H2.
      assert (Hne' : answers_in_log ev ≠ []) by (by apply Hne).
      destruct (answers_in_log ev); [done|simpl; lia].
    + intros ? ? [= <- <-]. simpl. by rewrite Hadd, app_nil_r.
  - intros ev (Hev & Hne & _).
    split; [constructor; [done|by apply (batch_events_no_lookup _ _ _ Hev)]|].
    split; [done|]. intros _. split; [|done].
    exists (length (answers_in_log ev)). simpl.
    split; [by apply (batch_events_submitted _ _ _ Hev)|done].
Qed.

Lemma traces_write_batches fuel tp job pl dry batches : ∀ i cp t,
  traces (write_batches P fuel tp job pl dry i batches (cp, t))
    (fun ev out =>
       Forall (fun e => is_lookup e = false) ev
       ∧ (∀ e, out ≠ Raised e)
       ∧ (dry = false →
          (0 ≤ max_retries (batch_processor P) → out ≠ OutOfFuel →
           ∃ counts, length counts = length batches
                     ∧ Forall (fun n => (1 ≤ n)%nat) counts
                     ∧ submitted ev = repeated batches counts)
          ∧ ∀ cp' t', out = Return (cp', t') →
              same_job cp cp'
              ∧ addedUris cp' = addedUris cp ++ added_uris_in_log ev)).
Proof.
  induction batches as [|b batches IH]; intros i cp t; simpl.
  - apply traces_ret. split; [constructor|]. split; [done|]. intros _.
    split; [intros _ _; by exists []|].
    intros ? ? [= <- <-]. by rewrite app_nil_r.
  - eapply traces_bind; [apply traces_write_batch| | |].
    + intros ev1 [cp1 t1] (Hq1 & _ & H1).
      eapply traces_conseq; [apply IH|].
      intros ev2 out (Hq2 & Hr2 & H2).
      split; [by apply Forall_app|]. split; [done|].
      intros ->. destruct (H1 eq_refl) as [(n & Hsub1 & Hn) Hcp1].
      destruct (H2 eq_refl) as [Hsub2 Hcp2].
      destruct (Hcp1 _ _ eq_refl) as [Hj1 Ha1]. split.
      * intros Hm Hout. destruct (Hsub2 Hm Hout) as (counts & Hlen & Hall & Hs).
        exists (n :: counts). split; [simpl; by rewrite Hlen|].
        split; [constructor; [by apply Hn|done]|].
        rewrite submitted_app, Hsub1, Hs. done.
      * intros cp' t' Hret. destruct (Hcp2 _ _ Hret) as [Hj2 Ha2].
        split; [by eapply same_job_trans|].
        by rewrite Ha2, Ha1, added_uris_in_log_app, app_assoc.
    + intros ev e (_ & H & _). by destruct (H e).
    + intros ev (Hq & _ & H). split; [done|]. split; [done|].
      intros Hd. split; [by intros _ []|done].
Qed.

Lemma split_into_batches_raises bp (l : list str) e :
  split_into_batches bp l = Raise e → batch_size bp = 0.
Proof.
  unfold split_into_batches.
  destruct (batch_size bp =? 0) eqn:E; [intros _; by apply Z.eqb_eq|].
  by destruct (batch_size bp <? 0).
Qed.

(** The writing phase. *)
Lemma traces_process_matched_tracks fuel tp uris results job pl cp start dry
    already total :
  traces (_process_matched_tracks P fuel tp uris results job pl cp start dry
            already total)
    (fun ev out =>
       Forall (fun e => is_lookup e = false) ev
       ∧ (∀ e, out = Raised e → batch_size (batch_processor P) = 0)
       ∧ (∀ r, out = Return r →
            total_tracks r = default (Z.of_nat (length results)) total
            ∧ matched_tracks r = count_if is_matched results
            ∧ not_found_tracks r = count_if (has_reason "not_found") results
            ∧ ambiguous_tracks r = count_if (has_reason "ambiguous") results)
       ∧ (dry = false → ∀ r, out = Return r →
            (0 ≤ max_retries (batch_processor P) →
             ∃ batches counts,
               split_into_batches (batch_processor P) uris = Ok batches
               ∧ length counts = length batches
               ∧ Forall (fun n => (1 ≤ n)%nat) counts
               ∧ submitted ev = repeated batches counts)
            ∧ ∃ ev0 time cp',
                ev = ev0 ++ [EvSaveCheckpoint (checkpoint_filename job pl)
                               (set_stage "completed" time cp')]
                ∧ same_job cp cp'
                ∧ addedUris cp' = addedUris cp ++ added_uris_in_log ev)).
Proof.
  unfold _process_matched_tracks.
  eapply (traces_bind _ _
    (fun ev out =>
       Forall (fun e => is_lookup e = false) ev
       ∧ submitted ev = [] ∧ added_uris_in_log ev = []
       ∧ ∃ cp1, out = Return cp1 ∧ same_job cp cp1
                ∧ addedUris cp1 = addedUris cp)).
  { destruct dry.
    - apply traces_ret. repeat split; try done. by exists cp.
    - eapply traces_conseq;
        [apply (traces_stamp_and_save job pl
                  (fun time => set_stage "writing" time cp)
                  (fun time => set_stage "writing" time cp))|].
      intros ev out (time & -> & ->). repeat split; try done.
      + by repeat constructor.
      + by eexists. }
  2:{ by intros ev e (_ & _ & _ & ? & [=] & _). }
  2:{ by intros ev (_ & _ & _ & ? & [=] & _). }
  intros ev1 cp1 (Hq1 & Hs1 & Ha1 & ? & [= <-] & Hj1 & Hu1).
  eapply (traces_bind _ _
    (fun ev out =>
       ev = []
       ∧ match out with
         | Return batches =>
             split_into_batches (batch_processor P) uris = Ok batches
         | Raised e => batch_size (batch_processor P) = 0
         | OutOfFuel => False
         end)).
  { apply traces_call.
    - by intros w a w' [= -> _].
    - intros w e w' [= H _]. split; [done|].
      by apply (split_into_batches_raises _ _ _ H). }
  3:{ by intros ev [_ []]. }
  2:{ intros ev e [-> Hb]. rewrite app_nil_r.
      split; [done|]. split; [by intros|]. split; [done|]. by intros. }
  intros ? batches [-> Hsplit]. cbn [app].
  eapply traces_bind; [apply traces_write_batches| | |].
  3:{ intros ev (Hq & _ & _). split; [by apply Forall_app|].
      split; [done|]. split; [done|]. by intros. }
  2:{ intros ev e (_ & H & _). by destruct (H e). }
  intros ev2 [cp2 t2] (Hq2 & _ & H2).
  eapply (traces_bind _ _
    (fun ev out =>
       out = Return tt
       ∧ if dry then ev = []
         else ∃ time,
           ev = [EvSaveCheckpoint (checkpoint_filename job pl)
                   (set_stage "completed" time cp2)])).
  { destruct dry.
    - by apply traces_ret.
    - eapply traces_bind;
        [apply (traces_read _ (fun ev out => ev = [] ∧ ∃ t, out = Return t)); eauto
        | |by intros ev e [_ [? [=]]]|by intros ev [_ [? [=]]]].
      intros ? time [-> _]. simpl.
      apply traces_save_checkpoint. split; [done|]. by exists time. }
  2:{ by intros ev e [[=] _]. }
  2:{ by intros ev [[=] _]. }
  intros ev3 [] [_ Hev3].
  eapply traces_bind;
    [apply (traces_read _ (fun ev out => ev = [] ∧ ∃ t, out = Return t)); eauto
    | |by intros ev e [_ [? [=]]]|by intros ev [_ [? [=]]]].
  intros ? finish [-> _]. apply traces_ret. rewrite !app_nil_r.
  assert (Hq3 : Forall (fun e => is_lookup e = false) ev3).
  { destruct dry; [by subst|]. destruct Hev3 as [time ->]. by repeat constructor. }
  split; [by rewrite !Forall_app|].
  split; [done|]. split; [by intros ? [= <-]|].
  intros ->. intros r _. destruct Hev3 as [time ->].
  destruct (H2 eq_refl) as [Hsub2 Hcp2].
  destruct (Hcp2 _ _ eq_refl) as [Hj2 Hu2]. split.
  - intros Hm. destruct (Hsub2 Hm) as (counts & Hlen & Hall & Hs); [done|].
    exists batches, counts. repeat split; try done.
    rewrite !submitted_app, Hs1, Hs. simpl. by rewrite app_nil_r.
  - exists (ev1 ++ ev2), time, cp2. split; [by rewrite app_assoc|].
    split; [by eapply same_job_trans|].
    rewrite !added_uris_in_log_app, Ha1, Hu2, Hu1. simpl.
    by rewrite app_nil_r.
Qed.

Lemma matched_uris_of_one (r : MatchResult) :
  matched_uris_of [] [r]
  = if truthy (uri r) then [or_empty (uri r)] else [].
Proof.
  unfold matched_uris_of. simpl. by rewrite app_nil_r, andb_true_r.
Qed.

(** The matching loop of a fresh transfer goes through every track: a
    lookup that raises leaves the [error] result and the loop goes on. *)
Lemma traces_match_fresh_track job pl dry i track cp uris results :
  traces (match_fresh_track P job pl dry i track (cp, uris, results))
    (fun ev out =>
       Forall (match_event dry) ev
       ∧ looked_up ev = [track]
       ∧ ∃ cp',
           out = Return (cp',
                   uris ++ matched_uris_of []
                             (results_in_log (matcher P) (risk_mode_env P) ev),
                   results ++ results_in_log (matcher P) (risk_mode_env P) ev)
           ∧ same_job cp cp' ∧ addedUris cp' = addedUris cp).
Proof.
  unfold match_fresh_track.
  eapply (traces_try _ _
    (fun ev out =>
       Forall (match_event dry) ev ∧ looked_up ev = [track]
       ∧ ((∃ cp',
             out = Return (cp',
                     uris ++ matched_uris_of []
                               (results_in_log (matcher P) (risk_mode_env P) ev),
                     results ++ results_in_log (matcher P) (risk_mode_env P) ev)
             ∧ same_job cp cp' ∧ addedUris cp' = addedUris cp)
          ∨ (∃ e, out = Raised e
                  ∧ results_in_log (matcher P) (risk_mode_env P) ev
                    = [error_result])))).
  - eapply (traces_bind _ _
      (fun ev out => ∃ answer, ev = [EvFindTrackCandidates track 3 answer]
         ∧ out = match answer with Ok c => Return c | Raise e => Raised e end)).
    + apply traces_lookup_candidates; intros; by eexists.
    + intros ev1 c (answer & -> & Hout).
      destruct answer as [c'|]; [|done]. injection Hout as <-.
      assert (Huris :
        (if truthy (uri (find_best_match (matcher P) (risk_mode_env P) track c))
         then uris ++ [or_empty (uri (find_best_match (matcher P)
                                        (risk_mode_env P) track c))]
         else uris)
        = uris ++ matched_uris_of []
                    [find_best_match (matcher P) (risk_mode_env P) track c]).
      { rewrite matched_uris_of_one.
        destruct (truthy _); [done|by rewrite app_nil_r]. }
      cbv zeta. rewrite Huris.
      destruct (((i + 1) mod 10 =? 0) && negb dry) eqn:E.
      * apply andb_prop in E as [_ E]. apply negb_true_iff in E. subst dry.
        eapply traces_conseq;
          [apply (traces_stamp_and_save job pl
                    (fun time => set_progress (i + 1) time cp)
                    (fun time =>
                       (set_progress (i + 1) time cp,
                        uris ++ matched_uris_of []
                                  [find_best_match (matcher P) (risk_mode_env P)
                                     track c],
                        results ++ [find_best_match (matcher P)
                                      (risk_mode_env P) track c])))|].
        intros ev out (time & -> & ->). simpl.
        split; [by repeat constructor|]. split; [done|]. left.
        by eexists.
      * apply traces_ret. simpl.
        split; [by repeat constructor|]. split; [done|]. left.
        by exists cp.
    + intros ev e (answer & -> & Hout). destruct answer as [|e']; [done|].
      split; [by repeat constructor|]. split; [done|]. right. eauto.
    + intros ev (answer & -> & Hout). by destruct answer.
  - intros ev acc (Hev & Hl & [(cp' & -> & H)|(e & [=] & _)]). eauto.
  - intros ev1 e (Hev & Hl & [(cp' & [=] & _)|(e' & _ & Hres)]).
    apply traces_ret. rewrite app_nil_r, Hres.
    split; [done|]. split; [done|]. exists cp.
    rewrite matched_uris_of_one. simpl. by rewrite app_nil_r.
  - intros ev (Hev & Hl & [(cp' & [=] & _)|(e' & [=] & _)]).
Qed.

Lemma traces_match_fresh job pl dry tracks : ∀ i cp uris results,
  traces (match_fresh P job pl dry i tracks (cp, uris, results))
    (fun ev out =>
       Forall (match_event dry) ev
       ∧ looked_up ev = tracks
       ∧ ∃ cp',
           out = Return (cp',
                   uris ++ matched_uris_of []
                             (results_in_log (matcher P) (risk_mode_env P) ev),
                   results ++ results_in_log (matcher P) (risk_mode_env P) ev)
           ∧ same_job cp cp' ∧ addedUris cp' = addedUris cp).
Proof.
  induction tracks as [|track tracks IH]; intros i cp uris results; simpl.
  - apply traces_ret. split; [constructor|]. split; [done|].
    exists cp. by rewrite !app_nil_r.
  - eapply traces_bind; [apply traces_match_fresh_track| | |].
    + intros ev1 [[cp1 uris1] results1] (Hev1 & Hl1 & cp' & [= -> -> ->] & Hj1 & Hu1).
      eapply traces_conseq; [apply IH|].
      intros ev2 out (Hev2 & Hl2 & cp2 & -> & Hj2 & Hu2).
      split; [by apply Forall_app|].
      split; [by rewrite looked_up_app, Hl1, Hl2|].
      exists cp2. rewrite results_in_log_app, matched_uris_of_app, !app_assoc.
      split; [done|]. split; [by eapply same_job_trans|congruence].
    + by intros ev e (_ & _ & ? & [=] & _).
    + by intros ev (_ & _ & ? & [=] & _).
Qed.

(** The loop of a resumed transfer has no handler: the exception of a
    lookup leaves it. *)
Lemma traces_match_remaining already tracks : ∀ uris results,
  traces (match_remaining P already tracks (uris, results))
    (fun ev out =>
       Forall (match_event true) ev
       ∧ match out with
         | Return acc =>
             Forall (fun e => failed_lookup e = false) ev
             ∧ looked_up ev = tracks
             ∧ acc = (uris ++ matched_uris_of already
                                (results_in_log (matcher P) (risk_mode_env P) ev),
                      results ++ results_in_log (matcher P) (risk_mode_env P) ev)
         | Raised e =>
             ∃ pre track,
               ev = pre ++ [EvFindTrackCandidates track 3 (Raise e)]
               ∧ Forall (fun e => failed_lookup e = false) pre
         | OutOfFuel => False
         end).
Proof.
  induction tracks as [|track tracks IH]; intros uris results; simpl.
  - apply traces_ret. split; [constructor|]. split; [constructor|].
    by rewrite !app_nil_r.
  - eapply (traces_bind _ _
      (fun ev out => ∃ answer, ev = [EvFindTrackCandidates track 3 answer]
         ∧ out = match answer with Ok c => Return c | Raise e => Raised e end)).
    + apply traces_lookup_candidates; intros; by eexists.
    + intros ev1 c (answer & -> & Hout).
      destruct answer as [c'|]; [|done]. injection Hout as <-.
      eapply traces_conseq; [apply IH|].
      intros ev2 out (Hev2 & Hout).
      split; [by repeat constructor|].
      destruct out as [acc|e|]; [| |done].
      * destruct Hout as (Hok & Hl & ->). simpl. rewrite Hl.
        split; [by constructor|]. split; [done|].
        unfold matched_uris_of at 2. simpl.
        fold (matched_uris_of already
                (results_in_log (matcher P) (risk_mode_env P) ev2)).
        destruct (truthy _ && _); by rewrite <- !app_assoc.
      * destruct Hout as (pre & tr & -> & Hok).
        exists (EvFindTrackCandidates track 3 (Ok c) :: pre), tr.
        split; [done|]. by constructor.
    + intros ev e (answer & -> & Hout). destruct answer as [|e']; [done|].
      injection Hout as <-. split; [by repeat constructor|].
      exists [], track. split; [done|]. constructor.
    + intros ev (answer & -> & Hout). by destruct answer.
Qed.

End TransferTraces.

Section TransferOutcomes.
Context {U : UnicodeData} {W : Type}.
Variable P : TransferPipeline W.

Lemma saves_silent m env ev :
  Forall (fun e => is_save e = true) ev →
  looked_up ev = [] ∧ results_in_log m env ev = []
  ∧ submitted ev = [] ∧ added_uris_in_log ev = [].
Proof.
  induction 1 as [|e ev He Hev IH]; [done|]. by destruct e.
Qed.

Lemma match_events_parts m env dry ev :
  Forall (match_event dry) ev →
  submitted ev = [] ∧ added_uris_in_log ev = []
  ∧ length (results_in_log m env ev) = length (looked_up ev).
Proof.
  induction 1 as [|e ev He Hev (IH1 & IH2 & IH3)]; [done|].
  destruct e as [t k [c|x]| | |]; simpl in *; try done; by rewrite IH3.
Qed.

(** What the four parts of the events of a transfer contribute: the two
    early saves, the matching loop and the writing phase. *)
Lemma transfer_log_parts m env dry evA evB evM evP :
  Forall (fun e => is_save e = true) evA →
  Forall (fun e => is_save e = true) evB →
  Forall (match_event dry) evM →
  Forall (fun e => is_lookup e = false) evP →
  looked_up (evA ++ evB ++ evM ++ evP) = looked_up evM
  ∧ results_in_log m env (evA ++ evB ++ evM ++ evP) = results_in_log m env evM
  ∧ submitted (evA ++ evB ++ evM ++ evP) = submitted evP
  ∧ added_uris_in_log (evA ++ evB ++ evM ++ evP) = added_uris_in_log evP.
Proof.
  intros HA HB HM HP.
  destruct (saves_silent m env _ HA) as (A1 & A2 & A3 & A4).
  destruct (saves_silent m env _ HB) as (B1 & B2 & B3 & B4).
  destruct (match_events_parts m env _ _ HM) as (M3 & M4 & _).
  destruct (no_lookup_results m env _ HP) as (P2 & P1).
  rewrite !looked_up_app, !results_in_log_app, !submitted_app,
    !added_uris_in_log_app.
  rewrite A1, A2, A3, A4, B1, B2, B3, B4, M3, M4, P1, P2. simpl.
  by rewrite !app_nil_r.
Qed.

Lemma traces_save_unless_dry (dry : bool) job pl data :
  traces (W:=W) (if dry then ret tt else save_checkpoint job pl data)
    (fun ev out => out = Return tt ∧ Forall (fun e => is_save e = true) ev).
Proof.
  destruct dry.
  - by apply traces_ret.
  - apply traces_save_checkpoint. split; [done|]. by repeat constructor.
Qed.

Lemma traces_call_answer {A} (f : W → result A * W) :
  traces (call f)
    (fun ev out =>
       ev = []
       ∧ match out with
         | Return a => ∃ w w', f w = (Ok a, w')
         | Raised e => ∃ w w', f w = (Raise e, w')
         | OutOfFuel => False
         end).
Proof. apply traces_call; intros; split; eauto. Qed.

Lemma traces_clock :
  traces (read (now P)) (fun ev out => ev = [] ∧ ∃ t, out = Return t).
Proof. apply traces_read. eauto. Qed.

(** The fresh path. *)
Lemma traces_start_fresh_transfer fuel source_playlist job hash start dry :
  traces (_start_fresh_transfer P fuel source_playlist job hash start dry)
    (fun ev out =>
       (∀ e, out = Raised e →
          batch_size (batch_processor P) = 0
          ∨ (∃ w w', list_tracks (source_provider P)
                       (playlist_id source_playlist) w = (Raise e, w'))
          ∨ (∃ w w', resolve_or_create_playlist (target_provider P)
                       (playlist_name source_playlist) w = (Raise e, w')))
       ∧ (∀ r, out = Return r →
            (∃ tracks w w',
               list_tracks (source_provider P) (playlist_id source_playlist) w
               = (Ok tracks, w')
               ∧ looked_up ev = tracks
               ∧ total_tracks r = Z.of_nat (length tracks))
            ∧ matched_tracks r
              = count_if is_matched
                  (results_in_log (matcher P) (risk_mode_env P) ev)
            ∧ not_found_tracks r
              = count_if (has_reason "not_found")
                  (results_in_log (matcher P) (risk_mode_env P) ev)
            ∧ ambiguous_tracks r
              = count_if (has_reason "ambiguous")
                  (results_in_log (matcher P) (risk_mode_env P) ev))
       ∧ (dry = false → ∀ r, out = Return r →
            (0 ≤ max_retries (batch_processor P) →
             ∃ batches counts,
               split_into_batches (batch_processor P)
                 (matched_uris_of []
                    (results_in_log (matcher P) (risk_mode_env P) ev))
               = Ok batches
               ∧ length counts = length batches
               ∧ Forall (fun n => (1 ≤ n)%nat) counts
               ∧ submitted ev = repeated batches counts)
            ∧ ∃ ev0 time cp',
                ev = ev0 ++ [EvSaveCheckpoint
                               (checkpoint_filename job
                                  (playlist_id source_playlist))
                               (set_stage "completed" time cp')]
                ∧ jobId cp' = job ∧ snapshotHash cp' = hash
                ∧ playlistId cp' = playlist_id source_playlist
                ∧ addedUris cp' = added_uris_in_log ev)).
Proof.
  unfold _start_fresh_transfer.
  eapply traces_bind;
    [apply traces_clock| |by intros ev e [_ [? [=]]]|by intros ev [_ [? [=]]]].
  intros ? time0 [-> _]. cbn [app].
  eapply traces_bind;
    [apply traces_save_unless_dry| |by intros ev e [[=] _]|by intros ev [[=] _]].
  intros evA [] [_ HA].
  eapply traces_bind; [apply traces_call_answer| | |].
  3:{ by intros ev [_ []]. }
  2:{ intros ev e [-> Hw]. split; [intros ? [= <-]; auto|]. by split. }
  intros ? tracks [-> (w1 & w1' & Htracks)]. cbn [app].
  eapply traces_bind;
    [apply traces_clock| |by intros ev e [_ [? [=]]]|by intros ev [_ [? [=]]]].
  intros ? time1 [-> _]. cbn [app].
  eapply traces_bind;
    [apply traces_save_unless_dry| |by intros ev e [[=] _]|by intros ev [[=] _]].
  intros evB [] [_ HB].
  eapply traces_bind; [apply traces_call_answer| | |].
  3:{ by intros ev [_ []]. }
  2:{ intros ev e [-> Hw]. split; [intros ? [= <-]; auto|]. by split. }
  intros ? tp [-> _]. cbn [app].
  eapply traces_bind; [apply traces_match_fresh| | |].
  3:{ by intros ev (_ & _ & ? & [=] & _). }
  2:{ by intros ev e (_ & _ & ? & [=] & _). }
  intros evM [[cp1 uris1] results1]
    (HM & Hlook & cp' & [= -> -> ->] & Hjob & Hadded).
  eapply traces_conseq; [apply traces_process_matched_tracks|].
  intros evP out (HP & Hraise & Hret & Hwet).
  destruct (transfer_log_parts (matcher P) (risk_mode_env P) _ _ _ _ _
              HA HB HM HP) as (-> & -> & -> & ->).
  split; [intros e He; left; by apply (Hraise e)|]. split.
  - intros r Hr. destruct (Hret r Hr) as (Ht & Hm & Hn & Ha).
    split; [|done]. by exists tracks, w1, w1'.
  - intros Hdry r Hr. destruct (Hwet Hdry r Hr) as [Hsub Hcp]. split; [done|].
    destruct Hcp as (ev0 & time & cp2 & -> & Hjob2 & Hadded2).
    exists (evA ++ evB ++ evM ++ ev0), time, cp2.
    split; [by rewrite <- !app_assoc|].
    destruct Hjob as (J1 & J2 & J3). destruct Hjob2 as (K1 & K2 & K3).
    rewrite <- K1, <- K2, <- K3, <- J1, <- J2, <- J3.
    rewrite Hadded2, Hadded. done.
Qed.

(** The resume path. *)
Lemma traces_resume_from_checkpoint fuel source_playlist job cp start dry :
  traces (_resume_from_checkpoint P fuel source_playlist job cp start dry)
    (fun ev out =>
       (∀ e, out = Raised e →
          batch_size (batch_processor P) = 0
          ∨ (∃ w w', list_tracks (source_provider P)
                       (playlist_id source_playlist) w = (Raise e, w'))
          ∨ (∃ w w', resolve_or_create_playlist (target_provider P)
                       (playlist_name source_playlist) w = (Raise e, w'))
          ∨ (∃ pre track,
               ev = pre ++ [EvFindTrackCandidates track 3 (Raise e)]))
       ∧ (∀ r, out = Return r →
            ∃ tracks w w',
              list_tracks (source_provider P) (playlist_id source_playlist) w
              = (Ok tracks, w')
              ∧ looked_up ev = slice_from (cursor_trackIndex cp) tracks
              ∧ total_tracks r = Z.of_nat (length tracks))
       ∧ (dry = false → ∀ r, out = Return r →
            (0 ≤ max_retries (batch_processor P) →
             ∃ batches counts,
               split_into_batches (batch_processor P)
                 (matched_uris_of (addedUris cp)
                    (results_in_log (matcher P) (risk_mode_env P) ev))
               = Ok batches
               ∧ length counts = length batches
               ∧ Forall (fun n => (1 ≤ n)%nat) counts
               ∧ submitted ev = repeated batches counts)
            ∧ ∃ ev0 time cp',
                ev = ev0 ++ [EvSaveCheckpoint
                               (checkpoint_filename job
                                  (playlist_id source_playlist))
                               (set_stage "completed" time cp')]
                ∧ same_job cp cp'
                ∧ addedUris cp' = addedUris cp ++ added_uris_in_log ev)
       ∧ (Forall (fun e => failed_lookup e = false) ev
          ∨ ∃ pre track e,
              ev = pre ++ [EvFindTrackCandidates track 3 (Raise e)]
              ∧ Forall (fun e => failed_lookup e = false) pre
              ∧ out = Raised e)).
Proof.
  unfold _resume_from_checkpoint.
  eapply traces_bind; [apply traces_call_answer| | |].
  3:{ by intros ev [_ []]. }
  2:{ intros ev e [-> Hw]. split; [intros ? [= <-]; auto|].
      split; [done|]. split; [done|]. left. constructor. }
  intros ? tracks [-> (w1 & w1' & Htracks)]. cbn [app].
  eapply traces_bind; [apply traces_call_answer| | |].
  3:{ by intros ev [_ []]. }
  2:{ intros ev e [-> Hw]. split; [intros ? [= <-]; auto|].
      split; [done|]. split; [done|]. left. constructor. }
  intros ? tp [-> _]. cbn [app].
  eapply traces_bind; [apply traces_match_remaining| | |].
  3:{ by intros ev [_ []]. }
  2:{ intros ev e [_ (pre & tr & -> & Hok)].
      split; [intros ? [= <-]; right; right; right; eauto|].
      split; [done|]. split; [done|]. right. by exists pre, tr, e. }
  intros evM [uris1 results1] (HM & Hok & Hlook & [= -> ->]).
  eapply traces_conseq; [apply traces_process_matched_tracks|].
  intros evP out (HP & Hraise & Hret & Hwet).
  destruct (transfer_log_parts (matcher P) (risk_mode_env P) true [] [] _ _
              (Forall_nil_2 _) (Forall_nil_2 _) HM HP)
    as (Hl & Hres & Hsub & Hadd).
  cbn [app] in Hl, Hres, Hsub, Hadd. rewrite Hl, Hres, Hsub, Hadd.
  split; [intros e He; left; by apply (Hraise e)|]. split.
  { intros r Hr. destruct (Hret r Hr) as (Ht & _).
    by exists tracks, w1, w1'. }
  split.
  2:{ left. apply Forall_app. split; [done|].
      eapply Forall_impl; [exact HP|]. by intros []. }
  intros Hdry r Hr.
  destruct (Hwet Hdry r Hr) as [Hs Hcp]. split; [done|].
  destruct Hcp as (ev0 & time & cp2 & -> & Hjob2 & Hadded2).
  exists (evM ++ ev0), time, cp2. by rewrite <- !app_assoc.
Qed.

(** *** The checkpoint files that a transfer leaves alone *)

Lemma own_conseq {A} name (m : M (W:=W) A) R :
  traces m R → (∀ ev out, R ev out → Forall (own_event name) ev) →
  traces m (fun ev _ => Forall (own_event name) ev).
Proof. intros Hm H. eapply traces_conseq; [exact Hm|]. exact H. Qed.

Lemma own_bind {A B} name (m : M (W:=W) A) (k : A → M (W:=W) B) :
  traces m (fun ev _ => Forall (own_event name) ev) →
  (∀ a, traces (k a) (fun ev _ => Forall (own_event name) ev)) →
  traces (m ≫= k) (fun ev _ => Forall (own_event name) ev).
Proof.
  intros Hm Hk. eapply traces_bind; [exact Hm| |done|done].
  intros ev1 a H1. eapply traces_conseq; [apply Hk|].
  intros ev2 out H2. by apply Forall_app.
Qed.

Lemma own_try {A} name (m : M (W:=W) A) (h : exn → M (W:=W) A) :
  traces m (fun ev _ => Forall (own_event name) ev) →
  (∀ e, traces (h e) (fun ev _ => Forall (own_event name) ev)) →
  traces (try_except m h) (fun ev _ => Forall (own_event name) ev).
Proof.
  intros Hm Hh. eapply traces_try; [exact Hm|done| |done].
  intros ev1 e H1. eapply traces_conseq; [apply Hh|].
  intros ev2 out H2. by apply Forall_app.
Qed.

Lemma own_ret {A} name (a : A) :
  traces (W:=W) (ret a) (fun ev _ => Forall (own_event name) ev).
Proof. by apply traces_ret. Qed.

Lemma own_clock name :
  traces (read (now P)) (fun ev _ => Forall (own_event name) ev).
Proof. by apply traces_read. Qed.

Lemma own_call {A} name (f : W → result A * W) :
  traces (call f) (fun ev _ => Forall (own_event name) ev).
Proof. by apply traces_call. Qed.

Lemma own_save job pl data :
  traces (W:=W) (save_checkpoint job pl data)
    (fun ev _ => Forall (own_event (checkpoint_filename job pl)) ev).
Proof. apply traces_save_checkpoint. by repeat constructor. Qed.

Lemma own_lookup name target track top_k :
  traces (W:=W) (lookup_candidates target track top_k)
    (fun ev _ => Forall (own_event name) ev).
Proof. apply traces_lookup_candidates; intros; by repeat constructor. Qed.

Lemma own_process_batch name fuel target bp playlist uris job i dry :
  traces (W:=W) (process_batch fuel target bp playlist uris job i dry)
    (fun ev _ => Forall (own_event name) ev).
Proof.
  unfold process_batch. destruct dry; [apply own_ret|].
  eapply own_conseq; [apply traces_process_batch_loop|].
  intros ev out [Hev _]. eapply Forall_impl; [exact Hev|]. by intros [].
Qed.

Lemma own_write_batches fuel tp job pl dry batches : ∀ i acc,
  traces (write_batches P fuel tp job pl dry i batches acc)
    (fun ev _ => Forall (own_event (checkpoint_filename job pl)) ev).
Proof.
  induction batches as [|b batches IH]; intros i acc; simpl; [apply own_ret|].
  apply own_bind; [|intros; apply IH].
  unfold write_batch. destruct acc as [cp t].
  apply own_bind.
  - destruct dry; [apply own_ret|].
    apply own_bind; [apply own_clock|]. intros time.
    apply own_bind; [apply own_save|]. intros []. apply own_ret.
  - intros cd. apply own_try; [|intros; apply own_ret].
    apply own_bind; [apply own_process_batch|]. intros. apply own_ret.
Qed.

Lemma own_process_matched_tracks fuel tp uris results job pl cp start dry
    already total :
  traces (_process_matched_tracks P fuel tp uris results job pl cp start dry
            already total)
    (fun ev _ => Forall (own_event (checkpoint_filename job pl)) ev).
Proof.
  unfold _process_matched_tracks.
  apply own_bind.
  { destruct dry; [apply own_ret|].
    apply own_bind; [apply own_clock|]. intros time.
    apply own_bind; [apply own_save|]. intros []. apply own_ret. }
  intros cd. apply own_bind; [apply own_call|]. intros batches.
  apply own_bind; [apply own_write_batches|]. intros [cp2 t2].
  apply own_bind.
  { destruct dry; [apply own_ret|].
    apply own_bind; [apply own_clock|]. intros time. apply own_save. }
  intros []. apply own_bind; [apply own_clock|]. intros. apply own_ret.
Qed.

Lemma own_match_fresh job pl dry tracks : ∀ i acc,
  traces (match_fresh P job pl dry i tracks acc)
    (fun ev _ => Forall (own_event (checkpoint_filename job pl)) ev).
Proof.
  induction tracks as [|track tracks IH]; intros i acc; simpl; [apply own_ret|].
  apply own_bind; [|intros; apply IH].
  unfold match_fresh_track. destruct acc as [[cp uris] results].
  apply own_try; [|intros; apply own_ret].
  apply own_bind; [apply own_lookup|]. intros c. cbv zeta.
  destruct (_ && _); [|apply own_ret].
  apply own_bind; [apply own_clock|]. intros time.
  apply own_bind; [apply own_save|]. intros []. apply own_ret.
Qed.

Lemma own_match_remaining name already tracks : ∀ acc,
  traces (match_remaining P already tracks acc)
    (fun ev _ => Forall (own_event name) ev).
Proof.
  induction tracks as [|track tracks IH]; intros [uris results]; simpl;
    [apply own_ret|].
  apply own_bind; [apply own_lookup|]. intros c. apply IH.
Qed.

Lemma own_transfer fuel source_playlist job hash dry :
  traces (transfer_playlist P fuel source_playlist job hash dry)
    (fun ev _ =>
       Forall (own_event (checkpoint_filename job (playlist_id source_playlist)))
         ev).
Proof.
  unfold transfer_playlist.
  apply own_bind; [apply own_clock|]. intros start.
  apply own_bind; [by intros s; exists []; rewrite app_nil_r|].
  intros [cp|].
  - unfold _resume_from_checkpoint.
    apply own_bind; [apply own_call|]. intros tracks.
    apply own_bind; [apply own_call|]. intros tp.
    apply own_bind; [apply own_match_remaining|]. intros [uris results].
    apply own_process_matched_tracks.
  - unfold _start_fresh_transfer.
    apply own_bind; [apply own_clock|]. intros time0.
    apply own_bind; [destruct dry; [apply own_ret|apply own_save]|]. intros [].
    apply own_bind; [apply own_call|]. intros tracks.
    apply own_bind; [apply own_clock|]. intros time1.
    apply own_bind; [destruct dry; [apply own_ret|apply own_save]|]. intros [].
    apply own_bind; [apply own_call|]. intros tp.
    apply own_bind; [apply own_match_fresh|]. intros [[cp uris] results].
    apply own_process_matched_tracks.
Qed.

Lemma saved_own name (ev : list event) : ∀ (f : gmap str checkpoint) other,
  Forall (own_event name) ev → other ≠ name → saved ev f !! other = f !! other.
Proof.
  induction ev as [|e ev IH]; intros f other Hev Hne; [done|].
  inversion Hev as [|? ? He Hev']; subst.
  destruct e; simpl in *; try (by apply IH).
  subst. unfold saved in IH. rewrite IH; [|done|done].
  by apply lookup_insert_ne.
Qed.

(** X21.  A transfer that finds no checkpoint looks up every track of
    the source playlist, once and in order, whatever the lookups answer:
    a lookup that raises is counted as an [error] result and the transfer
    goes on.  Such a transfer raises only what [list_tracks] or
    [resolve_or_create_playlist] raise, or the [ValueError] of a batch
    size of 0; no exception of [find_track_candidates] or
    [add_tracks_batch] leaves it (writing a checkpoint file is taken to
    succeed, as in [save_checkpoint]).  The totals of the result are those
    of the match results of the run. *)
Theorem fresh_transfer_absorbs_failures (fuel : nat) (source_playlist : Playlist)
    (job_id : str) (snapshot_hash : option str) (dry_run : bool)
    (s : state W) :
  files s !! checkpoint_filename job_id (playlist_id source_playlist) = None →
  let run :=
    transfer_playlist P fuel source_playlist job_id snapshot_hash dry_run s in
  let results := results_in_log (matcher P) (risk_mode_env P) in
  ∃ ev,
    log run.2 = log s ++ ev
    ∧ (∀ e, run.1 = Raised e →
         batch_size (batch_processor P) = 0
         ∨ (∃ w w', list_tracks (source_provider P)
                      (playlist_id source_playlist) w = (Raise e, w'))
         ∨ (∃ w w', resolve_or_create_playlist (target_provider P)
                      (playlist_name source_playlist) w = (Raise e, w')))
    ∧ (∀ r, run.1 = Return r →
         (∃ tracks w w',
            list_tracks (source_provider P) (playlist_id source_playlist) w
            = (Ok tracks, w')
            ∧ looked_up ev = tracks
            ∧ length (results ev) = length tracks
            ∧ total_tracks r = Z.of_nat (length tracks))
         ∧ matched_tracks r = count_if is_matched (results ev)
         ∧ not_found_tracks r = count_if (has_reason "not_found") (results ev)
         ∧ ambiguous_tracks r = count_if (has_reason "ambiguous") (results ev)).
Proof.
  intros Hnone run results. subst run results.
  rewrite transfer_playlist_unfold, Hnone.
  destruct (now P (world s)) as [start_time w].
  destruct (traces_start_fresh_transfer fuel source_playlist job_id
              snapshot_hash start_time dry_run (Build_state w (files s) (log s)))
    as (ev & Hlog & _ & Hraise & Hret & _).
  exists ev. split; [exact Hlog|]. split; [exact Hraise|].
  intros r Hr. destruct (Hret r Hr) as ((tracks & w1 & w1' & Ht & Hl & Hn) & H).
  split; [|exact H]. exists tracks, w1, w1'. repeat split; try done.
  rewrite <- Hl. clear.
  induction ev as [|e ev IH]; [done|].
  destruct e as [t k [c|x]| | |]; simpl; by rewrite ?IH.
Qed.

(** X22.  A transfer that returns outside a dry run leaves the checkpoint
    file of the job and playlist at stage [completed].  Its [addedUris]
    are those of the checkpoint that was found (none on the fresh path)
    followed by what the answered batch writes of the run report as
    added; job, snapshot hash and playlist are those of the checkpoint
    found, or those given.  No other checkpoint file is touched. *)
Theorem transfer_leaves_completed_checkpoint (fuel : nat)
    (source_playlist : Playlist) (job_id : str) (snapshot_hash : option str)
    (s : state W) (r : TransferResult) :
  let name := checkpoint_filename job_id (playlist_id source_playlist) in
  let run :=
    transfer_playlist P fuel source_playlist job_id snapshot_hash false s in
  run.1 = Return r →
  ∃ ev cp,
    log run.2 = log s ++ ev
    ∧ files run.2 !! name = Some cp
    ∧ stage cp = py "completed"
    ∧ match files s !! name with
      | Some found =>
          same_job found cp
          ∧ addedUris cp = addedUris found ++ added_uris_in_log ev
      | None =>
          jobId cp = job_id ∧ snapshotHash cp = snapshot_hash
          ∧ playlistId cp = playlist_id source_playlist
          ∧ addedUris cp = added_uris_in_log ev
      end
    ∧ ∀ other, other ≠ name → files run.2 !! other = files s !! other.
Proof.
  intros name run Hr.
  destruct (own_transfer fuel source_playlist job_id snapshot_hash false s)
    as (ev' & Hlog' & Hfiles' & Hown).
  fold run in Hlog', Hfiles'.
  assert (Hother : ∀ other, other ≠ name →
            files run.2 !! other = files s !! other).
  { intros other Hne. rewrite Hfiles'. by apply (saved_own name). }
  revert Hr Hother. clear Hlog' Hfiles' Hown. subst run.
  rewrite transfer_playlist_unfold. fold name.
  destruct (now P (world s)) as [start_time w]. cbv zeta.
  destruct (files s !! name) as [found|] eqn:Hfound.
  - destruct (traces_resume_from_checkpoint fuel source_playlist job_id found
                start_time false (Build_state w (files s) (log s)))
      as (ev & Hlog & Hfiles & _ & _ & H & _).
    intros Hr Hother. destruct (H eq_refl r Hr) as [_ Hcp].
    destruct Hcp as (ev0 & time & cp' & Hev & Hjob & Hadded).
    exists ev, (set_stage "completed" time cp').
    split; [exact Hlog|]. split.
    { rewrite Hfiles, Hev, saved_app. simpl. by apply lookup_insert_eq. }
    split; [done|]. split; [|exact Hother]. by split.
  - destruct (traces_start_fresh_transfer fuel source_playlist job_id
                snapshot_hash start_time false
                (Build_state w (files s) (log s)))
      as (ev & Hlog & Hfiles & _ & _ & H).
    intros Hr Hother. destruct (H eq_refl r Hr) as [_ Hcp].
    destruct Hcp as (ev0 & time & cp' & Hev & Hj1 & Hj2 & Hj3 & Hadded).
    exists ev, (set_stage "completed" time cp').
    split; [exact Hlog|]. split.
    { rewrite Hfiles, Hev, saved_app. simpl. by apply lookup_insert_eq. }
    split; [done|]. split; [|exact Hother]. by repeat split.
Qed.

(** X23.  What a transfer hands to the target provider, when writing the
    checkpoint files succeeds (as [save_checkpoint] has it; in the code
    the save in front of a batch is inside the [try], so a save that
    fails skips the batch).  Outside a dry run, with [max_retries] not
    negative, a transfer that returns has submitted exactly the batches
    that [split_into_batches] makes of the URIs matched in this run
    (without those the checkpoint lists as added), in order, each batch
    at least once and a retried batch again before the next one. *)
Theorem transfer_submits_matched_batches (fuel : nat)
    (source_playlist : Playlist) (job_id : str) (snapshot_hash : option str)
    (s : state W) (r : TransferResult) :
  let run :=
    transfer_playlist P fuel source_playlist job_id snapshot_hash false s in
  let already :=
    match files s !! checkpoint_filename job_id (playlist_id source_playlist) with
    | Some found => addedUris found
    | None => []
    end in
  0 ≤ max_retries (batch_processor P) →
  run.1 = Return r →
  ∃ ev batches counts,
    log run.2 = log s ++ ev
    ∧ split_into_batches (batch_processor P)
        (matched_uris_of already
           (results_in_log (matcher P) (risk_mode_env P) ev))
      = Ok batches
    ∧ length counts = length batches
    ∧ Forall (fun n => (1 ≤ n)%nat) counts
    ∧ submitted ev = repeated batches counts.
Proof.
  intros run already Hm. subst run already.
  rewrite transfer_playlist_unfold.
  destruct (now P (world s)) as [start_time w]. cbv zeta.
  destruct (files s !! _) as [found|].
  - destruct (traces_resume_from_checkpoint fuel source_playlist job_id found
                start_time false (Build_state w (files s) (log s)))
      as (ev & Hlog & _ & _ & _ & H & _).
    intros Hr. destruct (H eq_refl r Hr) as [Hsub _].
    destruct (Hsub Hm) as (batches & counts & ?).
    by exists ev, batches, counts.
  - destruct (traces_start_fresh_transfer fuel source_playlist job_id
                snapshot_hash start_time false
                (Build_state w (files s) (log s)))
      as (ev & Hlog & _ & _ & _ & H).
    intros Hr. destruct (H eq_refl r Hr) as [Hsub _].
    destruct (Hsub Hm) as (batches & counts & ?).
    by exists ev, batches, counts.
Qed.

Lemma failed_lookup_last (pre pre' post : list event) (x y : event) :
  Forall (fun e => failed_lookup e = false) pre →
  failed_lookup y = true →
  pre' ++ y :: post = pre ++ [x] →
  post = [] ∧ y = x.
Proof.
  intros Hok Hy. destruct post as [|z post _] using rev_ind.
  - intros H. by apply app_inj_tail in H as [_ ->].
  - intros H. rewrite app_comm_cons, app_assoc in H.
    apply app_inj_tail in H as [<- _].
    apply Forall_app in Hok as [_ Hok]. inversion Hok; congruence.
Qed.

(** X24.  A transfer that finds a checkpoint, when writing the
    checkpoint files succeeds (as [save_checkpoint] has it).  Unlike the
    fresh path it has no handler around the lookups: as soon as a lookup
    is answered with an exception, the transfer raises that exception,
    and the lookup is the last thing it did.  It raises nothing else but
    what [list_tracks] and [resolve_or_create_playlist] raise and the
    [ValueError] of a batch size of 0.  When it returns, it has looked
    up the source tracks from the track index of the checkpoint on, and
    no others, and reports all source tracks as [total_tracks]. *)
Theorem resumed_transfer_lookups (fuel : nat) (source_playlist : Playlist)
    (job_id : str) (snapshot_hash : option str) (dry_run : bool)
    (s : state W) (found : checkpoint) :
  files s !! checkpoint_filename job_id (playlist_id source_playlist)
  = Some found →
  let run :=
    transfer_playlist P fuel source_playlist job_id snapshot_hash dry_run s in
  ∃ ev,
    log run.2 = log s ++ ev
    ∧ (∀ pre track top_k e post,
         ev = pre ++ EvFindTrackCandidates track top_k (Raise e) :: post →
         post = [] ∧ run.1 = Raised e)
    ∧ (∀ e, run.1 = Raised e →
         batch_size (batch_processor P) = 0
         ∨ (∃ w w', list_tracks (source_provider P)
                      (playlist_id source_playlist) w = (Raise e, w'))
         ∨ (∃ w w', resolve_or_create_playlist (target_provider P)
                      (playlist_name source_playlist) w = (Raise e, w'))
         ∨ (∃ pre track,
              ev = pre ++ [EvFindTrackCandidates track 3 (Raise e)]))
    ∧ (∀ r, run.1 = Return r →
         ∃ tracks w w',
           list_tracks (source_provider P) (playlist_id source_playlist) w
           = (Ok tracks, w')
           ∧ looked_up ev = slice_from (cursor_trackIndex found) tracks
           ∧ total_tracks r = Z.of_nat (length tracks)).
Proof.
  intros Hfound run. subst run.
  rewrite transfer_playlist_unfold, Hfound.
  destruct (now P (world s)) as [start_time w].
  destruct (traces_resume_from_checkpoint fuel source_playlist job_id found
              start_time dry_run (Build_state w (files s) (log s)))
    as (ev & Hlog & _ & Hraise & Hret & _ & Hesc).
  exists ev. split; [done|]. split; [|by split].
  intros pre track top_k e post Hev.
  destruct Hesc as [Hok|(pre' & track' & e' & Hev' & Hok & Hout)].
  - rewrite Hev in Hok. apply Forall_app in Hok as [_ Hok].
    by inversion Hok.
  - rewrite Hev in Hev'.
    destruct (failed_lookup_last pre' pre post
                (EvFindTrackCandidates track' 3 (Raise e'))
                (EvFindTrackCandidates track top_k (Raise e))
                Hok eq_refl Hev') as [-> [= _ _ ->]].
    by split.
Qed.

End TransferOutcomes.

Lemma fresh_transfer_absorbs_failures_witness :
  let run :=
    transfer_playlist (U:=ascii_tables) Mock.flaky 5 Mock.source_playlist
      (py "job1") None false (Mock.start [Ok Mock.one_added] ∅) in
  ∃ ev,
    log run.2 = [] ++ ev
    ∧ ∀ r, run.1 = Return r →
        looked_up ev = [Mock.boom; Sample.bohemian] ∧ total_tracks r = 2.
Proof.
  destruct (fresh_transfer_absorbs_failures (U:=ascii_tables) Mock.flaky 5
              Mock.source_playlist (py "job1") None false
              (Mock.start [Ok Mock.one_added] ∅))
    as (ev & Hlog & _ & Hret); [reflexivity|].
  exists ev. split; [exact Hlog|]. intros r Hr.
  destruct (Hret r Hr) as [(tracks & w & w' & [= <-] & Hl & _ & Ht) _].
  by split.
Defined.

Lemma transfer_leaves_completed_checkpoint_witness :
  let s := Mock.start [Ok Mock.two_added] ∅ in
  let run :=
    transfer_playlist (U:=ascii_tables) Mock.steady 5 Mock.source_playlist
      (py "job1") None false s in
  ∃ ev cp,
    log run.2 = [] ++ ev
    ∧ files run.2 !! checkpoint_filename (py "job1") (py "pl1") = Some cp
    ∧ stage cp = py "completed"
    ∧ addedUris cp = added_uris_in_log ev.
Proof.
  intros s run.
  assert (Hr : ∃ r, run.1 = Return r) by (vm_compute; by eexists).
  destruct Hr as [r Hr].
  destruct (transfer_leaves_completed_checkpoint (U:=ascii_tables) Mock.steady
              5 Mock.source_playlist (py "job1") None s r Hr)
    as (ev & cp & Hlog & Hfile & Hstage & Hcp & _).
  exists ev, cp. split; [exact Hlog|]. split; [exact Hfile|].
  split; [exact Hstage|]. by destruct Hcp as (_ & _ & _ & ?).
Defined.

Lemma transfer_submits_matched_batches_witness :
  let s := Mock.start [Raise Mock.rate_limited; Ok Mock.two_added] ∅ in
  let run :=
    transfer_playlist (U:=ascii_tables) Mock.steady 5 Mock.source_playlist
      (py "job1") None false s in
  ∃ ev batches counts,
    log run.2 = [] ++ ev
    ∧ split_into_batches (batch_processor Mock.steady)
        (matched_uris_of []
           (results_in_log (U:=ascii_tables) (matcher Mock.steady)
              (risk_mode_env Mock.steady) ev))
      = Ok batches
    ∧ length counts = length batches
    ∧ Forall (fun n => (1 ≤ n)%nat) counts
    ∧ submitted ev = repeated batches counts.
Proof.
  intros s run.
  assert (Hr : ∃ r, run.1 = Return r) by (vm_compute; by eexists).
  destruct Hr as [r Hr].
  apply (transfer_submits_matched_batches (U:=ascii_tables) Mock.steady
           5 Mock.source_playlist (py "job1") None s r); [done|exact Hr].
Defined.

Lemma resumed_transfer_lookups_witness :
  let steady :=
    transfer_playlist (U:=ascii_tables) Mock.steady 5 Mock.source_playlist
      (py "job1") None false
      (Mock.start [Ok Mock.two_added] (Mock.checkpoint_file Mock.interrupted)) in
  let flaky :=
    transfer_playlist (U:=ascii_tables) Mock.flaky 5 Mock.source_playlist
      (py "job1") None false
      (Mock.start [Ok Mock.one_added] (Mock.checkpoint_file Mock.interrupted)) in
  (∃ r, steady.1 = Return r
        ∧ looked_up (log steady.2) = [Mock.boom; Sample.bohemian]
        ∧ total_tracks r = 2)
  ∧ flaky.1 = Raised (TemporaryFailure (py "timeout")).
Proof.
  intros steady flaky. split.
  - assert (Hr : ∃ r, steady.1 = Return r) by (vm_compute; by eexists).
    destruct Hr as [r Hr]. exists r. split; [exact Hr|].
    destruct (resumed_transfer_lookups (U:=ascii_tables) Mock.steady 5
                Mock.source_playlist (py "job1") None false
                (Mock.start [Ok Mock.two_added]
                   (Mock.checkpoint_file Mock.interrupted))
                Mock.interrupted)
      as (ev & Hlog & _ & _ & Hret); [apply lookup_singleton_eq|].
    destruct (Hret r Hr) as (tracks & w & w' & [= <-] & Hl & Ht).
    split; [|exact Ht].
    fold steady in Hlog. by rewrite Hlog.
  - destruct (resumed_transfer_lookups (U:=ascii_tables) Mock.flaky 5
                Mock.source_playlist (py "job1") None false
                (Mock.start [Ok Mock.one_added]
                   (Mock.checkpoint_file Mock.interrupted))
                Mock.interrupted)
      as (ev & Hlog & Hesc & _ & _); [apply lookup_singleton_eq|].
    fold flaky in Hlog, Hesc.
    apply (Hesc [] Mock.boom 3 (TemporaryFailure (py "timeout")) []).
    assert (Hev : ev = log flaky.2) by (by rewrite Hlog).
    rewrite Hev. by vm_compute.
Defined.
